(** * goware/tracer: the bounded group/span/message buffer of [tracer.go]

    A shallow embedding of the tracer store ([tracer], [logger], [logEntry])
    and of its operations, followed by the properties of the specification
    that are settled against it.

    Conventions.
    - Go strings are byte sequences: [string] (a list of 8-bit [ascii]).
    - Go maps are [gmap string _]; a missing key reads as [None], and the
      places where Go substitutes a zero value or a nil map are written out.
    - [time.Time] values are instants, totally ordered: [Time] is [Z]
      (nanoseconds since the Unix epoch).  Every stored time went through
      [.UTC()], which drops the monotonic clock reading, so [After] and
      [Before] compare instants.
    - [uint32] is [Z] with its wrap-around written out.
    - The store is a mutable object behind a mutex; here it is passed
      explicitly and every operation is one atomic step.
    - What the Go runtime and standard library leave open (the order of a
      [range] over a map, how [sort.Slice] orders equal keys) or compute
      outside this repository ([fmt.Sprintf] on a caller's template, the
      rendering of a time) is gathered in the record [GoRuntime]. *)

From Stdlib Require Import ZArith Ascii String DecimalString.
From stdpp Require Import base option list strings gmap fin_maps sorting.

Open Scope Z_scope.

(** ** Data model *)

Definition Time : Type := Z.

(** [time.Time{}]: January 1, year 1, 00:00:00 UTC. *)
Definition zeroTime : Time := -62135596800 * 1000000000.

Definition After (a b : Time) : bool := b <? a.
Definition Before (a b : Time) : bool := a <? b.

(** [type logEntry struct] *)
Record logEntry : Type := LogEntry {
  group : string;
  span : string;
  message : string;
  level : string;
  time : Time;
  count : Z (* uint32 *)
}.

Definition uint32_max : Z := 4294967296.

(** [x++] on a [uint32]. *)
Definition uint32_incr (x : Z) : Z := (x + 1) mod uint32_max.

(** [type tracer struct]; the mutex is not modelled. *)
Record tracer : Type := Tracer {
  logs : gmap string (gmap string (list logEntry));
  numGroups : Z;
  numSpans : Z;
  numMessages : Z;
  enabled : bool;
  groupTS : gmap string Time;
  spanTS : gmap string (gmap string Time)
}.

Definition set_logs (f : gmap string (gmap string (list logEntry)) →
                         gmap string (gmap string (list logEntry)))
    (t : tracer) : tracer :=
  Tracer (f (logs t)) (numGroups t) (numSpans t) (numMessages t) (enabled t)
         (groupTS t) (spanTS t).

Definition set_groupTS (f : gmap string Time → gmap string Time)
    (t : tracer) : tracer :=
  Tracer (logs t) (numGroups t) (numSpans t) (numMessages t) (enabled t)
         (f (groupTS t)) (spanTS t).

Definition set_spanTS (f : gmap string (gmap string Time) →
                           gmap string (gmap string Time))
    (t : tracer) : tracer :=
  Tracer (logs t) (numGroups t) (numSpans t) (numMessages t) (enabled t)
         (groupTS t) (f (spanTS t)).

Definition set_enabled (b : bool) (t : tracer) : tracer :=
  Tracer (logs t) (numGroups t) (numSpans t) (numMessages t) b
         (groupTS t) (spanTS t).

(** [type logger struct]: the store is passed to the operations. *)
Record logger : Type := Logger {
  l_group : string;
  l_span : string
}.

(** A dynamically typed argument of a printf-style call. *)
Variant any : Type :=
  | AnyString (s : string)
  | AnyInt (n : Z)
  | AnyBool (b : bool).

(** ** What the Go runtime decides *)

Record GoRuntime : Type := {
  (** the pairs of a map in the order one [for k, v := range m] visits them *)
  range : ∀ V : Type, gmap string V → list (string * V);
  range_perm : ∀ (V : Type) (m : gmap string V), range V m ≡ₚ map_to_list m;
  (** [sort.Slice] with the comparison [key(a).After(key(b))]: not stable *)
  sort_Slice : ∀ A : Type, (A → Time) → list A → list A;
  sort_Slice_perm : ∀ (A : Type) (key : A → Time) (l : list A),
    sort_Slice A key l ≡ₚ l;
  sort_Slice_sorted : ∀ (A : Type) (key : A → Time) (l : list A),
    StronglySorted (λ a b, key b ≤ key a) (sort_Slice A key l);
  (** [fmt.Sprintf] on the caller's template and arguments *)
  Sprintf : string → list any → string;
  (** [t.In(loc).Format(time.RFC822)], [loc] loaded from the zone name,
      UTC when it does not load *)
  format_RFC822 : string → Time → string;
  (** the result of [logEntry.TimeAgo]: it reads the wall clock
      ([time.Since]) and goes through [float64] durations *)
  time_ago : string → Time → string
}.

Arguments range _ {V} _.
Arguments sort_Slice _ {A} _ _.

(** [len] of a Go string, map or slice, as a Go [int]. *)
Definition len_string (s : string) : Z := Z.of_nat (String.length s).
Definition len_map {V} (m : gmap string V) : Z := Z.of_nat (size m).
Definition len_slice {A} (s : list A) : Z := Z.of_nat (length s).

(** [m[k1][k2]] with the comma-ok flag: a missing [k1] reads a nil map. *)
Definition lookup2 {V} (m : gmap string (gmap string V)) (k1 k2 : string)
    : option V :=
  m !! k1 ≫= λ inner, inner !! k2.

(** [m[k1]] where a missing key reads a nil (empty) map. *)
Definition inner_map {V} (m : gmap string (gmap string V)) (k1 : string)
    : gmap string V :=
  default ∅ (m !! k1).

(** [m[k1][k2] = v]: panics (assignment to entry in nil map) when [k1] is
    missing. *)
Definition assign2 {V} (m : gmap string (gmap string V)) (k1 k2 : string)
    (v : V) : option (gmap string (gmap string V)) :=
  inner ← m !! k1; Some (<[k1 := <[k2 := v]> inner]> m).

(** [delete(m[k1], k2)]: nothing happens on a nil map. *)
Definition delete2 {V} (m : gmap string (gmap string V)) (k1 k2 : string)
    : gmap string (gmap string V) :=
  alter (delete k2) k1 m.

(** ** Construction *)

Definition DefaultGroupCount : Z := 40.
Definition DefaultSpanCount : Z := 60.
Definition DefaultMessageCount : Z := 60.

Definition NewTracerWithSizes (numGroups numSpans numMessages : Z) : tracer :=
  let numGroups := if numGroups <? 1 then DefaultGroupCount else numGroups in
  let numSpans := if numSpans <? 1 then DefaultSpanCount else numSpans in
  let numMessages :=
    if numMessages <? 1 then DefaultMessageCount else numMessages in
  {| logs := ∅; numGroups := numGroups; numSpans := numSpans;
     numMessages := numMessages; enabled := true; groupTS := ∅;
     spanTS := ∅ |}.

Definition NewTracer : tracer :=
  NewTracerWithSizes DefaultGroupCount DefaultSpanCount DefaultMessageCount.

Definition Enable (t : tracer) : tracer := set_enabled true t.
Definition Disable (t : tracer) : tracer := set_enabled false t.
Definition IsEnabled (t : tracer) : bool := enabled t.

Definition Noop : tracer := Disable (NewTracerWithSizes 1 1 1).

Definition Trace (group span : string) : logger := Logger group span.
Definition Group (group : string) : logger := Logger group "".
Definition Span (l : logger) (span : string) : logger :=
  Logger (l_group l) span.
Definition With (group span : string) : logger := Logger group span.
Definition GetGroup (l : logger) : string := l_group l.
Definition GetSpan (l : logger) : string := l_span l.

(** ** Writing *)

(** The scan for the oldest key ([for k, ts := range m] with the running
    [oldest], [oldestTime] and [first]). *)
Fixpoint oldest_scan (kvs : list (string * Time)) (oldest : string)
    (oldestTime : Time) (first : bool) : string :=
  match kvs with
  | [] => oldest
  | (k, ts) :: rest =>
      if first || Before ts oldestTime
      then oldest_scan rest k ts false
      else oldest_scan rest oldest oldestTime first
  end.

Definition oldest_key (rt : GoRuntime) (m : gmap string Time) : string :=
  oldest_scan (range rt m) "" zeroTime true.

Definition maxMsgLen : nat := 1000.

(** [msg[:maxMsgLen]] when [len(msg) > maxMsgLen], [msg] otherwise. *)
Definition truncate (msg : string) : string :=
  if Z.of_nat maxMsgLen <? len_string msg
  then String.substring 0 maxMsgLen msg
  else msg.

(** The duplicate scan over the span's slice: the first entry with the same
    message and level is counted once more and takes the write's time. *)
Fixpoint dedup_scan (s : list logEntry) (msg lvl : string) (timeNow : Time)
    : list logEntry * bool :=
  match s with
  | [] => ([], false)
  | e :: s' =>
      if String.eqb (message e) msg && String.eqb (level e) lvl
      then (LogEntry (group e) (span e) (message e) (level e) timeNow
                     (uint32_incr (count e)) :: s', true)
      else let '(r, found) := dedup_scan s' msg lvl timeNow in (e :: r, found)
  end.

(** [delete(logs, g); delete(groupTS, g); delete(spanTS, g)] *)
Definition evict_group (g : string) (t : tracer) : tracer :=
  set_spanTS (delete g) (set_groupTS (delete g) (set_logs (delete g) t)).

(** [delete(logs[group], sp); delete(spanTS[group], sp)] *)
Definition evict_span (group sp : string) (t : tracer) : tracer :=
  set_spanTS (λ m, delete2 m group sp) (set_logs (λ m, delete2 m group sp) t).

(** [logs[group] = make(map); spanTS[group] = make(map)] *)
Definition create_group (group : string) (t : tracer) : tracer :=
  set_spanTS <[group := ∅]> (set_logs <[group := ∅]> t).

(** [len(groupTS) >= numGroups && numGroups > 0] *)
Definition at_group_capacity (t : tracer) : bool :=
  (numGroups t <=? len_map (groupTS t)) && (0 <? numGroups t).

(** [len(spanTS[group]) >= numSpans && numSpans > 0] *)
Definition at_span_capacity (t : tracer) (group : string) : bool :=
  (numSpans t <=? len_map (inner_map (spanTS t) group)) && (0 <? numSpans t).

(** The group part of [log]: the group's bucket, with the eviction of the
    oldest group at capacity. *)
Definition ensure_group (rt : GoRuntime) (group : string) (t : tracer)
    : tracer :=
  match logs t !! group with
  | Some _ => t
  | None =>
      let t :=
        if at_group_capacity t then
          let oldestGroup := oldest_key rt (groupTS t) in
          if negb (String.eqb oldestGroup "") then evict_group oldestGroup t
          else t
        else t in
      create_group group t
  end.

(** [make([]logEntry, 0, cap)].  The run time refuses a capacity that is out
    of range with a panic (makeslice: cap out of range): a negative one, and
    one whose [cap] elements take more than [maxAlloc] bytes.  A [logEntry]
    takes 96 bytes (four strings, a [time.Time] and a padded [uint32]) and
    [maxAlloc] is [2^48] bytes, as on linux/amd64.  A capacity in range is
    taken to be served: the exhaustion of memory, here as for every other
    allocation, is not a panic and is left out. *)
Definition logEntry_size : Z := 96.
Definition maxAlloc : Z := 281474976710656.

Definition makeslice_ok (cap : Z) : bool :=
  (0 <=? cap) && (cap * logEntry_size <=? maxAlloc).

Definition make_slice (cap : Z) : option (list logEntry) :=
  if makeslice_ok cap then Some [] else None.

(** The span part of [log]; [None] is a run-time panic: the slice of a new
    span is made with the capacity [numMessages], after the oldest span
    went. *)
Definition ensure_span (rt : GoRuntime) (group span : string) (t : tracer)
    : option tracer :=
  match lookup2 (logs t) group span with
  | Some _ => Some t
  | None =>
      let t :=
        if at_span_capacity t group then
          let oldestSpan := oldest_key rt (inner_map (spanTS t) group) in
          if negb (String.eqb oldestSpan "") then
            evict_span group oldestSpan t
          else t
        else t in
      s ← make_slice (numMessages t);
      lg ← assign2 (logs t) group span s; Some (set_logs (λ _, lg) t)
  end.

(** The entry part of [log], on the span's slice [s] and the formatted
    message. *)
Definition store_entry (l : logger) (lvl msg : string) (timeNow : Time)
    (numMessages : Z) (s : list logEntry) : option (list logEntry) :=
  let '(s', found) := dedup_scan s msg lvl timeNow in
  if found then Some s'
  else
    let newEntry := LogEntry (l_group l) (l_span l) msg lvl timeNow 1 in
    if len_slice s <? numMessages then Some (s ++ [newEntry])
    else if 0 <? numMessages then
      match s with
      | [] => None (* s[1:] out of range *)
      | _ :: s1 => Some (s1 ++ [newEntry])
      end
    else Some [].

(** The bookkeeping part of [log] (the group, its timestamp, the span, its
    timestamp); [None] is a run-time panic. *)
Definition touch (rt : GoRuntime) (group span : string) (timeNow : Time)
    (t : tracer) : option tracer :=
  let t := ensure_group rt group t in
  let t := set_groupTS <[group := timeNow]> t in
  t ← ensure_span rt group span t;
  ts ← assign2 (spanTS t) group span timeNow;
  Some (set_spanTS (λ _, ts) t).

(** [func (l *logger) log(level, group, span, message string, v ...any)] at
    the wall-clock time [timeNow]; [None] is a run-time panic. *)
Definition log (rt : GoRuntime) (l : logger) (lvl group span msgfmt : string)
    (v : list any) (timeNow : Time) (t : tracer) : option tracer :=
  if negb (IsEnabled t) then Some t
  else
    t ← touch rt group span timeNow t;
    let s := default [] (lookup2 (logs t) group span) in
    let msg := Sprintf rt msgfmt v in
    if len_string msg =? 0 then Some t
    else
      let msg := truncate msg in
      s ← store_entry l lvl msg timeNow (numMessages t) s;
      lg ← assign2 (logs t) group span s;
      Some (set_logs (λ _, lg) t).

Definition Info (rt : GoRuntime) (l : logger) (msgfmt : string)
    (v : list any) (timeNow : Time) (t : tracer) : option tracer :=
  log rt l "INFO" (l_group l) (l_span l) msgfmt v timeNow t.

Definition Warn (rt : GoRuntime) (l : logger) (msgfmt : string)
    (v : list any) (timeNow : Time) (t : tracer) : option tracer :=
  log rt l "WARN" (l_group l) (l_span l) msgfmt v timeNow t.

Definition Error (rt : GoRuntime) (l : logger) (msgfmt : string)
    (v : list any) (timeNow : Time) (t : tracer) : option tracer :=
  log rt l "ERROR" (l_group l) (l_span l) msgfmt v timeNow t.

(** ** Reading *)

Definition ListGroups (rt : GoRuntime) (t : tracer) : list string :=
  (range rt (logs t)).*1.

Definition ListSpans (rt : GoRuntime) (group : string) (t : tracer)
    : list string :=
  (range rt (inner_map (logs t) group)).*1.

(** [t.spanTS[group][span]] and [t.groupTS[group]] as the sort comparisons
    read them: a missing key reads the zero time. *)
Definition span_time (t : tracer) (group span : string) : Time :=
  default zeroTime (lookup2 (spanTS t) group span).

Definition group_time (t : tracer) (group : string) : Time :=
  default zeroTime (groupTS t !! group).

(** [t.logs[group][span]] as a slice: nil when a key is missing. *)
Definition span_entries (t : tracer) (group span : string) : list logEntry :=
  default [] (lookup2 (logs t) group span).

Definition Logs (rt : GoRuntime) (group : string) (t : tracer)
    : list (list logEntry) :=
  match logs t !! group with
  | None => []
  | Some _ =>
      let spans := (range rt (inner_map (logs t) group)).*1 in
      let spans := sort_Slice rt (span_time t group) spans in
      map (λ span, sort_Slice rt time (span_entries t group span)) spans
  end.

(** [%d] of a [uint32]. *)
Definition decimal (n : Z) : string :=
  NilZero.string_of_uint (N.to_uint (Z.to_N n)).

(** [func (l logEntry) FormattedMessage(timezone string, withExactTime ...bool)] *)
Definition FormattedMessage (rt : GoRuntime) (l : logEntry)
    (timezone : string) (withExactTime : list bool) : string :=
  let out :=
    if match withExactTime with b :: _ => b | [] => false end
    then format_RFC822 rt timezone (time l)
           +:+ " - [" +:+ level l +:+ "] " +:+ message l
    else time_ago rt timezone (time l)
           +:+ " - [" +:+ level l +:+ "] " +:+ message l in
  if 1 <? count l then out +:+ " [x" +:+ decimal (count l) +:+ "]" else out.

(** *** [encoding/json] on strings and slices of strings

    [ToMap] calls [json.Marshal] of the Go standard library on group names,
    span names and slices of lines.  Its string encoder ([appendString],
    with HTML escaping) is written out: a byte of ASCII is copied or
    escaped, a valid multi-byte UTF-8 sequence is copied (U+2028 and U+2029
    are escaped), and a byte that starts no valid sequence is written as
    the escape of U+FFFD. *)

Definition quote : string := String "034"%char EmptyString.
Definition backslash : ascii := "092"%char.

Definition byte_val (c : ascii) : N := N_of_ascii c.

Definition in_bytes (lo hi : N) (c : ascii) : bool :=
  ((lo <=? byte_val c) && (byte_val c <=? hi))%N.

(** [hex[n]] for [hex = "0123456789abcdef"]. *)
Definition hex_digit (n : N) : ascii :=
  if (n <? 10)%N then ascii_of_N (48 + n) else ascii_of_N (87 + n).

(** The size and the range of the second byte that the first byte of a
    multi-byte UTF-8 sequence announces ([utf8.first], [utf8.acceptRanges]). *)
Definition utf8_first (b0 : N) : option (nat * N * N) :=
  (if (194 <=? b0) && (b0 <=? 223) then Some (2%nat, 128, 191)
   else if b0 =? 224 then Some (3%nat, 160, 191)
   else if (225 <=? b0) && (b0 <=? 236) then Some (3%nat, 128, 191)
   else if b0 =? 237 then Some (3%nat, 128, 159)
   else if (238 <=? b0) && (b0 <=? 239) then Some (3%nat, 128, 191)
   else if b0 =? 240 then Some (4%nat, 144, 191)
   else if (241 <=? b0) && (b0 <=? 243) then Some (4%nat, 128, 191)
   else if b0 =? 244 then Some (4%nat, 128, 143)
   else None)%N.

(** The width that [utf8.DecodeRuneInString] finds at the start of a string
    whose first byte is not ASCII: [None] is [(RuneError, 1)]. *)
Definition utf8_width (s : string) : option nat :=
  match s with
  | EmptyString => None
  | String c0 rest =>
      match utf8_first (byte_val c0) with
      | None => None
      | Some (sz, lo, hi) =>
          match rest with
          | String c1 r1 =>
              if in_bytes lo hi c1 then
                match sz with
                | 2%nat => Some 2%nat
                | _ =>
                    match r1 with
                    | String c2 r2 =>
                        if in_bytes 128 191 c2 then
                          match sz with
                          | 3%nat => Some 3%nat
                          | _ =>
                              match r2 with
                              | String c3 _ =>
                                  if in_bytes 128 191 c3 then Some 4%nat
                                  else None
                              | EmptyString => None
                              end
                          end
                        else None
                    | EmptyString => None
                    end
                end
              else None
          | EmptyString => None
          end
      end
  end.

(** What [appendString] (with HTML escaping, as [json.Marshal] has it) emits
    for one ASCII byte. *)
Definition escape_ascii (c : ascii) : string :=
  let b := byte_val c in
  if (b =? 34)%N || (b =? 92)%N then String backslash (String c EmptyString)
  else if (b =? 8)%N then String backslash "b"
  else if (b =? 12)%N then String backslash "f"
  else if (b =? 10)%N then String backslash "n"
  else if (b =? 13)%N then String backslash "r"
  else if (b =? 9)%N then String backslash "t"
  else if (b <? 32)%N || (b =? 60)%N || (b =? 62)%N || (b =? 38)%N then
    String backslash "u00"
      +:+ String (hex_digit (N.shiftr b 4))
            (String (hex_digit (N.land b 15)) EmptyString)
  else String c EmptyString.

(** The three bytes of U+2028 or U+2029 at the start of [s]: the last hex
    digit of the code point. *)
Definition line_separator (s : string) : option ascii :=
  match s with
  | String c0 (String c1 (String c2 _)) =>
      if ((byte_val c0 =? 226) && (byte_val c1 =? 128))%N then
        if (byte_val c2 =? 168)%N then Some "8"%char
        else if (byte_val c2 =? 169)%N then Some "9"%char
        else None
      else None
  | _ => None
  end.

(** What the scan of [appendString] does with the bytes after the first one
    of a multi-byte sequence. *)
Variant pending : Type :=
  | Fresh
  | Copy (n : nat)
  | Drop (n : nat).

(** [appendString]: the escaped contents, without the quotes. *)
Fixpoint appendString (p : pending) (s : string) : string :=
  match s with
  | EmptyString => EmptyString
  | String c rest =>
      match p with
      | Copy (S n) => String c (appendString (Copy n) rest)
      | Drop (S n) => appendString (Drop n) rest
      | _ =>
          if (byte_val c <? 128)%N then
            escape_ascii c +:+ appendString Fresh rest
          else
            match utf8_width s with
            | None => String backslash "ufffd" +:+ appendString Fresh rest
            | Some sz =>
                match line_separator s with
                | Some d =>
                    String backslash "u202" +:+ String d EmptyString
                      +:+ appendString (Drop (sz - 1)) rest
                | None => String c (appendString (Copy (sz - 1)) rest)
                end
            end
      end
  end.

(** [json.Marshal] of a string. *)
Definition json_Marshal_string (s : string) : string :=
  quote +:+ appendString Fresh s +:+ quote.

(** [strings.Join]. *)
Fixpoint join (sep : string) (l : list string) : string :=
  match l with
  | [] => EmptyString
  | [x] => x
  | x :: l' => x +:+ sep +:+ join sep l'
  end.

(** [json.Marshal] of a non-nil slice of strings. *)
Definition json_Marshal_strings (l : list string) : string :=
  "[" +:+ join "," (map json_Marshal_string l) +:+ "]".

(** *** The snapshot *)

(** [for i, x := range l { st = body i x st }] over a slice. *)
Fixpoint for_range {A St : Type} (body : nat → A → St → St) (i : nat)
    (l : list A) (st : St) : St :=
  match l with
  | [] => st
  | x :: l' => for_range body (S i) l' (body i x st)
  end.

(** The keys the first loops of [ToMap] keep:
    [filter != "" && !strings.HasPrefix(name, filter)] skips a name. *)
Definition passes (filter name : string) : bool :=
  negb (negb (String.eqb filter "") && negb (String.prefix filter name)).

(** The body of the loop over [spanNames]. *)
Definition ToMap_span (rt : GoRuntime) (timezone : string)
    (withExactTime : bool) (spans : gmap string (list logEntry)) (j : nat)
    (span : string) (st : gmap string (list string) * string)
    : gmap string (list string) * string :=
  let '(groupMap, jsonBuf) := st in
  let jsonBuf := if (0 <? j)%nat then jsonBuf +:+ "," else jsonBuf in
  let jsonBuf := jsonBuf +:+ (json_Marshal_string span +:+ ":") in
  let originalEntries := default [] (spans !! span) in
  let sortedEntries := sort_Slice rt time originalEntries in
  let formattedEntries :=
    map (λ entry, FormattedMessage rt entry timezone [withExactTime])
        sortedEntries in
  (<[span := formattedEntries]> groupMap,
   jsonBuf +:+ json_Marshal_strings formattedEntries).

(** The body of the loop over [groups]. *)
Definition ToMap_group (rt : GoRuntime) (timezone : string)
    (withExactTime : bool) (spanFilter : string) (t : tracer) (i : nat)
    (group : string) (st : gmap string (gmap string (list string)) * string)
    : gmap string (gmap string (list string)) * string :=
  let '(m, jsonBuf) := st in
  let jsonBuf := if (0 <? i)%nat then jsonBuf +:+ "," else jsonBuf in
  let jsonBuf := jsonBuf +:+ (json_Marshal_string group +:+ ":{") in
  let spans := inner_map (logs t) group in
  let spanNames := filter (λ span, passes spanFilter span = true)
                          (range rt spans).*1 in
  let spanNames := sort_Slice rt (span_time t group) spanNames in
  let '(groupMap, jsonBuf) :=
    for_range (ToMap_span rt timezone withExactTime spans) 0 spanNames
              (∅, jsonBuf) in
  (<[group := groupMap]> m, jsonBuf +:+ "}").

(** [func (t *tracer) ToMap(timezone string, withExactTime bool,
    groupFilter, spanFilter string)] *)
Definition ToMap (rt : GoRuntime) (timezone : string) (withExactTime : bool)
    (groupFilter spanFilter : string) (t : tracer)
    : gmap string (gmap string (list string)) * string :=
  let groups := filter (λ group, passes groupFilter group = true)
                       (range rt (logs t)).*1 in
  let groups := sort_Slice rt (group_time t) groups in
  let '(m, jsonBuf) :=
    for_range (ToMap_group rt timezone withExactTime spanFilter t) 0 groups
              (∅, "{") in
  (m, jsonBuf +:+ "}").

(** ** A runtime to compute with

    Maps are visited in the order of [map_to_list], slices are sorted by
    a merge sort, a template is used without verbs and arguments, and a time
    is rendered as its number. *)

Definition later_first {A : Type} (key : A → Time) : relation A :=
  λ a b, key b ≤ key a.

#[local] Instance later_first_dec {A : Type} (key : A → Time) (a b : A) :
  Decision (later_first key a b).
Proof. unfold later_first. apply _. Defined.

#[local] Instance later_first_trans {A : Type} (key : A → Time) :
  Transitive (later_first key).
Proof. intros a b c; unfold later_first; lia. Qed.

#[local] Instance later_first_total {A : Type} (key : A → Time) :
  Total (later_first key).
Proof. intros a b; unfold later_first; lia. Qed.

Definition plain_time (t : Time) : string :=
  if t <? 0 then "-" +:+ decimal (- t) else decimal t.

Definition plain_runtime : GoRuntime :=
  {| range := λ V m, map_to_list m;
     range_perm := λ V m, reflexivity _;
     sort_Slice := λ A key l, merge_sort (later_first key) l;
     sort_Slice_perm := λ A key l, merge_sort_Permutation (later_first key) l;
     sort_Slice_sorted := λ A key l,
       StronglySorted_merge_sort (later_first key) l;
     Sprintf := λ msgfmt _, msgfmt;
     format_RFC822 := λ _ t, plain_time t;
     time_ago := λ _ t, plain_time t +:+ " ago" |}.

(** ** Two-level maps *)

Section two_level.
Context {V : Type}.
Implicit Types (m : gmap string (gmap string V)) (g s : string).

Lemma inner_map_Some m g im : m !! g = Some im → inner_map m g = im.
Proof. unfold inner_map; intros ->; done. Qed.

Lemma inner_map_None m g : m !! g = None → inner_map m g = ∅.
Proof. unfold inner_map; intros ->; done. Qed.

Lemma inner_map_insert m g g' im :
  inner_map (<[g := im]> m) g' = if decide (g = g') then im else inner_map m g'.
Proof. unfold inner_map; rewrite lookup_insert; case_decide; done. Qed.

Lemma inner_map_delete m g g' :
  inner_map (delete g m) g' = if decide (g = g') then ∅ else inner_map m g'.
Proof. unfold inner_map; rewrite lookup_delete; case_decide; done. Qed.

Lemma inner_map_delete2 m g s g' :
  inner_map (delete2 m g s) g' =
  if decide (g = g') then delete s (inner_map m g') else inner_map m g'.
Proof.
  unfold inner_map, delete2; rewrite lookup_alter; case_decide; subst.
  - destruct (m !! g'); simpl; [done|]. by rewrite delete_empty.
  - done.
Qed.

Lemma lookup2_inner m g s : lookup2 m g s = inner_map m g !! s.
Proof. unfold lookup2, inner_map; destruct (m !! g); done. Qed.

Lemma lookup2_insert m g g' s im :
  lookup2 (<[g := im]> m) g' s =
  if decide (g = g') then im !! s else lookup2 m g' s.
Proof. rewrite !lookup2_inner, inner_map_insert; case_decide; done. Qed.

Lemma lookup2_delete m g g' s :
  lookup2 (delete g m) g' s =
  if decide (g = g') then None else lookup2 m g' s.
Proof. rewrite !lookup2_inner, inner_map_delete; case_decide; done. Qed.

Lemma lookup2_delete2 m g s g' s' :
  lookup2 (delete2 m g s) g' s' =
  if decide (g = g' ∧ s = s') then None else lookup2 m g' s'.
Proof.
  rewrite !lookup2_inner, inner_map_delete2.
  destruct (decide (g = g')) as [->|]; [|by rewrite decide_False by tauto].
  rewrite lookup_delete.
  destruct (decide (s = s')) as [->|];
    [by rewrite decide_True | by rewrite decide_False by tauto].
Qed.

Lemma assign2_is_Some m g s v :
  is_Some (m !! g) → is_Some (assign2 m g s v).
Proof. intros [im Him]; unfold assign2; rewrite Him; simpl; eauto. Qed.

Lemma assign2_Some m g s v m' :
  assign2 m g s v = Some m' →
  ∃ im, m !! g = Some im ∧ m' = <[g := <[s := v]> im]> m.
Proof.
  unfold assign2; destruct (m !! g) as [im|]; simpl; [|done].
  intros [= <-]; eauto.
Qed.

Lemma lookup2_assign2 m g s v m' g' s' :
  assign2 m g s v = Some m' →
  lookup2 m' g' s' =
  if decide (g = g' ∧ s = s') then Some v else lookup2 m g' s'.
Proof.
  intros (im & Him & ->)%assign2_Some. rewrite lookup2_insert.
  destruct (decide (g = g')) as [->|]; [|by rewrite decide_False by tauto].
  rewrite lookup_insert.
  destruct (decide (s = s')) as [->|];
    [by rewrite decide_True | rewrite decide_False by tauto].
  by rewrite lookup2_inner, (inner_map_Some _ _ _ Him).
Qed.

Lemma dom_assign2 m g s v m' :
  assign2 m g s v = Some m' → dom m' = dom m.
Proof.
  intros (im & Him & ->)%assign2_Some. rewrite dom_insert_L.
  apply subseteq_union_1_L, singleton_subseteq_l. by eapply elem_of_dom_2.
Qed.

Lemma inner_map_assign2 m g s v m' g' :
  assign2 m g s v = Some m' →
  inner_map m' g' =
  if decide (g = g') then <[s := v]> (inner_map m g') else inner_map m g'.
Proof.
  intros (im & Him & ->)%assign2_Some. rewrite inner_map_insert.
  case_decide; subst; [|done]. by rewrite (inner_map_Some _ _ _ Him).
Qed.

Lemma dom_delete2 m g s : dom (delete2 m g s) = dom m.
Proof. unfold delete2. apply dom_alter_L. Qed.
End two_level.

(** ** Construction: the capacities *)

(** C10. Every capacity handed to the constructor that is not positive is
    replaced by its default (40 groups, 60 spans per group, 60 messages per
    span), every positive one (1 included) is kept as given; the stored
    capacities are therefore at least 1. *)
Theorem NewTracerWithSizes_capacities (g s m : Z) :
  let t := NewTracerWithSizes g s m in
  numGroups t = (if decide (g ≤ 0) then 40 else g) ∧
  numSpans t = (if decide (s ≤ 0) then 60 else s) ∧
  numMessages t = (if decide (m ≤ 0) then 60 else m) ∧
  1 ≤ numGroups t ∧ 1 ≤ numSpans t ∧ 1 ≤ numMessages t.
Proof.
  simpl. unfold DefaultGroupCount, DefaultSpanCount, DefaultMessageCount.
  repeat case_decide;
    repeat match goal with
    | |- context [?a <? ?b] => destruct (Z.ltb_spec a b)
    end; lia.
Qed.

(** ** The scan for the oldest key *)

Lemma oldest_scan_later (kvs : list (string * Time)) (o : string) (ot : Time) :
  (oldest_scan kvs o ot false = o ∧ Forall (λ p, ot ≤ p.2) kvs) ∨
  (∃ ts, (oldest_scan kvs o ot false, ts) ∈ kvs ∧ ts < ot ∧
         Forall (λ p, ts ≤ p.2) kvs).
Proof.
  revert o ot; induction kvs as [|[k1 ts1] rest IH]; intros o ot; simpl.
  - left; split; [done | constructor].
  - unfold Before. destruct (Z.ltb_spec ts1 ot) as [Hlt|Hge].
    + right. destruct (IH k1 ts1) as [[-> Hall]|(ts & Hin & Hts & Hall)].
      * exists ts1; split_and!; [left | done | constructor; simpl; [lia|done]].
      * exists ts; split_and!;
          [by right | lia | constructor; simpl; [lia|done]].
    + destruct (IH o ot) as [[-> Hall]|(ts & Hin & Hts & Hall)].
      * left; split; [done | constructor; simpl; [lia|done]].
      * right; exists ts; split_and!;
          [by right | done | constructor; simpl; [lia|done]].
Qed.

Lemma oldest_scan_first (kvs : list (string * Time)) (o : string) (ot : Time) :
  kvs ≠ [] →
  ∃ ts, (oldest_scan kvs o ot true, ts) ∈ kvs ∧ Forall (λ p, ts ≤ p.2) kvs.
Proof.
  destruct kvs as [|[k1 ts1] rest]; [done|intros _]; simpl.
  destruct (oldest_scan_later rest k1 ts1) as [[-> Hall]|(ts & Hin & Hts & Hall)].
  - exists ts1; split; [left | constructor; simpl; [lia|done]].
  - exists ts; split; [by right | constructor; simpl; [lia|done]].
Qed.

Lemma elem_of_range (rt : GoRuntime) {V} (m : gmap string V) k v :
  (k, v) ∈ range rt m ↔ m !! k = Some v.
Proof. rewrite (range_perm rt). apply elem_of_map_to_list. Qed.

Lemma range_nil (rt : GoRuntime) {V} (m : gmap string V) :
  range rt m = [] ↔ m = ∅.
Proof.
  rewrite <- map_to_list_empty_iff. split; intros H.
  - apply Permutation_nil_r. rewrite <- H. symmetry. apply range_perm.
  - apply Permutation_nil_r. rewrite <- H. apply range_perm.
Qed.

Lemma length_range (rt : GoRuntime) {V} (m : gmap string V) :
  length (range rt m) = size m.
Proof. rewrite (range_perm rt). apply length_map_to_list. Qed.

Lemma NoDup_range_keys (rt : GoRuntime) {V} (m : gmap string V) :
  NoDup (range rt m).*1.
Proof. rewrite (range_perm rt). apply NoDup_fst_map_to_list. Qed.

(** The key the scan selects holds a timestamp that no key of the map
    precedes. *)
Lemma oldest_key_min (rt : GoRuntime) (m : gmap string Time) :
  m ≠ ∅ →
  ∃ ts, m !! oldest_key rt m = Some ts ∧
        ∀ k' ts', m !! k' = Some ts' → ts ≤ ts'.
Proof.
  intros Hne. unfold oldest_key.
  destruct (oldest_scan_first (range rt m) "" zeroTime) as (ts & Hin & Hall).
  { by rewrite range_nil. }
  exists ts. split; [by apply elem_of_range in Hin|].
  intros k' ts' Hk'. apply (elem_of_range rt) in Hk'.
  rewrite Forall_forall in Hall. apply (Hall _ Hk').
Qed.

(** A key that is strictly older than every other key is the one selected. *)
Lemma oldest_key_strict (rt : GoRuntime) (m : gmap string Time) k ts :
  m !! k = Some ts →
  (∀ k' ts', k' ≠ k → m !! k' = Some ts' → ts < ts') →
  oldest_key rt m = k.
Proof.
  intros Hk Hstrict.
  destruct (oldest_key_min rt m) as (ts0 & Hsel & Hmin).
  { intros ->. by rewrite lookup_empty in Hk. }
  destruct (decide (oldest_key rt m = k)) as [|Hne]; [done|].
  specialize (Hstrict _ _ Hne Hsel). specialize (Hmin _ _ Hk). lia.
Qed.

(** ** The invariant of the store *)

(** The pair that identifies an entry within its span. *)
Definition entry_key (e : logEntry) : string * string := (message e, level e).

Record wf (t : tracer) : Prop := {
  wf_numGroups : 1 ≤ numGroups t;
  wf_numSpans : 1 ≤ numSpans t;
  wf_numMessages : 1 ≤ numMessages t;
  (** the timestamp maps have the keys of the bucket maps *)
  wf_groupTS : dom (groupTS t) = dom (logs t);
  wf_spanTS : dom (spanTS t) = dom (logs t);
  wf_spans : ∀ g, dom (inner_map (spanTS t) g) = dom (inner_map (logs t) g);
  (** every span's slice is within the message capacity, without two
      entries of the same message and level *)
  wf_len : ∀ g s es,
    lookup2 (logs t) g s = Some es → len_slice es ≤ numMessages t;
  wf_nodup : ∀ g s es,
    lookup2 (logs t) g s = Some es → NoDup (entry_key <$> es)
}.

Lemma wf_set_enabled b t : wf t → wf (set_enabled b t).
Proof. intros []; split; done. Qed.

Lemma default_capacity_positive (n d : Z) :
  1 ≤ d → 1 ≤ if n <? 1 then d else n.
Proof. intros. destruct (Z.ltb_spec n 1); lia. Qed.

Lemma wf_new a b c : wf (NewTracerWithSizes a b c).
Proof.
  split; try done; simpl; by apply default_capacity_positive.
Qed.

Lemma wf_evict_group k t : wf t → wf (evict_group k t).
Proof.
  intros []; split; simpl; try done.
  - rewrite !dom_delete_L. congruence.
  - rewrite !dom_delete_L. congruence.
  - intros g. rewrite !inner_map_delete. case_decide; [done|auto].
  - intros g s es. rewrite lookup2_delete. case_decide; [done|eauto].
  - intros g s es. rewrite lookup2_delete. case_decide; [done|eauto].
Qed.

Lemma wf_create_group group timeNow t :
  wf t → wf (set_groupTS <[group := timeNow]> (create_group group t)).
Proof.
  intros []; split; simpl; try done.
  - rewrite !dom_insert_L. congruence.
  - rewrite !dom_insert_L. congruence.
  - intros g. rewrite !inner_map_insert. case_decide; [done|auto].
  - intros g s es. rewrite lookup2_insert. case_decide; [|eauto].
    by rewrite lookup_empty.
  - intros g s es. rewrite lookup2_insert. case_decide; [|eauto].
    by rewrite lookup_empty.
Qed.

Lemma wf_touch_group group timeNow t :
  wf t → is_Some (logs t !! group) →
  wf (set_groupTS <[group := timeNow]> t).
Proof.
  intros [] Hg; split; simpl; try done.
  rewrite dom_insert_L, wf_groupTS0.
  apply subseteq_union_1_L, singleton_subseteq_l. by apply elem_of_dom.
Qed.

Lemma wf_evict_span group k t : wf t → wf (evict_span group k t).
Proof.
  intros []; split; simpl; try done.
  - by rewrite dom_delete2.
  - by rewrite !dom_delete2.
  - intros g. rewrite !inner_map_delete2. case_decide; [|auto].
    rewrite !dom_delete_L. by rewrite wf_spans0.
  - intros g s es. rewrite lookup2_delete2. case_decide; [done|eauto].
  - intros g s es. rewrite lookup2_delete2. case_decide; [done|eauto].
Qed.

(** Storing a slice under a span and stamping the span, in one step. *)
Lemma wf_assign group span es timeNow t lg ts :
  wf t →
  assign2 (logs t) group span es = Some lg →
  assign2 (spanTS t) group span timeNow = Some ts →
  len_slice es ≤ numMessages t → NoDup (entry_key <$> es) →
  wf (set_spanTS (λ _, ts) (set_logs (λ _, lg) t)).
Proof.
  intros [] Hlg Hts Hlen Hnd; split; simpl; try done.
  - by rewrite (dom_assign2 _ _ _ _ _ Hlg).
  - by rewrite (dom_assign2 _ _ _ _ _ Hlg), (dom_assign2 _ _ _ _ _ Hts).
  - intros g. rewrite (inner_map_assign2 _ _ _ _ _ _ Hlg).
    rewrite (inner_map_assign2 _ _ _ _ _ _ Hts).
    case_decide; [|auto]. rewrite !dom_insert_L. by rewrite wf_spans0.
  - intros g s es'. rewrite (lookup2_assign2 _ _ _ _ _ _ _ Hlg).
    case_decide; [by intros [= <-]|eauto].
  - intros g s es'. rewrite (lookup2_assign2 _ _ _ _ _ _ _ Hlg).
    case_decide; [by intros [= <-]|eauto].
Qed.

(** Stamping a span that is there. *)
Lemma wf_touch_span group span timeNow t ts :
  wf t → is_Some (lookup2 (logs t) group span) →
  assign2 (spanTS t) group span timeNow = Some ts →
  wf (set_spanTS (λ _, ts) t).
Proof.
  intros [] Hsp Hts; split; simpl; try done.
  - by rewrite (dom_assign2 _ _ _ _ _ Hts).
  - intros g. rewrite (inner_map_assign2 _ _ _ _ _ _ Hts).
    case_decide; [subst|auto]. rewrite dom_insert_L, wf_spans0.
    apply subseteq_union_1_L, singleton_subseteq_l, elem_of_dom.
    by rewrite <- lookup2_inner.
Qed.

(** Replacing the slice of a span that is there. *)
Lemma wf_store group span es t lg :
  wf t → is_Some (lookup2 (logs t) group span) →
  assign2 (logs t) group span es = Some lg →
  len_slice es ≤ numMessages t → NoDup (entry_key <$> es) →
  wf (set_logs (λ _, lg) t).
Proof.
  intros [] Hsp Hlg Hlen Hnd; split; simpl; try done.
  - by rewrite (dom_assign2 _ _ _ _ _ Hlg).
  - by rewrite (dom_assign2 _ _ _ _ _ Hlg).
  - intros g. rewrite (inner_map_assign2 _ _ _ _ _ _ Hlg).
    case_decide; [subst|auto]. rewrite dom_insert_L, wf_spans0.
    symmetry.
    apply subseteq_union_1_L, singleton_subseteq_l, elem_of_dom.
    by rewrite <- lookup2_inner.
  - intros g s es'. rewrite (lookup2_assign2 _ _ _ _ _ _ _ Hlg).
    case_decide; [by intros [= <-]|eauto].
  - intros g s es'. rewrite (lookup2_assign2 _ _ _ _ _ _ _ Hlg).
    case_decide; [by intros [= <-]|eauto].
Qed.

(** ** The bookkeeping part of a write *)

(** What [touch] leaves of a store [t] in [t']: the capacities and the gate,
    the written group and span stamped with the time of the write, the
    span's slice as it was (empty when the span is new), and no slice that
    was not there. *)
Record touched (group span : string) (timeNow : Time) (t t' : tracer)
    : Prop := {
  touched_numGroups : numGroups t' = numGroups t;
  touched_numSpans : numSpans t' = numSpans t;
  touched_numMessages : numMessages t' = numMessages t;
  touched_enabled : enabled t' = enabled t;
  touched_groupTS : groupTS t' !! group = Some timeNow;
  touched_spanTS : lookup2 (spanTS t') group span = Some timeNow;
  touched_span :
    lookup2 (logs t') group span =
    Some (default [] (lookup2 (logs t) group span));
  touched_others : ∀ g s es,
    lookup2 (logs t') g s = Some es →
    (g = group ∧ s = span) ∨ lookup2 (logs t) g s = Some es
}.

Lemma ensure_group_wf rt group timeNow t :
  wf t → wf (set_groupTS <[group := timeNow]> (ensure_group rt group t)).
Proof.
  intros Hwf. unfold ensure_group.
  destruct (logs t !! group) eqn:Hg.
  { apply wf_touch_group; [done|]. by rewrite Hg. }
  apply wf_create_group.
  destruct (at_group_capacity t); [|done].
  destruct (negb _); [by apply wf_evict_group|done].
Qed.

Lemma ensure_group_caps rt group t :
  let t' := ensure_group rt group t in
  numGroups t' = numGroups t ∧ numSpans t' = numSpans t ∧
  numMessages t' = numMessages t ∧ enabled t' = enabled t.
Proof.
  unfold ensure_group. destruct (logs t !! group); [done|].
  destruct (at_group_capacity t); [|done]. destruct (negb _); done.
Qed.

Lemma ensure_group_has rt group t :
  is_Some (logs (ensure_group rt group t) !! group).
Proof.
  unfold ensure_group. destruct (logs t !! group) eqn:Hg; [by rewrite Hg|].
  simpl. rewrite lookup_insert_eq. eauto.
Qed.

Lemma ensure_group_lookup2 rt group t g s es :
  lookup2 (logs (ensure_group rt group t)) g s = Some es →
  lookup2 (logs t) g s = Some es.
Proof.
  unfold ensure_group. destruct (logs t !! group) eqn:Hg; [done|].
  simpl. rewrite lookup2_insert. case_decide; [by rewrite lookup_empty|].
  destruct (at_group_capacity t); [|done]. destruct (negb _); [|done].
  simpl. rewrite lookup2_delete. by case_decide.
Qed.

Lemma ensure_group_same rt group t s :
  lookup2 (logs (ensure_group rt group t)) group s = lookup2 (logs t) group s.
Proof.
  unfold ensure_group. destruct (logs t !! group) eqn:Hg; [done|].
  simpl. rewrite lookup2_insert, decide_True by done.
  rewrite lookup_empty. unfold lookup2. by rewrite Hg.
Qed.

(** What the span part of a write on [t] needs to return: the span is
    there, or a slice of the capacity [numMessages] can be made. *)
Definition span_can_be_made (t : tracer) (group span : string) : Prop :=
  is_Some (lookup2 (logs t) group span) ∨
  makeslice_ok (numMessages t) = true.

Lemma touch_Some rt group span timeNow t t' :
  touch rt group span timeNow t = Some t' → span_can_be_made t group span.
Proof.
  unfold touch, ensure_span, span_can_be_made.
  rewrite <- (ensure_group_same rt group t span).
  destruct (ensure_group_caps rt group t) as (_ & _ & <- & _).
  set (t1 := ensure_group rt group t). clearbody t1. simpl.
  destruct (lookup2 (logs t1) group span); [by left; eexists|].
  intros H. right. unfold make_slice in H.
  replace (numMessages (if at_span_capacity _ _ then _ else _))
    with (numMessages t1) in H
    by (destruct (at_span_capacity _ _); [|done]; by destruct (negb _)).
  by destruct (makeslice_ok (numMessages t1)).
Qed.

Lemma touch_spec rt group span timeNow t :
  wf t → span_can_be_made t group span →
  ∃ t', touch rt group span timeNow t = Some t' ∧ wf t' ∧
        touched group span timeNow t t'.
Proof.
  intros Hwf Hcan. unfold touch.
  pose proof (ensure_group_wf rt group timeNow t Hwf) as Hwf1.
  pose proof (ensure_group_caps rt group t) as (Hc1 & Hc2 & Hc3 & Hc4).
  pose proof (ensure_group_has rt group t) as Hhas.
  pose proof (ensure_group_lookup2 rt group t) as Hsub.
  pose proof (ensure_group_same rt group t span) as Hsame.
  set (t1 := set_groupTS <[group := timeNow]> (ensure_group rt group t)) in *.
  assert (Hts1 : groupTS t1 !! group = Some timeNow)
    by (simpl; apply lookup_insert_eq).
  change (logs (ensure_group rt group t)) with (logs t1) in *.
  change (numGroups (ensure_group rt group t)) with (numGroups t1) in *.
  change (numSpans (ensure_group rt group t)) with (numSpans t1) in *.
  change (numMessages (ensure_group rt group t)) with (numMessages t1) in *.
  change (enabled (ensure_group rt group t)) with (enabled t1) in *.
  clearbody t1. unfold ensure_span.
  assert (HhasTS : ∀ u, wf u → is_Some (logs u !! group) →
                        is_Some (spanTS u !! group)).
  { intros u Hu Hl. apply elem_of_dom. rewrite (wf_spanTS u Hu).
    by apply elem_of_dom. }
  destruct (lookup2 (logs t1) group span) as [es|] eqn:Hsp.
  - (* the span is there *)
    simpl.
    destruct (assign2_is_Some (spanTS t1) group span timeNow) as [ts Hts];
      [by apply HhasTS|].
    rewrite Hts; simpl. eexists; split; [done|]. split.
    + eapply wf_touch_span; [done| |done]. by rewrite Hsp.
    + split; simpl; try done.
      * rewrite (lookup2_assign2 _ _ _ _ _ _ _ Hts). by rewrite decide_True.
      * by rewrite Hsp, <- Hsame.
      * intros g s es' H. right. by apply Hsub.
  - (* the span is new *)
    set (t2 := if at_span_capacity t1 group
               then if negb (String.eqb
                       (oldest_key rt (inner_map (spanTS t1) group)) "")
                    then evict_span group
                           (oldest_key rt (inner_map (spanTS t1) group)) t1
                    else t1
               else t1).
    assert (Hwf2 : wf t2).
    { subst t2. destruct (at_span_capacity t1 group); [|done].
      destruct (negb _); [by apply wf_evict_span|done]. }
    assert (Hsub2 : ∀ g s es, lookup2 (logs t2) g s = Some es →
                              lookup2 (logs t1) g s = Some es).
    { subst t2. intros g s es. destruct (at_span_capacity t1 group); [|done].
      destruct (negb _); [|done]. simpl. rewrite lookup2_delete2.
      by case_decide. }
    assert (Hhas2 : is_Some (logs t2 !! group)).
    { subst t2. destruct (at_span_capacity t1 group); [|done].
      destruct (negb _); [|done]. simpl. apply elem_of_dom.
      rewrite dom_delete2. by apply elem_of_dom. }
    assert (Hcaps2 : numGroups t2 = numGroups t1 ∧ numSpans t2 = numSpans t1 ∧
                     numMessages t2 = numMessages t1 ∧
                     enabled t2 = enabled t1 ∧ groupTS t2 = groupTS t1).
    { subst t2. destruct (at_span_capacity t1 group); [|done].
      destruct (negb _); done. }
    destruct Hcaps2 as (Hd1 & Hd2 & Hd3 & Hd4 & Hd5).
    clearbody t2.
    assert (Hmk : make_slice (numMessages t2) = Some []).
    { unfold make_slice. rewrite Hd3, Hc3.
      destruct Hcan as [Hthere| ->]; [|done].
      rewrite <- Hsame in Hthere. by destruct Hthere. }
    rewrite Hmk; simpl.
    destruct (assign2_is_Some (logs t2) group span []) as [lg Hlg]; [done|].
    rewrite Hlg; simpl.
    destruct (assign2_is_Some (spanTS t2) group span timeNow) as [ts Hts];
      [by apply HhasTS|].
    rewrite Hts; simpl. eexists; split; [done|]. split.
    + eapply wf_assign; try done.
      * unfold len_slice; simpl. pose proof (wf_numMessages _ Hwf2). lia.
      * constructor.
    + split; simpl; try congruence.
      * rewrite (lookup2_assign2 _ _ _ _ _ _ _ Hts). by rewrite decide_True.
      * rewrite (lookup2_assign2 _ _ _ _ _ _ _ Hlg), decide_True by done.
        by rewrite <- Hsame.
      * intros g s es'. rewrite (lookup2_assign2 _ _ _ _ _ _ _ Hlg).
        destruct (decide (group = g ∧ span = s)) as [[-> ->]|]; [by left|].
        intros H'. right. by apply Hsub, Hsub2.
Qed.

(** ** The entry part of a write *)

(** The entry that the duplicate scan leaves in the place of [e]. *)
Definition bump (timeNow : Time) (e : logEntry) : logEntry :=
  LogEntry (group e) (span e) (message e) (level e) timeNow
           (uint32_incr (count e)).

Lemma same_key_spec (e : logEntry) (msg lvl : string) :
  String.eqb (message e) msg && String.eqb (level e) lvl = true ↔
  entry_key e = (msg, lvl).
Proof.
  unfold entry_key. rewrite andb_true_iff, !String.eqb_eq.
  split; [intros [-> ->]; done | intros [= -> ->]; done].
Qed.

Lemma entry_key_bump timeNow e : entry_key (bump timeNow e) = entry_key e.
Proof. done. Qed.

Lemma dedup_scan_absent s msg lvl timeNow :
  (msg, lvl) ∉ (entry_key <$> s) → dedup_scan s msg lvl timeNow = (s, false).
Proof.
  induction s as [|e s IH]; simpl; [done|].
  rewrite not_elem_of_cons. intros [Hne Hs].
  destruct (_ && _) eqn:Hk.
  - apply same_key_spec in Hk. congruence.
  - by rewrite IH.
Qed.

Lemma dedup_scan_present s msg lvl timeNow :
  (msg, lvl) ∈ (entry_key <$> s) →
  ∃ pre e post,
    s = pre ++ e :: post ∧ ((msg, lvl) ∉ (entry_key <$> pre)) ∧
    entry_key e = (msg, lvl) ∧
    dedup_scan s msg lvl timeNow = (pre ++ bump timeNow e :: post, true).
Proof.
  induction s as [|e s IH]; simpl; [intros Hin; by apply elem_of_nil in Hin|].
  intros Hin. destruct (_ && _) eqn:Hk.
  - apply same_key_spec in Hk. exists [], e, s. split_and!; try done.
    apply not_elem_of_nil.
  - apply elem_of_cons in Hin as [Heq|Hin].
    { symmetry in Heq. apply same_key_spec in Heq. congruence. }
    destruct (IH Hin) as (pre & e' & post & -> & Hpre & He' & ->).
    exists (e :: pre), e', post. split_and!; try done.
    rewrite fmap_cons, not_elem_of_cons. split; [|done].
    intros Heq. symmetry in Heq. apply same_key_spec in Heq. congruence.
Qed.

Lemma dedup_scan_keys s msg lvl timeNow :
  entry_key <$> (dedup_scan s msg lvl timeNow).1 = entry_key <$> s.
Proof.
  induction s as [|e s IH]; simpl; [done|].
  destruct (_ && _); simpl; [done|].
  destruct (dedup_scan s msg lvl timeNow) as [r found]; simpl in *.
  by f_equal.
Qed.

Lemma dedup_scan_found s msg lvl timeNow :
  (dedup_scan s msg lvl timeNow).2 = true ↔ (msg, lvl) ∈ (entry_key <$> s).
Proof.
  destruct (decide ((msg, lvl) ∈ (entry_key <$> s))) as [Hin|Hout].
  - destruct (dedup_scan_present s msg lvl timeNow Hin)
      as (? & ? & ? & _ & _ & _ & ->). done.
  - rewrite (dedup_scan_absent _ _ _ _ Hout). simpl. split; [done|tauto].
Qed.

Lemma dedup_scan_at pre e post msg lvl timeNow :
  entry_key e = (msg, lvl) → (msg, lvl) ∉ (entry_key <$> pre) →
  dedup_scan (pre ++ e :: post) msg lvl timeNow =
  (pre ++ bump timeNow e :: post, true).
Proof.
  intros He. induction pre as [|p pre IH]; simpl.
  - intros _. apply same_key_spec in He. by rewrite He.
  - rewrite not_elem_of_cons. intros [Hp Hpre].
    destruct (_ && _) eqn:Hk.
    + apply same_key_spec in Hk. congruence.
    + by rewrite IH.
Qed.

Lemma store_entry_at l lvl msg timeNow n pre e post :
  entry_key e = (msg, lvl) → (msg, lvl) ∉ (entry_key <$> pre) →
  store_entry l lvl msg timeNow n (pre ++ e :: post) =
  Some (pre ++ bump timeNow e :: post).
Proof.
  intros He Hpre. unfold store_entry. by rewrite dedup_scan_at.
Qed.

(** The state of a span's slice that [store_entry] relies on and keeps. *)
Definition span_ok (n : Z) (s : list logEntry) : Prop :=
  len_slice s ≤ n ∧ NoDup (entry_key <$> s).

Lemma store_entry_absent l lvl msg timeNow n s :
  1 ≤ n → len_slice s ≤ n → (msg, lvl) ∉ (entry_key <$> s) →
  store_entry l lvl msg timeNow n s =
  Some (drop (Z.to_nat (len_slice s + 1 - n)) s
        ++ [LogEntry (l_group l) (l_span l) msg lvl timeNow 1]).
Proof.
  intros Hn Hlen Hout. unfold store_entry.
  rewrite (dedup_scan_absent _ _ _ _ Hout).
  destruct (Z.ltb_spec (len_slice s) n) as [Hlt|Hge].
  - replace (Z.to_nat _) with 0%nat by lia. done.
  - destruct (Z.ltb_spec 0 n); [|lia].
    replace (Z.to_nat _) with 1%nat by lia.
    destruct s; [unfold len_slice in *; simpl in *; lia|done].
Qed.

Lemma store_entry_present l lvl msg timeNow n s :
  (msg, lvl) ∈ (entry_key <$> s) →
  ∃ pre e post,
    s = pre ++ e :: post ∧ ((msg, lvl) ∉ (entry_key <$> pre)) ∧
    entry_key e = (msg, lvl) ∧
    store_entry l lvl msg timeNow n s = Some (pre ++ bump timeNow e :: post).
Proof.
  intros Hin. unfold store_entry.
  destruct (dedup_scan_present s msg lvl timeNow Hin)
    as (pre & e & post & -> & Hpre & He & ->).
  exists pre, e, post. done.
Qed.

Lemma store_entry_ok l lvl msg timeNow n s :
  1 ≤ n → span_ok n s →
  ∃ s', store_entry l lvl msg timeNow n s = Some s' ∧ span_ok n s'.
Proof.
  intros Hn [Hlen Hnd].
  destruct (decide ((msg, lvl) ∈ (entry_key <$> s))) as [Hin|Hout].
  - destruct (store_entry_present l lvl msg timeNow n s Hin)
      as (pre & e & post & -> & _ & _ & ->).
    eexists; split; [done|]. split.
    + unfold len_slice in *. rewrite length_app in *. simpl in *. done.
    + rewrite fmap_app, fmap_cons, entry_key_bump.
      by rewrite fmap_app, fmap_cons in Hnd.
  - rewrite (store_entry_absent _ _ _ _ _ _ Hn Hlen Hout).
    eexists; split; [done|]. split.
    + unfold len_slice in *. rewrite length_app, length_drop. simpl. lia.
    + rewrite fmap_app, fmap_drop. simpl.
      apply NoDup_app. split_and!.
      * eapply sublist_NoDup; [done|apply sublist_drop].
      * intros k Hk ->%list_elem_of_singleton.
        apply Hout. eapply elem_of_sublist; [|apply sublist_drop]. done.
      * apply NoDup_singleton.
Qed.

(** ** A write on a well-formed store *)

Lemma len_string_0 (s : string) : (len_string s =? 0) = true ↔ s = "".
Proof.
  unfold len_string. rewrite Z.eqb_eq. destruct s; simpl; [done|].
  split; [lia|done].
Qed.

(** The slice of the written span before the write: empty when the span
    (or its group) is not there. *)
Definition slice_before (t : tracer) (group span : string) : list logEntry :=
  default [] (lookup2 (logs t) group span).

Lemma slice_before_ok t group span :
  wf t → span_ok (numMessages t) (slice_before t group span).
Proof.
  intros Hwf. unfold slice_before.
  destruct (lookup2 (logs t) group span) as [es|] eqn:Hes; simpl.
  - split; [by eapply wf_len | by eapply wf_nodup].
  - split; [|constructor]. pose proof (wf_numMessages _ Hwf).
    unfold len_slice; simpl; lia.
Qed.

(** An enabled write, step by step: the bookkeeping goes through when the
    span is there or can be made; an empty formatted message stops there,
    any other one is stored by [store_entry] in the slice of the written
    span. *)
Lemma log_enabled rt l lvl group span msgfmt v timeNow t :
  wf t → enabled t = true → span_can_be_made t group span →
  ∃ t3, touch rt group span timeNow t = Some t3 ∧ wf t3 ∧
        touched group span timeNow t t3 ∧
        ((Sprintf rt msgfmt v = "" ∧
          log rt l lvl group span msgfmt v timeNow t = Some t3) ∨
         (Sprintf rt msgfmt v ≠ "" ∧
          ∃ s' lg,
            store_entry l lvl (truncate (Sprintf rt msgfmt v)) timeNow
              (numMessages t) (slice_before t group span) = Some s' ∧
            span_ok (numMessages t) s' ∧
            assign2 (logs t3) group span s' = Some lg ∧
            wf (set_logs (λ _, lg) t3) ∧
            log rt l lvl group span msgfmt v timeNow t =
              Some (set_logs (λ _, lg) t3))).
Proof.
  intros Hwf Hen Hcan.
  destruct (touch_spec rt group span timeNow t Hwf Hcan)
    as (t3 & Ht3 & Hwf3 & Htd).
  exists t3. split_and!; try done.
  unfold log, IsEnabled. rewrite Hen, Ht3. simpl.
  destruct (len_string (Sprintf rt msgfmt v) =? 0) eqn:Hempty.
  { left. by apply len_string_0 in Hempty. }
  right. split.
  { intros Heq. apply len_string_0 in Heq. congruence. }
  rewrite (touched_span _ _ _ _ _ Htd). simpl.
  rewrite (touched_numMessages _ _ _ _ _ Htd).
  fold (slice_before t group span).
  destruct (store_entry_ok l lvl (truncate (Sprintf rt msgfmt v)) timeNow
              (numMessages t) (slice_before t group span))
    as (s' & Hs' & Hok); [by apply wf_numMessages|by apply slice_before_ok|].
  rewrite Hs'. simpl.
  assert (Hsp : is_Some (lookup2 (logs t3) group span))
    by (rewrite (touched_span _ _ _ _ _ Htd); eauto).
  destruct (assign2_is_Some (logs t3) group span s') as [lg Hlg].
  { unfold lookup2 in Hsp. destruct (logs t3 !! group); [eauto|].
    by destruct Hsp. }
  rewrite Hlg. simpl. exists s', lg. split_and!; try done.
  destruct Hok as [Hlen Hnd].
  eapply wf_store; try done.
  by rewrite (touched_numMessages _ _ _ _ _ Htd).
Qed.

(** An enabled write that returns found its span or made it. *)
Lemma log_Some rt l lvl group span msgfmt v timeNow t t' :
  enabled t = true → log rt l lvl group span msgfmt v timeNow t = Some t' →
  span_can_be_made t group span.
Proof.
  intros Hen. unfold log, IsEnabled. rewrite Hen. simpl.
  destruct (touch rt group span timeNow t) as [t3|] eqn:Ht3; [|done].
  intros _. by eapply touch_Some.
Qed.

(** A write does not panic on a well-formed store whose span is there or
    can be made, and keeps the store well-formed. *)
Lemma log_wf rt l lvl group span msgfmt v timeNow t :
  wf t → span_can_be_made t group span →
  ∃ t', log rt l lvl group span msgfmt v timeNow t = Some t' ∧ wf t'.
Proof.
  intros Hwf Hcan. destruct (enabled t) eqn:Hen.
  - destruct (log_enabled rt l lvl group span msgfmt v timeNow t Hwf Hen Hcan)
      as (t3 & _ & Hwf3 & _ & [[_ ->]|(_ & s' & lg & _ & _ & _ & Hwf' & ->)]);
      eauto.
  - exists t. split; [|done]. unfold log, IsEnabled. by rewrite Hen.
Qed.

(** A write that returns keeps the store well-formed, with its message
    capacity. *)
Lemma log_Some_wf rt l lvl group span msgfmt v timeNow t t' :
  wf t → log rt l lvl group span msgfmt v timeNow t = Some t' →
  wf t' ∧ numMessages t' = numMessages t.
Proof.
  intros Hwf Hlog. destruct (enabled t) eqn:Hen.
  - pose proof (log_Some _ _ _ _ _ _ _ _ _ _ Hen Hlog) as Hcan.
    destruct (log_enabled rt l lvl group span msgfmt v timeNow t Hwf Hen Hcan)
      as (t3 & _ & Hwf3 & Htd &
          [[_ Ht3]|(_ & s' & lg & _ & _ & _ & Hwf' & Ht3)]);
      rewrite Ht3 in Hlog; injection Hlog as <-; (split; [done|]);
      apply (touched_numMessages _ _ _ _ _ Htd).
  - unfold log, IsEnabled in Hlog. rewrite Hen in Hlog. simpl in Hlog.
    by injection Hlog as <-.
Qed.

(** ** The stores a program can reach *)

(** One call of [Info], [Warn] or [Error] on a logger, with what the runtime
    decides during the call and the wall-clock time it reads. *)
Variant severity : Type := SevInfo | SevWarn | SevError.

Definition level_of (sev : severity) : string :=
  match sev with
  | SevInfo => "INFO"
  | SevWarn => "WARN"
  | SevError => "ERROR"
  end.

Record write : Type := {
  w_rt : GoRuntime;
  w_logger : logger;
  w_severity : severity;
  w_msgfmt : string;
  w_args : list any;
  w_time : Time
}.

Definition do_write (w : write) (t : tracer) : option tracer :=
  match w_severity w with
  | SevInfo => Info (w_rt w) (w_logger w) (w_msgfmt w) (w_args w) (w_time w) t
  | SevWarn => Warn (w_rt w) (w_logger w) (w_msgfmt w) (w_args w) (w_time w) t
  | SevError =>
      Error (w_rt w) (w_logger w) (w_msgfmt w) (w_args w) (w_time w) t
  end.

Fixpoint do_writes (ws : list write) (t : tracer) : option tracer :=
  match ws with
  | [] => Some t
  | w :: ws' => t' ← do_write w t; do_writes ws' t'
  end.

Lemma do_write_log w t :
  do_write w t =
  log (w_rt w) (w_logger w) (level_of (w_severity w))
      (l_group (w_logger w)) (l_span (w_logger w)) (w_msgfmt w) (w_args w)
      (w_time w) t.
Proof. unfold do_write. by destruct (w_severity w). Qed.

(** The stores a program gets from the constructor by writes that return
    and by switching the gate.  A write that panics returns no store: the
    store that a recovered panic leaves (the group stamped, the span not
    made) is not among these. *)
Inductive reachable : tracer → Prop :=
  | reachable_new (numGroups numSpans numMessages : Z) :
      reachable (NewTracerWithSizes numGroups numSpans numMessages)
  | reachable_write w t t' :
      reachable t → do_write w t = Some t' → reachable t'
  | reachable_Enable t : reachable t → reachable (Enable t)
  | reachable_Disable t : reachable t → reachable (Disable t).

Lemma do_write_wf w t :
  wf t → span_can_be_made t (l_group (w_logger w)) (l_span (w_logger w)) →
  ∃ t', do_write w t = Some t' ∧ wf t'.
Proof. rewrite do_write_log. apply log_wf. Qed.

Lemma do_write_Some_wf w t t' :
  wf t → do_write w t = Some t' → wf t' ∧ numMessages t' = numMessages t.
Proof. rewrite do_write_log. apply log_Some_wf. Qed.

Lemma reachable_wf t : reachable t → wf t.
Proof.
  induction 1 as [a b c|w t t' _ IH H|t _ IH|t _ IH].
  - apply wf_new.
  - by destruct (do_write_Some_wf w t t' IH H).
  - by apply wf_set_enabled.
  - by apply wf_set_enabled.
Qed.

(** A store that holds a group was written to, so the slice of a span could
    be made: its message capacity is one that [make] serves. *)
Lemma reachable_makeslice t :
  reachable t → logs t ≠ ∅ → makeslice_ok (numMessages t) = true.
Proof.
  induction 1 as [a b c|w t t' Hr IH H|t _ IH|t _ IH]; try done.
  intros Hne. pose proof (reachable_wf t Hr) as Hwf.
  destruct (do_write_Some_wf w t t' Hwf H) as [_ ->].
  rewrite do_write_log in H. destruct (enabled t) eqn:Hen.
  - destruct (log_Some _ _ _ _ _ _ _ _ _ _ Hen H) as [[es Hes]|Hmk]; [|done].
    apply IH. intros Hempty. unfold lookup2 in Hes.
    by rewrite Hempty, lookup_empty in Hes.
  - unfold log, IsEnabled in H. rewrite Hen in H. simpl in H.
    injection H as <-. by apply IH.
Qed.

Lemma at_group_capacity_nonempty t :
  wf t → at_group_capacity t = true → logs t ≠ ∅.
Proof.
  intros Hwf [Hc _]%andb_true_iff Hempty. apply Z.leb_le in Hc.
  pose proof (wf_numGroups _ Hwf). pose proof (wf_groupTS _ Hwf) as Hdom.
  rewrite Hempty, dom_empty_L in Hdom. apply dom_empty_inv_L in Hdom.
  rewrite Hdom in Hc. unfold len_map in Hc. rewrite map_size_empty in Hc. lia.
Qed.

Lemma group_there_nonempty t group : is_Some (logs t !! group) → logs t ≠ ∅.
Proof. intros [x Hx] Hempty. by rewrite Hempty, lookup_empty in Hx. Qed.

Lemma span_can_be_made_there t group span es :
  lookup2 (logs t) group span = Some es → span_can_be_made t group span.
Proof. intros H. left. by eexists. Qed.

Lemma reachable_can_be_made t group span :
  reachable t → logs t ≠ ∅ → span_can_be_made t group span.
Proof. intros Hr Hne. right. by apply reachable_makeslice. Qed.

Lemma do_writes_wf ws t :
  wf t → makeslice_ok (numMessages t) = true →
  ∃ t', do_writes ws t = Some t' ∧ wf t' ∧ numMessages t' = numMessages t.
Proof.
  revert t; induction ws as [|w ws IH]; intros t Hwf Hmk; simpl; [eauto|].
  destruct (do_write_wf w t Hwf) as (t1 & Ht1 & Hwf1); [by right|].
  destruct (do_write_Some_wf w t t1 Hwf Ht1) as [_ Hn].
  rewrite Ht1. simpl. destruct (IH t1 Hwf1) as (t' & Ht' & Hwf' & Hn').
  { by rewrite Hn. }
  exists t'. split_and!; [done|done|congruence].
Qed.

Lemma do_writes_reachable ws t t' :
  reachable t → do_writes ws t = Some t' → reachable t'.
Proof.
  revert t; induction ws as [|w ws IH]; intros t Hr; simpl.
  - by intros [= <-].
  - destruct (do_write w t) as [t1|] eqn:Hw; simpl; [|done].
    apply IH. by eapply reachable_write.
Qed.

Lemma do_writes_app ws1 ws2 t :
  do_writes (ws1 ++ ws2) t = do_writes ws1 t ≫= do_writes ws2.
Proof.
  revert t; induction ws1 as [|w ws1 IH]; intros t; simpl; [done|].
  destruct (do_write w t); simpl; [apply IH|done].
Qed.

(** ** The gate *)

Lemma do_write_disabled w t : enabled t = false → do_write w t = Some t.
Proof. intros H. rewrite do_write_log. unfold log, IsEnabled. by rewrite H. Qed.

Lemma do_writes_disabled ws t : enabled t = false → do_writes ws t = Some t.
Proof.
  intros H. induction ws as [|w ws IH]; simpl; [done|].
  by rewrite do_write_disabled.
Qed.

(** C9. After [Disable], every write ([Info], [Warn] or [Error], for any
    group, span and message) leaves the whole store as it is: the buckets
    with their entries and counts and the three timestamp maps; the reads
    return what they returned before [Disable]; after [Enable], writes
    act on the store exactly as they act on the store that was there before
    the gate was closed. *)
Theorem Disable_freezes_the_store (t : tracer) (ws ws' : list write)
    (rt : GoRuntime) (group timezone groupFilter spanFilter : string)
    (withExactTime : bool) :
  do_writes ws (Disable t) = Some (Disable t) ∧
  (logs (Disable t) = logs t ∧ groupTS (Disable t) = groupTS t ∧
   spanTS (Disable t) = spanTS t) ∧
  (ListGroups rt (Disable t) = ListGroups rt t ∧
   ListSpans rt group (Disable t) = ListSpans rt group t ∧
   Logs rt group (Disable t) = Logs rt group t ∧
   ToMap rt timezone withExactTime groupFilter spanFilter (Disable t) =
   ToMap rt timezone withExactTime groupFilter spanFilter t) ∧
  (IsEnabled (Disable t) = false ∧ IsEnabled (Enable (Disable t)) = true) ∧
  (do_writes ws (Disable t) ≫= (λ t1, do_writes ws' (Enable t1))) =
    do_writes ws' (Enable t) ∧
  (enabled t = true → Enable (Disable t) = t).
Proof.
  assert (Hws : do_writes ws (Disable t) = Some (Disable t))
    by by apply do_writes_disabled.
  split_and!; try done.
  - by rewrite Hws.
  - destruct t; simpl; intros ->; done.
Qed.

(** ** Empty messages *)

(** C8. A write whose formatted message is empty, on a store whose message
    capacity is one that [make] serves (the slice of a new span is made
    before the message is looked at), creates no entry and changes no
    entry: the slice of the written span is as it was, empty when the span
    is new, and every other slice of the store after the write is a slice
    that was there, at the same group and span.  What the earlier steps did
    stays: the written group and span are there, and the group's and the
    span's timestamps are the time of the write. *)
Theorem empty_message_keeps_bookkeeping (rt : GoRuntime) (l : logger)
    (lvl group span msgfmt : string) (v : list any) (timeNow : Time)
    (t : tracer) :
  reachable t → enabled t = true → makeslice_ok (numMessages t) = true →
  Sprintf rt msgfmt v = "" →
  ∃ t', log rt l lvl group span msgfmt v timeNow t = Some t' ∧
        touch rt group span timeNow t = Some t' ∧
        lookup2 (logs t') group span = Some (slice_before t group span) ∧
        groupTS t' !! group = Some timeNow ∧
        lookup2 (spanTS t') group span = Some timeNow ∧
        (∀ g s es, lookup2 (logs t') g s = Some es →
                   (g = group ∧ s = span) ∨ lookup2 (logs t) g s = Some es).
Proof.
  intros Hr Hen Hmk Hempty. pose proof (reachable_wf t Hr) as Hwf.
  destruct (log_enabled rt l lvl group span msgfmt v timeNow t Hwf Hen)
    as (t3 & Ht3 & Hwf3 & Htd & [[_ Hlog]|[Hne _]]); [by right| |done].
  exists t3. split_and!; try done; apply Htd.
Qed.

(** ** Reading a group's log *)

Lemma span_entries_lookup t group spans name :
  logs t !! group = Some spans →
  span_entries t group name = default [] (spans !! name).
Proof. intros H. unfold span_entries, lookup2. by rewrite H. Qed.

(** C7. [Logs group] returns one slice per span of the group, the spans
    taken by their last-written timestamp, most recent first, and each
    slice holding the span's entries by [lastSeen], most recent first; for
    a group that is not there the result is empty. *)
Theorem Logs_most_recent_first (rt : GoRuntime) (group : string) (t : tracer) :
  (logs t !! group = None → Logs rt group t = []) ∧
  (∀ spans, logs t !! group = Some spans →
     ∃ names : list string,
       names ≡ₚ (map_to_list spans).*1 ∧
       StronglySorted (later_first (span_time t group)) names ∧
       Forall2 (λ name out,
                  out ≡ₚ default [] (spans !! name) ∧
                  StronglySorted (later_first time) out)
               names (Logs rt group t)).
Proof.
  split; unfold Logs.
  - by intros ->.
  - intros spans Hg. rewrite Hg, (inner_map_Some _ _ _ Hg).
    exists (sort_Slice rt (span_time t group) (range rt spans).*1).
    split_and!.
    + rewrite sort_Slice_perm. by rewrite (range_perm rt).
    + apply sort_Slice_sorted.
    + apply Forall2_fmap_r, Forall_Forall2_diag, Forall_forall.
      intros name _. split.
      * rewrite sort_Slice_perm. by rewrite (span_entries_lookup _ _ _ _ Hg).
      * apply sort_Slice_sorted.
Qed.

(** ** Writes that store an entry *)

(** What a write with a non-empty formatted message leaves of [t] in [t']:
    [s'] is the new slice of the written span. *)
Record stored (group span : string) (timeNow : Time) (s' : list logEntry)
    (t t' : tracer) : Prop := {
  stored_wf : wf t';
  stored_enabled : enabled t' = true;
  stored_numGroups : numGroups t' = numGroups t;
  stored_numSpans : numSpans t' = numSpans t;
  stored_numMessages : numMessages t' = numMessages t;
  stored_span : lookup2 (logs t') group span = Some s';
  stored_groupTS : groupTS t' !! group = Some timeNow;
  stored_spanTS : lookup2 (spanTS t') group span = Some timeNow;
  stored_others : ∀ g s es,
    lookup2 (logs t') g s = Some es →
    (g = group ∧ s = span) ∨ lookup2 (logs t) g s = Some es
}.

Lemma log_stores rt l lvl group span msgfmt v timeNow t :
  wf t → enabled t = true → span_can_be_made t group span →
  Sprintf rt msgfmt v ≠ "" →
  ∃ t' s',
    log rt l lvl group span msgfmt v timeNow t = Some t' ∧
    store_entry l lvl (truncate (Sprintf rt msgfmt v)) timeNow
      (numMessages t) (slice_before t group span) = Some s' ∧
    stored group span timeNow s' t t'.
Proof.
  intros Hwf Hen Hcan Hne.
  destruct (log_enabled rt l lvl group span msgfmt v timeNow t Hwf Hen Hcan)
    as (t3 & Ht3 & Hwf3 & Htd &
        [[? _]|(_ & s' & lg & Hs' & Hok & Hlg & Hwf' & ->)]);
    [done|].
  eexists _, s'. split_and!; try done.
  destruct Htd. split; simpl; try congruence.
  - rewrite (lookup2_assign2 _ _ _ _ _ _ _ Hlg). by rewrite decide_True.
  - intros g s es. rewrite (lookup2_assign2 _ _ _ _ _ _ _ Hlg).
    destruct (decide (group = g ∧ span = s)) as [[-> ->]|]; [by left|].
    apply touched_others0.
Qed.

Lemma slice_before_stored group span timeNow s' t t' :
  stored group span timeNow s' t t' → slice_before t' group span = s'.
Proof. intros []. unfold slice_before. by rewrite stored_span0. Qed.

(** The pair under which a write's entry is stored, and the entry a write
    of a new pair appends. *)
Definition formatted (w : write) : string :=
  Sprintf (w_rt w) (w_msgfmt w) (w_args w).

Definition write_key (w : write) : string * string :=
  (truncate (formatted w), level_of (w_severity w)).

Definition new_entry (w : write) : logEntry :=
  LogEntry (l_group (w_logger w)) (l_span (w_logger w))
           (truncate (formatted w)) (level_of (w_severity w)) (w_time w) 1.

(** The last [n] elements of a slice (all of them when there are fewer). *)
Definition last_n {A} (n : Z) (s : list A) : list A :=
  drop (Z.to_nat (len_slice s - n)) s.

Lemma last_n_length {A} (n : Z) (s : list A) :
  0 ≤ n → len_slice (last_n n s) = Z.min n (len_slice s).
Proof. intros. unfold last_n, len_slice. rewrite length_drop. lia. Qed.

Lemma last_n_snoc {A} (n : Z) (s : list A) (x : A) (rest : list A) :
  1 ≤ n →
  last_n n ((drop (Z.to_nat (len_slice s + 1 - n)) s ++ [x]) ++ rest) =
  last_n n (s ++ x :: rest).
Proof.
  intros Hn. unfold last_n, len_slice.
  set (k := Z.to_nat (Z.of_nat (length s) + 1 - n)).
  assert (Hk : (k ≤ length s)%nat) by lia.
  rewrite <- (app_assoc _ [x] rest). simpl.
  rewrite <- (drop_app_le s (x :: rest) k Hk).
  rewrite drop_drop. f_equal.
  rewrite length_drop, !length_app. simpl. lia.
Qed.

(** A write of a pair that its span does not hold appends the new entry,
    after dropping the entry at index 0 when the slice is full. *)
Lemma do_write_new w t :
  wf t → enabled t = true →
  span_can_be_made t (l_group (w_logger w)) (l_span (w_logger w)) →
  formatted w ≠ "" →
  let group := l_group (w_logger w) in
  let span := l_span (w_logger w) in
  write_key w ∉ (entry_key <$> slice_before t group span) →
  ∃ t', do_write w t = Some t' ∧
        stored group span (w_time w)
          (drop (Z.to_nat (len_slice (slice_before t group span) + 1
                           - numMessages t))
                (slice_before t group span) ++ [new_entry w]) t t'.
Proof.
  intros Hwf Hen Hcan Hne group span Hout. rewrite do_write_log.
  destruct (log_stores (w_rt w) (w_logger w) (level_of (w_severity w))
              group span (w_msgfmt w) (w_args w) (w_time w) t Hwf Hen Hcan Hne)
    as (t' & s' & Hlog & Hs' & Hst).
  exists t'. split; [done|].
  destruct (slice_before_ok t group span Hwf) as [Hlen _].
  rewrite store_entry_absent in Hs';
    [| by apply wf_numMessages | done | done].
  by injection Hs' as <-.
Qed.

Lemma slice_before_there t group span pre e post :
  slice_before t group span = pre ++ e :: post →
  span_can_be_made t group span.
Proof.
  unfold slice_before. intros H. left.
  destruct (lookup2 (logs t) group span); [by eexists|].
  by destruct pre.
Qed.

(** A write of a pair that its span holds counts the entry once more, in
    place. *)
Lemma do_write_dup w t pre e post :
  wf t → enabled t = true → formatted w ≠ "" →
  let group := l_group (w_logger w) in
  let span := l_span (w_logger w) in
  slice_before t group span = pre ++ e :: post →
  entry_key e = write_key w →
  ∃ t', do_write w t = Some t' ∧
        stored group span (w_time w) (pre ++ bump (w_time w) e :: post) t t'.
Proof.
  intros Hwf Hen Hne group span Hs He. rewrite do_write_log.
  pose proof (slice_before_there _ _ _ _ _ _ Hs) as Hcan.
  destruct (log_stores (w_rt w) (w_logger w) (level_of (w_severity w))
              group span (w_msgfmt w) (w_args w) (w_time w) t Hwf Hen Hcan Hne)
    as (t' & s' & Hlog & Hs' & Hst).
  exists t'. split; [done|].
  destruct (slice_before_ok t group span Hwf) as [_ Hnd].
  fold group span in Hs'. rewrite Hs in Hs', Hnd.
  rewrite fmap_app, fmap_cons in Hnd.
  apply NoDup_app in Hnd as (_ & Hdisj & _).
  rewrite (store_entry_at (w_logger w) _ _ _ _ pre e post) in Hs'.
  - by injection Hs' as <-.
  - done.
  - change (write_key w ∉ (entry_key <$> pre)). rewrite <- He.
    intros Hin. apply (Hdisj _ Hin). left.
Qed.

(** ** Message capacity: first in, first out *)

Lemma entry_key_new w : entry_key (new_entry w) = write_key w.
Proof. done. Qed.

Lemma last_n_all {A} (n : Z) (s : list A) : len_slice s ≤ n → last_n n s = s.
Proof. intros. unfold last_n. by replace (Z.to_nat _) with 0%nat by lia. Qed.

(** Writes of pairwise different pairs that the span does not hold, all on
    one logger, leave in the span the last [numMessages] entries of its
    slice extended by the new entries, in the order of the writes. *)
Lemma do_writes_new (l : logger) (ws : list write) (t : tracer) :
  wf t → enabled t = true → makeslice_ok (numMessages t) = true →
  Forall (λ w, w_logger w = l ∧ formatted w ≠ "") ws →
  NoDup (write_key <$> ws) →
  (∀ w, w ∈ ws →
        write_key w ∉ (entry_key <$> slice_before t (l_group l) (l_span l))) →
  ∃ t', do_writes ws t = Some t' ∧ wf t' ∧ enabled t' = true ∧
        numMessages t' = numMessages t ∧
        slice_before t' (l_group l) (l_span l) =
        last_n (numMessages t)
               (slice_before t (l_group l) (l_span l) ++ (new_entry <$> ws)).
Proof.
  revert t. induction ws as [|w ws IH]; intros t Hwf Hen Hmk Hall Hnd Hfresh.
  - exists t. split_and!; try done. simpl. rewrite app_nil_r.
    symmetry. apply last_n_all. by apply slice_before_ok.
  - apply Forall_cons in Hall as [[Hl Hne] Hall].
    rewrite fmap_cons in Hnd. apply NoDup_cons in Hnd as [Hw Hnd].
    destruct (do_write_new w t Hwf Hen (or_intror Hmk) Hne)
      as (t1 & Ht1 & Hst).
    { rewrite Hl. apply Hfresh. left. }
    rewrite Hl in Hst. pose proof (slice_before_stored _ _ _ _ _ _ Hst) as Hs1.
    destruct (IH t1) as (t' & Ht' & Hwf' & Hen' & Hn' & Hs');
      [apply Hst | apply Hst
       | by rewrite (stored_numMessages _ _ _ _ _ _ Hst) | done | done | |].
    { intros w' Hw'. rewrite Hs1, fmap_app, fmap_drop. simpl.
      rewrite elem_of_app, list_elem_of_singleton. intros [Hin|Heq].
      - eapply Hfresh; [by right|].
        eapply elem_of_sublist; [done|apply sublist_drop].
      - apply Hw. change (entry_key (new_entry w)) with (write_key w) in Heq.
        rewrite <- Heq. by apply list_elem_of_fmap_2. }
    exists t'. simpl. rewrite Ht1. simpl. split_and!; try done.
    + rewrite Hn'. apply Hst.
    + rewrite Hs', Hs1, (stored_numMessages _ _ _ _ _ _ Hst).
      apply last_n_snoc. by apply wf_numMessages.
Qed.

Lemma last_n_keys (n : Z) (s : list logEntry) k :
  k ∈ (entry_key <$> last_n n s) → k ∈ (entry_key <$> s).
Proof.
  unfold last_n. rewrite fmap_drop. intros H.
  eapply elem_of_sublist; [done|apply sublist_drop].
Qed.

(** C2. On a store whose message capacity is one that [make] serves (the
    slice of a new span is made with that capacity), in every span the
    slice of entries never exceeds [numMessages]; after writes of pairwise
    different (message, level) pairs the span holds the most recently
    inserted ones, in the order of their insertion; and each of these
    writes that finds the slice full drops the entry at index 0, the one
    inserted first, and no other. *)
Theorem span_keeps_latest_messages (l : logger) (ws : list write)
    (t : tracer) :
  reachable t → enabled t = true → makeslice_ok (numMessages t) = true →
  Forall (λ w, w_logger w = l ∧ formatted w ≠ "") ws →
  NoDup (write_key <$> ws) →
  (∀ w, w ∈ ws →
        write_key w ∉ (entry_key <$> slice_before t (l_group l) (l_span l))) →
  ∃ t', do_writes ws t = Some t' ∧
        slice_before t' (l_group l) (l_span l) =
        last_n (numMessages t)
               (slice_before t (l_group l) (l_span l) ++ (new_entry <$> ws)) ∧
        (∀ g s es, lookup2 (logs t') g s = Some es →
                   len_slice es ≤ numMessages t') ∧
        (∀ ws1 w ws2, ws = ws1 ++ w :: ws2 →
           ∃ t1 t2,
             do_writes ws1 t = Some t1 ∧ do_write w t1 = Some t2 ∧
             slice_before t2 (l_group l) (l_span l) =
             (if decide (len_slice (slice_before t1 (l_group l) (l_span l))
                         < numMessages t)
              then slice_before t1 (l_group l) (l_span l)
              else drop 1 (slice_before t1 (l_group l) (l_span l)))
             ++ [new_entry w]).
Proof.
  intros Hr Hen Hmk Hall Hnd Hfresh. pose proof (reachable_wf t Hr) as Hwf.
  destruct (do_writes_new l ws t Hwf Hen Hmk Hall Hnd Hfresh)
    as (t' & Ht' & Hwf' & Hen' & Hn' & Hs').
  exists t'. split_and!; try done.
  - intros g s es. by apply wf_len.
  - intros ws1 w ws2 ->.
    apply Forall_app in Hall as [Hall1 [[Hl Hne] _]%Forall_cons].
    rewrite fmap_app, fmap_cons in Hnd.
    apply NoDup_app in Hnd as (Hnd1 & Hdisj & [Hw _]%NoDup_cons).
    destruct (do_writes_new l ws1 t Hwf Hen Hmk Hall1 Hnd1)
      as (t1 & Ht1 & Hwf1 & Hen1 & Hn1 & Hs1).
    { intros w' Hw'. apply Hfresh. apply elem_of_app. by left. }
    assert (Hcan1 : span_can_be_made t1 (l_group (w_logger w))
                      (l_span (w_logger w))) by (right; by rewrite Hn1).
    destruct (do_write_new w t1 Hwf1 Hen1 Hcan1 Hne) as (t2 & Ht2 & Hst).
    { rewrite Hl, Hs1. intros Hin%last_n_keys.
      rewrite fmap_app, elem_of_app in Hin. destruct Hin as [Hin|Hin].
      - eapply Hfresh; [|done]. apply elem_of_app. right. left.
      - rewrite <- list_fmap_compose in Hin.
        apply (Hdisj (write_key w)); [|left].
        apply list_elem_of_fmap in Hin as (w' & Hk & Hw').
        rewrite Hk. change ((entry_key ∘ new_entry) w') with (write_key w').
        by apply list_elem_of_fmap_2. }
    exists t1, t2. split_and!; try done.
    rewrite Hl in Hst. rewrite (slice_before_stored _ _ _ _ _ _ Hst).
    f_equal. rewrite Hn1.
    destruct (slice_before_ok t1 (l_group l) (l_span l) Hwf1) as [Hlen _].
    rewrite Hn1 in Hlen. case_decide.
    + by replace (Z.to_nat _) with 0%nat by lia.
    + by replace (Z.to_nat _) with 1%nat by lia.
Qed.

(** ** Repeated messages *)

(** The entry after the duplicate writes at the times [times]. *)
Definition bumps (times : list Time) (e : logEntry) : logEntry :=
  foldl (λ e timeNow, bump timeNow e) e times.

Lemma bumps_spec (times : list Time) (e : logEntry) :
  0 ≤ count e < uint32_max →
  bumps times e =
  LogEntry (group e) (span e) (message e) (level e)
           (default (time e) (last times))
           ((count e + len_slice times) mod uint32_max).
Proof.
  revert e. induction times as [|now times IH]; intros e Hc; simpl.
  - unfold len_slice; simpl. rewrite Z.add_0_r, Z.mod_small by done.
    by destruct e.
  - unfold bumps in *. rewrite IH; simpl.
    + f_equal.
      * rewrite last_cons. by destruct (last times).
      * unfold uint32_incr, len_slice. simpl length.
        rewrite Z.add_mod_idemp_l by done. f_equal. lia.
    + unfold uint32_incr. apply Z.mod_pos_bound. done.
Qed.

Lemma entry_key_bumps times e : entry_key (bumps times e) = entry_key e.
Proof.
  revert e. induction times as [|now times IH]; intros e; [done|].
  unfold bumps in *. simpl. by rewrite IH.
Qed.

(** Writes of one pair that the span holds count its entry, in place. *)
Lemma do_writes_dup (l : logger) (k : string * string) (ws : list write)
    (t : tracer) pre e post :
  wf t → enabled t = true →
  Forall (λ w, w_logger w = l ∧ formatted w ≠ "" ∧ write_key w = k) ws →
  slice_before t (l_group l) (l_span l) = pre ++ e :: post →
  entry_key e = k →
  ∃ t', do_writes ws t = Some t' ∧ wf t' ∧ enabled t' = true ∧
        slice_before t' (l_group l) (l_span l) =
        pre ++ bumps (w_time <$> ws) e :: post.
Proof.
  revert t e. induction ws as [|w ws IH]; intros t e Hwf Hen Hall Hs He.
  - exists t. done.
  - apply Forall_cons in Hall as [(Hl & Hne & Hk) Hall].
    destruct (do_write_dup w t pre e post Hwf Hen Hne) as (t1 & Ht1 & Hst);
      [by rewrite Hl | congruence |].
    rewrite Hl in Hst.
    destruct (IH t1 (bump (w_time w) e)) as (t' & Ht' & Hwf' & Hen' & Hs');
      [apply Hst | apply Hst | done | | done |].
    { by rewrite (slice_before_stored _ _ _ _ _ _ Hst). }
    exists t'. simpl. rewrite Ht1. simpl. done.
Qed.

Lemma filter_none {A} (P : A → Prop) `{∀ x, Decision (P x)} (l : list A) :
  Forall (λ x, ¬ P x) l → filter P l = [].
Proof.
  induction 1 as [|x l Hx _ IH]; [done|]. by rewrite filter_cons_False.
Qed.

(** Writes of one pair to a span that does not hold it: the entry counts
    the writes modulo 2^32. *)
Lemma repeated_write_count_mod (l : logger) (k : string * string) (w : write)
    (ws : list write) (t : tracer) :
  wf t → enabled t = true → span_can_be_made t (l_group l) (l_span l) →
  Forall (λ w, w_logger w = l ∧ formatted w ≠ "" ∧ write_key w = k)
         (w :: ws) →
  k ∉ (entry_key <$> slice_before t (l_group l) (l_span l)) →
  ∃ t', do_writes (w :: ws) t = Some t' ∧ wf t' ∧
        filter (λ e, entry_key e = k) (slice_before t' (l_group l) (l_span l))
        = [LogEntry (l_group l) (l_span l) k.1 k.2
                    (w_time (default w (last ws)))
                    (len_slice (w :: ws) mod uint32_max)].
Proof.
  intros Hwf Hen Hcan Hall Hfresh.
  apply Forall_cons in Hall as [(Hl & Hne & Hk) Hall].
  rewrite <- Hl in Hcan.
  destruct (do_write_new w t Hwf Hen Hcan Hne) as (t1 & Ht1 & Hst);
    [by rewrite Hl, Hk|].
  rewrite Hl in Hst. pose proof (slice_before_stored _ _ _ _ _ _ Hst) as Hs1.
  set (pre := drop _ _) in *.
  destruct (do_writes_dup l k ws t1 pre (new_entry w) [])
    as (t' & Ht' & Hwf' & Hen' & Hs'); [apply Hst|apply Hst|done|done|done|].
  exists t'. simpl do_writes. rewrite Ht1. simpl. split_and!; try done.
  rewrite Hs', filter_app, filter_cons_True, filter_nil
    by (by rewrite entry_key_bumps).
  assert (Hpre : filter (λ e, entry_key e = k) pre = []).
  { apply filter_none, Forall_forall. intros e He Heq.
    apply Hfresh. rewrite <- Heq. apply list_elem_of_fmap_2.
    eapply elem_of_sublist; [done|apply sublist_drop]. }
  rewrite Hpre. simpl. f_equal.
  rewrite bumps_spec by (simpl; unfold uint32_max; lia).
  simpl. rewrite Hl. subst k. simpl. f_equal.
  - rewrite fmap_last. by destruct (last ws).
  - unfold len_slice. simpl length. rewrite length_fmap. f_equal. lia.
Qed.

(** C3. On a store whose message capacity is one that [make] serves (the
    slice of a new span is made with that capacity), writing one non-empty
    (message, level) pair [N] times to one group and span that does not
    hold it, with [N] at least 1 and within the range of the 32-bit
    counter, leaves exactly one entry for the pair in the span: its count
    is [N] and its time is the time of the last write.  In every span of
    the store, before and after, no two entries have the same (message,
    level) pair. *)
Theorem repeated_write_counts (l : logger) (k : string * string) (w : write)
    (ws : list write) (t : tracer) :
  reachable t → enabled t = true → makeslice_ok (numMessages t) = true →
  Forall (λ w, w_logger w = l ∧ formatted w ≠ "" ∧ write_key w = k)
         (w :: ws) →
  k ∉ (entry_key <$> slice_before t (l_group l) (l_span l)) →
  len_slice (w :: ws) < uint32_max →
  ∃ t', do_writes (w :: ws) t = Some t' ∧
        filter (λ e, entry_key e = k) (slice_before t' (l_group l) (l_span l))
        = [LogEntry (l_group l) (l_span l) k.1 k.2
                    (w_time (default w (last ws))) (len_slice (w :: ws))] ∧
        (∀ g s es, lookup2 (logs t) g s = Some es →
                   NoDup (entry_key <$> es)) ∧
        (∀ g s es, lookup2 (logs t') g s = Some es →
                   NoDup (entry_key <$> es)).
Proof.
  intros Hr Hen Hmk Hall Hfresh HN. pose proof (reachable_wf t Hr) as Hwf.
  destruct (repeated_write_count_mod l k w ws t Hwf Hen (or_intror Hmk) Hall
              Hfresh)
    as (t' & Ht' & Hwf' & Hs').
  exists t'. split_and!; try done.
  - rewrite Hs'. rewrite Z.mod_small; [done|].
    unfold len_slice in *. lia.
  - intros g s es. by apply wf_nodup.
  - intros g s es. by apply wf_nodup.
Qed.

(** ** What a write does outside the written group and span *)

(** Two stores with the same groups, the same group timestamps, and the
    same buckets outside [group]. *)
Definition agree_outside (group : string) (a b : tracer) : Prop :=
  dom (logs a) = dom (logs b) ∧ dom (spanTS a) = dom (spanTS b) ∧
  groupTS a = groupTS b ∧
  ∀ g, g ≠ group → logs a !! g = logs b !! g ∧ spanTS a !! g = spanTS b !! g.

Lemma agree_outside_refl group t : agree_outside group t t.
Proof. done. Qed.

Lemma agree_outside_trans group a b c :
  agree_outside group a b → agree_outside group b c → agree_outside group a c.
Proof.
  intros (Ha1 & Ha2 & Ha3 & Ha) (Hb1 & Hb2 & Hb3 & Hb).
  split_and!; try congruence.
  intros g Hg. destruct (Ha g Hg), (Hb g Hg). split; congruence.
Qed.

Lemma agree_evict_span group k t : agree_outside group (evict_span group k t) t.
Proof.
  split_and!; simpl; try done; try apply dom_delete2.
  intros g Hg. unfold delete2. by rewrite !lookup_alter_ne.
Qed.

Lemma agree_set_logs group s v lg t :
  assign2 (logs t) group s v = Some lg →
  agree_outside group (set_logs (λ _, lg) t) t.
Proof.
  intros Hlg. split_and!; simpl; try done.
  - by eapply dom_assign2.
  - intros g Hg. apply assign2_Some in Hlg as (im & _ & ->).
    by rewrite lookup_insert_ne.
Qed.

Lemma agree_set_spanTS group s v ts t :
  assign2 (spanTS t) group s v = Some ts →
  agree_outside group (set_spanTS (λ _, ts) t) t.
Proof.
  intros Hts. split_and!; simpl; try done.
  - by eapply dom_assign2.
  - intros g Hg. apply assign2_Some in Hts as (im & _ & ->).
    by rewrite lookup_insert_ne.
Qed.

(** The span that the span part of a write removes. *)
Definition span_victim (rt : GoRuntime) (group span : string) (t : tracer)
    : option string :=
  match lookup2 (logs t) group span with
  | Some _ => None
  | None =>
      if at_span_capacity t group
         && negb (String.eqb (oldest_key rt (inner_map (spanTS t) group)) "")
      then Some (oldest_key rt (inner_map (spanTS t) group))
      else None
  end.

(** The group that the group part of a write removes. *)
Definition group_victim (rt : GoRuntime) (group : string) (t : tracer)
    : option string :=
  match logs t !! group with
  | Some _ => None
  | None =>
      if at_group_capacity t
         && negb (String.eqb (oldest_key rt (groupTS t)) "")
      then Some (oldest_key rt (groupTS t))
      else None
  end.

Definition without {V} (victim : option string) (m : gmap string V)
    : gmap string V :=
  match victim with
  | Some k => delete k m
  | None => m
  end.

Lemma ensure_group_maps rt group t :
  let t1 := ensure_group rt group t in
  match logs t !! group with
  | Some _ => t1 = t
  | None =>
      logs t1 = <[group := ∅]> (without (group_victim rt group t) (logs t)) ∧
      spanTS t1 = <[group := ∅]> (without (group_victim rt group t) (spanTS t)) ∧
      groupTS t1 = without (group_victim rt group t) (groupTS t)
  end.
Proof.
  unfold ensure_group, group_victim.
  destruct (logs t !! group); [done|].
  destruct (at_group_capacity t); [|done].
  destruct (negb _); done.
Qed.

Lemma make_slice_Some cap s : make_slice cap = Some s → s = [].
Proof. unfold make_slice. destruct (makeslice_ok cap); congruence. Qed.

Lemma ensure_span_agree rt group span u u2 :
  ensure_span rt group span u = Some u2 → agree_outside group u2 u.
Proof.
  unfold ensure_span. destruct (lookup2 (logs u) group span).
  { by intros [= <-]. }
  set (u' := if at_span_capacity u group then _ else u).
  assert (agree_outside group u' u) as Hu'.
  { subst u'. destruct (at_span_capacity u group); [|done].
    destruct (negb _); [apply agree_evict_span|done]. }
  clearbody u'. destruct (make_slice _) as [s|]; [|done]. simpl.
  destruct (assign2 _ _ _ _) as [lg|] eqn:Hlg; [|done].
  simpl. intros [= <-]. eapply agree_outside_trans; [|done].
  by eapply agree_set_logs.
Qed.

Lemma ensure_span_spans rt group span u u2 :
  ensure_span rt group span u = Some u2 →
  match lookup2 (logs u) group span with
  | Some _ => u2 = u
  | None =>
      inner_map (logs u2) group =
        <[span := []]> (without (span_victim rt group span u)
                                (inner_map (logs u) group)) ∧
      inner_map (spanTS u2) group =
        without (span_victim rt group span u) (inner_map (spanTS u) group)
  end.
Proof.
  unfold ensure_span, span_victim.
  destruct (lookup2 (logs u) group span); [by intros [= <-]|].
  destruct (at_span_capacity u group); simpl.
  - destruct (negb _); simpl.
    + destruct (make_slice _) as [s|] eqn:Hs; [|done].
      apply make_slice_Some in Hs as ->. simpl.
      destruct (assign2 _ _ _ _) as [lg|] eqn:Hlg; [|done].
      simpl. intros [= <-]. simpl.
      rewrite (inner_map_assign2 _ _ _ _ _ _ Hlg), decide_True by done.
      by rewrite !inner_map_delete2, !decide_True by done.
    + destruct (make_slice _) as [s|] eqn:Hs; [|done].
      apply make_slice_Some in Hs as ->. simpl.
      destruct (assign2 _ _ _ _) as [lg|] eqn:Hlg; [|done].
      simpl. intros [= <-]. simpl.
      by rewrite (inner_map_assign2 _ _ _ _ _ _ Hlg), decide_True by done.
  - destruct (make_slice _) as [s|] eqn:Hs; [|done].
    apply make_slice_Some in Hs as ->. simpl.
    destruct (assign2 _ _ _ _) as [lg|] eqn:Hlg; [|done].
    simpl. intros [= <-]. simpl.
    by rewrite (inner_map_assign2 _ _ _ _ _ _ Hlg), decide_True by done.
Qed.

(** The steps of an enabled write that went through. *)
Lemma log_inv rt l lvl group span msgfmt v timeNow t t' :
  log rt l lvl group span msgfmt v timeNow t = Some t' → enabled t = true →
  ∃ u2 ts,
    ensure_span rt group span
      (set_groupTS <[group := timeNow]> (ensure_group rt group t)) = Some u2 ∧
    assign2 (spanTS u2) group span timeNow = Some ts ∧
    (t' = set_spanTS (λ _, ts) u2 ∨
     ∃ s' lg, assign2 (logs u2) group span s' = Some lg ∧
              t' = set_logs (λ _, lg) (set_spanTS (λ _, ts) u2)).
Proof.
  unfold log, touch, IsEnabled. intros H Hen. rewrite Hen in H. simpl in H.
  destruct (ensure_span _ _ _ _) as [u2|]; [|done]. simpl in H.
  destruct (assign2 (spanTS u2) _ _ _) as [ts|] eqn:Hts; [|done].
  simpl in H. exists u2, ts. split_and!; try done.
  destruct (len_string _ =? 0); [left; congruence|].
  destruct (store_entry _ _ _ _ _ _) as [s'|]; [|done]. simpl in H.
  destruct (assign2 (logs u2) _ _ _) as [lg|] eqn:Hlg; [|done].
  simpl in H. right. exists s', lg. split; congruence.
Qed.

Lemma log_agree rt l lvl group span msgfmt v timeNow t t' :
  log rt l lvl group span msgfmt v timeNow t = Some t' → enabled t = true →
  agree_outside group t'
    (set_groupTS <[group := timeNow]> (ensure_group rt group t)).
Proof.
  intros H Hen.
  destruct (log_inv _ _ _ _ _ _ _ _ _ _ H Hen)
    as (u2 & ts & Hu2 & Hts & [->|(s' & lg & Hlg & ->)]).
  - eapply agree_outside_trans; [by eapply agree_set_spanTS|].
    by eapply ensure_span_agree.
  - eapply agree_outside_trans; [by eapply (agree_set_logs group span s')|].
    eapply agree_outside_trans; [by eapply agree_set_spanTS|].
    by eapply ensure_span_agree.
Qed.

(** The spans of the written group after the write: the written span, and
    the spans that were there except the one the span part removed. *)
Lemma log_spans rt l lvl group span msgfmt v timeNow t t' :
  log rt l lvl group span msgfmt v timeNow t = Some t' → enabled t = true →
  let u := set_groupTS <[group := timeNow]> (ensure_group rt group t) in
  dom (inner_map (logs t') group) =
    {[span]} ∪ dom (without (span_victim rt group span u)
                            (inner_map (logs u) group)) ∧
  ∀ sp, sp ≠ span →
    lookup2 (logs t') group sp =
    without (span_victim rt group span u) (inner_map (logs u) group) !! sp.
Proof.
  intros H Hen u.
  destruct (log_inv _ _ _ _ _ _ _ _ _ _ H Hen) as (u2 & ts & Hu2 & Hts & Ht').
  fold u in Hu2. pose proof (ensure_span_spans _ _ _ _ _ Hu2) as Hsp.
  assert (Hu2' :
    dom (inner_map (logs u2) group) =
      {[span]} ∪ dom (without (span_victim rt group span u)
                              (inner_map (logs u) group)) ∧
    ∀ sp, sp ≠ span →
      inner_map (logs u2) group !! sp =
      without (span_victim rt group span u) (inner_map (logs u) group) !! sp).
  { unfold span_victim in *.
    destruct (lookup2 (logs u) group span) eqn:Hl; simpl.
    - subst u2. split; [|done]. symmetry.
      apply subseteq_union_1_L, singleton_subseteq_l, elem_of_dom.
      rewrite <- lookup2_inner, Hl. eauto.
    - destruct Hsp as [-> _]. split; [by rewrite dom_insert_L|].
      intros sp Hne. by rewrite lookup_insert_ne. }
  destruct Hu2' as [Hd Hl].
  destruct Ht' as [->|(s' & lg & Hlg & ->)]; simpl.
  - split; [done|]. intros sp Hne. by rewrite lookup2_inner, Hl.
  - rewrite (inner_map_assign2 _ _ _ _ _ _ Hlg), decide_True by done.
    split.
    + rewrite dom_insert_L, Hd. by rewrite (assoc_L (∪)), (idemp_L (∪)).
    + intros sp Hne. rewrite (lookup2_assign2 _ _ _ _ _ _ _ Hlg).
      rewrite decide_False by (intros [_ ?]; congruence).
      by rewrite lookup2_inner, Hl.
Qed.

Lemma without_lookup {V} (victim : option string) (m : gmap string V) g :
  without victim m !! g = None ∨ without victim m !! g = m !! g.
Proof.
  destruct victim as [k|]; simpl; [|by right].
  rewrite lookup_delete. case_decide; [by left|by right].
Qed.

(** The groups after a write: the written group, and the groups that were
    there except the one the group part removed. *)
Lemma log_groups rt l lvl group span msgfmt v timeNow t t' :
  log rt l lvl group span msgfmt v timeNow t = Some t' → enabled t = true →
  dom (logs t') = {[group]} ∪ dom (without (group_victim rt group t) (logs t)) ∧
  (∀ g, g ≠ group →
        logs t' !! g = without (group_victim rt group t) (logs t) !! g ∧
        spanTS t' !! g = without (group_victim rt group t) (spanTS t) !! g) ∧
  groupTS t' = <[group := timeNow]> (without (group_victim rt group t) (groupTS t)).
Proof.
  intros H Hen.
  destruct (log_agree _ _ _ _ _ _ _ _ _ _ H Hen) as (Hd & _ & Hg & Ho).
  simpl in Hd, Hg, Ho. rewrite Hd, Hg.
  pose proof (ensure_group_maps rt group t) as Hm. simpl in Hm.
  unfold group_victim in *. destruct (logs t !! group) eqn:Hgr; simpl.
  - rewrite Hm in *. split_and!; try done. symmetry.
    apply subseteq_union_1_L, singleton_subseteq_l. by eapply elem_of_dom_2.
  - destruct Hm as (Hl & Hs & Ht). rewrite Hl, Ht. split_and!; try done.
    + by rewrite dom_insert_L.
    + intros g Hne. destruct (Ho g Hne) as [-> ->]. rewrite Hl, Hs.
      by rewrite !lookup_insert_ne.
Qed.

Lemma len_map_dom {V W} (a : gmap string V) (b : gmap string W) :
  dom a = dom b → len_map a = len_map b.
Proof.
  intros H. unfold len_map. by rewrite <- (size_dom a), <- (size_dom b), H.
Qed.

Lemma len_map_grown {V} (a b : gmap string V) k :
  dom b = {[k]} ∪ dom a → a !! k = None → len_map b = len_map a + 1.
Proof.
  intros H Hk. unfold len_map.
  rewrite <- (size_dom a), <- (size_dom b), H, size_union, size_singleton.
  - lia.
  - apply disjoint_singleton_l. by apply not_elem_of_dom.
Qed.

Lemma log_caps rt l lvl group span msgfmt v timeNow t t' :
  wf t → log rt l lvl group span msgfmt v timeNow t = Some t' →
  numGroups t' = numGroups t ∧ numSpans t' = numSpans t ∧
  numMessages t' = numMessages t ∧ enabled t' = enabled t.
Proof.
  intros Hwf H. destruct (enabled t) eqn:Hen.
  - pose proof (log_Some _ _ _ _ _ _ _ _ _ _ Hen H) as Hcan.
    destruct (log_enabled rt l lvl group span msgfmt v timeNow t Hwf Hen Hcan)
      as (t3 & _ & _ & [] & [[_ Hl]|(_ & s' & lg & _ & _ & _ & _ & Hl)]);
      rewrite Hl in H; injection H as <-; simpl; split_and!; congruence.
  - unfold log, IsEnabled in H. rewrite Hen in H. simpl in H.
    by injection H as <-.
Qed.

(** ** The empty name *)

(** C4. On a store whose message capacity is one that [make] serves (the
    slice of a new span is made with that capacity): when a write brings a
    new group to a store at group capacity and the group that the scan
    selects as the oldest is named by the empty string, nothing is removed
    and the new group is created: the groups
    after the write are the new group and all the groups that were there,
    one more than before and more than [numGroups].  The same holds for a
    new span in a group at span capacity whose oldest span is named by the
    empty string.  No write removes the group named by the empty string,
    and no write removes the span named by the empty string from a group
    that stays. *)
Theorem empty_name_is_never_evicted (rt : GoRuntime) (l : logger)
    (lvl group span msgfmt : string) (v : list any) (timeNow : Time)
    (t : tracer) :
  reachable t → enabled t = true → makeslice_ok (numMessages t) = true →
  ∃ t', log rt l lvl group span msgfmt v timeNow t = Some t' ∧
    (logs t !! group = None → at_group_capacity t = true →
     oldest_key rt (groupTS t) = "" →
       (∃ ts0, groupTS t !! "" = Some ts0 ∧
               ∀ g ts, groupTS t !! g = Some ts → ts0 ≤ ts) ∧
       is_Some (logs t !! "") ∧
       dom (logs t') = {[group]} ∪ dom (logs t) ∧
       logs t' !! "" = logs t !! "" ∧
       len_map (logs t') = len_map (logs t) + 1 ∧
       numGroups t' < len_map (logs t')) ∧
    (is_Some (logs t !! group) → lookup2 (logs t) group span = None →
     at_span_capacity t group = true →
     oldest_key rt (inner_map (spanTS t) group) = "" →
       (∃ ts0, lookup2 (spanTS t) group "" = Some ts0 ∧
               ∀ sp ts, lookup2 (spanTS t) group sp = Some ts → ts0 ≤ ts) ∧
       is_Some (lookup2 (logs t) group "") ∧
       dom (inner_map (logs t') group) =
         {[span]} ∪ dom (inner_map (logs t) group) ∧
       lookup2 (logs t') group "" = lookup2 (logs t) group "" ∧
       len_map (inner_map (logs t') group) =
         len_map (inner_map (logs t) group) + 1 ∧
       numSpans t' < len_map (inner_map (logs t') group)) ∧
    (is_Some (logs t !! "") → is_Some (logs t' !! "")) ∧
    (∀ g, is_Some (lookup2 (logs t) g "") → is_Some (logs t' !! g) →
          is_Some (lookup2 (logs t') g "")) ∧
    (∀ ts0, groupTS t !! "" = Some ts0 →
            (∀ g ts, g ≠ "" → groupTS t !! g = Some ts → ts0 < ts) →
            oldest_key rt (groupTS t) = "") ∧
    (∀ ts0, lookup2 (spanTS t) group "" = Some ts0 →
            (∀ sp ts, sp ≠ "" → lookup2 (spanTS t) group sp = Some ts →
                      ts0 < ts) →
            oldest_key rt (inner_map (spanTS t) group) = "").
Proof.
  intros Hr Hen Hmk. pose proof (reachable_wf t Hr) as Hwf.
  destruct (log_wf rt l lvl group span msgfmt v timeNow t Hwf (or_intror Hmk))
    as (t' & Hlog & Hwf').
  exists t'. split; [done|].
  destruct (log_caps _ _ _ _ _ _ _ _ _ _ Hwf Hlog) as (HnG & HnS & _ & _).
  destruct (log_groups _ _ _ _ _ _ _ _ _ _ Hlog Hen) as (Hdom & Hout & HgTS).
  pose proof (log_spans _ _ _ _ _ _ _ _ _ _ Hlog Hen) as [Hsdom Hsout].
  pose proof (ensure_group_maps rt group t) as Hmaps.
  simpl in Hsdom, Hsout, Hmaps.
  split_and!.
  - (* a new group, the oldest one is named "" *)
    intros Hnew Hcap Hold.
    assert (Hv : group_victim rt group t = None).
    { unfold group_victim. by rewrite Hnew, Hcap, Hold. }
    rewrite Hv in Hdom, Hout. simpl in Hdom, Hout.
    assert (Hfull : numGroups t ≤ len_map (logs t)).
    { unfold at_group_capacity in Hcap. apply andb_true_iff in Hcap as [Hc _].
      apply Z.leb_le in Hc. by rewrite <- (len_map_dom _ _ (wf_groupTS _ Hwf)). }
    assert (Hmin : ∃ ts0, groupTS t !! "" = Some ts0 ∧
                          ∀ g ts, groupTS t !! g = Some ts → ts0 ≤ ts).
    { rewrite <- Hold. apply oldest_key_min.
      intros Hempty. pose proof (wf_numGroups _ Hwf).
      rewrite <- (len_map_dom _ _ (wf_groupTS _ Hwf)), Hempty in Hfull.
      unfold len_map in Hfull. rewrite map_size_empty in Hfull. lia. }
    assert (Hhas : is_Some (logs t !! "")).
    { destruct Hmin as (ts & Hts & _).
      apply elem_of_dom. rewrite <- (wf_groupTS _ Hwf).
      by eapply elem_of_dom_2. }
    assert (Hne : "" ≠ group).
    { intros <-. rewrite Hnew in Hhas. by destruct Hhas. }
    pose proof (len_map_grown _ _ _ Hdom Hnew) as Hlen.
    split_and!; try done; [by apply Hout | lia].
  - (* a new span, the oldest one is named "" *)
    intros [spans Hgr] Hnew Hcap Hold.
    rewrite Hgr in Hmaps. rewrite Hmaps in Hsdom, Hsout.
    assert (Hv : span_victim rt group span
                   (set_groupTS <[group := timeNow]> t) = None).
    { unfold span_victim. simpl. rewrite Hnew.
      change (at_span_capacity (set_groupTS _ t) group)
        with (at_span_capacity t group).
      by rewrite Hcap, Hold. }
    rewrite Hv in Hsdom, Hsout. simpl in Hsdom, Hsout.
    assert (Hfull : numSpans t ≤ len_map (inner_map (logs t) group)).
    { unfold at_span_capacity in Hcap. apply andb_true_iff in Hcap as [Hc _].
      apply Z.leb_le in Hc. by rewrite <- (len_map_dom _ _ (wf_spans _ Hwf group)). }
    assert (Hmin : ∃ ts0, lookup2 (spanTS t) group "" = Some ts0 ∧
                          ∀ sp ts, lookup2 (spanTS t) group sp = Some ts →
                                   ts0 ≤ ts).
    { setoid_rewrite lookup2_inner. rewrite <- Hold. apply oldest_key_min.
      intros Hempty. pose proof (wf_numSpans _ Hwf).
      rewrite <- (len_map_dom _ _ (wf_spans _ Hwf group)), Hempty in Hfull.
      unfold len_map in Hfull. rewrite map_size_empty in Hfull. lia. }
    assert (Hhas : is_Some (lookup2 (logs t) group "")).
    { destruct Hmin as (ts & Hts & _).
      rewrite lookup2_inner in Hts. rewrite lookup2_inner. apply elem_of_dom.
      rewrite <- (wf_spans _ Hwf). by eapply elem_of_dom_2. }
    assert (Hne : "" ≠ span).
    { intros <-. rewrite Hnew in Hhas. by destruct Hhas. }
    assert (Hnew' : inner_map (logs t) group !! span = None)
      by by rewrite <- lookup2_inner.
    pose proof (len_map_grown _ _ _ Hsdom Hnew') as Hlen.
    split_and!; try done; [|lia].
    rewrite (Hsout "" Hne). by rewrite lookup2_inner.
  - (* the group named "" stays *)
    intros Hhas. destruct (decide ("" = group)) as [<-|Hne].
    { apply elem_of_dom. rewrite Hdom.
      by apply elem_of_union_l, elem_of_singleton. }
    destruct (Hout _ Hne) as [-> _].
    unfold group_victim. destruct (logs t !! group); [done|].
    destruct (at_group_capacity t); [|done]. simpl.
    destruct (String.eqb_spec (oldest_key rt (groupTS t)) ""); simpl; [done|].
    by rewrite lookup_delete_ne.
  - (* the span named "" stays in a group that stays *)
    intros g Hhas Hstays. destruct (decide (g = group)) as [->|Hne].
    + assert (is_Some (logs t !! group)) as [spans Hgr].
      { unfold lookup2 in Hhas. destruct (logs t !! group); [eauto|].
        by destruct Hhas. }
      rewrite Hgr in Hmaps. rewrite Hmaps in Hsdom, Hsout.
      simpl in Hsdom, Hsout.
      destruct (decide ("" = span)) as [<-|Hnes].
      { rewrite lookup2_inner. apply elem_of_dom. rewrite Hsdom.
        by apply elem_of_union_l, elem_of_singleton. }
      rewrite (Hsout "" Hnes). unfold span_victim. simpl.
      rewrite lookup2_inner in Hhas.
      destruct (lookup2 (logs t) group span); [done|].
      destruct (at_span_capacity _ group); [|done]. simpl.
      destruct (String.eqb_spec
                  (oldest_key rt (inner_map (spanTS t) group)) "");
        simpl; [done|].
      by rewrite lookup_delete_ne.
    + destruct (Hout _ Hne) as [Hl _]. rewrite Hl in Hstays.
      unfold lookup2. rewrite Hl.
      destruct (without_lookup (group_victim rt group t) (logs t) g) as [E|E];
        rewrite E in *; [by destruct Hstays|done].
  - (* the group named "" is selected when it is strictly the oldest *)
    intros ts0 Hts0 Hstrict. by eapply oldest_key_strict.
  - (* the span named "" is selected when it is strictly the oldest *)
    intros ts0 Hts0 Hstrict. rewrite lookup2_inner in Hts0.
    eapply oldest_key_strict; [done|].
    intros sp ts Hsp Hts. apply (Hstrict sp ts Hsp). by rewrite lookup2_inner.
Qed.

(** ** Group capacity *)

(** X10. A new group at capacity, when the group selected as the oldest has a
    non-empty name: that group goes, with its bucket and its two timestamp
    entries, the other groups stay, and the number of groups is as before. *)
Lemma new_group_evicts_oldest (rt : GoRuntime) (l : logger)
    (lvl group span msgfmt : string) (v : list any) (timeNow : Time)
    (t : tracer) :
  reachable t → enabled t = true →
  logs t !! group = None → at_group_capacity t = true →
  oldest_key rt (groupTS t) ≠ "" →
  ∃ t' ts,
    log rt l lvl group span msgfmt v timeNow t = Some t' ∧
    groupTS t !! oldest_key rt (groupTS t) = Some ts ∧
    (∀ g ts', groupTS t !! g = Some ts' → ts ≤ ts') ∧
    dom (logs t') = {[group]} ∪ (dom (logs t) ∖ {[oldest_key rt (groupTS t)]}) ∧
    logs t' !! oldest_key rt (groupTS t) = None ∧
    groupTS t' !! oldest_key rt (groupTS t) = None ∧
    spanTS t' !! oldest_key rt (groupTS t) = None ∧
    (∀ g, g ≠ group → g ≠ oldest_key rt (groupTS t) →
          logs t' !! g = logs t !! g) ∧
    len_map (logs t') = len_map (logs t).
Proof.
  intros Hr Hen Hnew Hcap Hold. pose proof (reachable_wf t Hr) as Hwf.
  assert (Hcan : span_can_be_made t group span).
  { apply reachable_can_be_made; [done|]. by apply at_group_capacity_nonempty. }
  destruct (log_wf rt l lvl group span msgfmt v timeNow t Hwf Hcan)
    as (t' & Hlog & Hwf').
  destruct (log_groups _ _ _ _ _ _ _ _ _ _ Hlog Hen) as (Hdom & Hout & HgTS).
  set (old := oldest_key rt (groupTS t)) in *.
  assert (Hv : group_victim rt group t = Some old).
  { unfold group_victim. rewrite Hnew, Hcap. fold old.
    by destruct (String.eqb_spec old ""). }
  rewrite Hv in Hdom, Hout, HgTS. simpl in Hdom, Hout, HgTS.
  assert (Hfull : numGroups t ≤ len_map (groupTS t)).
  { unfold at_group_capacity in Hcap. apply andb_true_iff in Hcap as [Hc _].
    by apply Z.leb_le in Hc. }
  destruct (oldest_key_min rt (groupTS t)) as (ts & Hts & Hmin).
  { intros Hempty. pose proof (wf_numGroups _ Hwf). rewrite Hempty in Hfull.
    unfold len_map in Hfull. rewrite map_size_empty in Hfull. lia. }
  fold old in Hts.
  assert (Hin : is_Some (logs t !! old)).
  { apply elem_of_dom. rewrite <- (wf_groupTS _ Hwf). by eapply elem_of_dom_2. }
  assert (Hne : old ≠ group).
  { intros Heq. rewrite Heq, Hnew in Hin. by destruct Hin. }
  exists t', ts. split_and!; try done.
  - by rewrite Hdom, dom_delete_L.
  - destruct (Hout _ Hne) as [-> _]. apply lookup_delete_eq.
  - rewrite HgTS, lookup_insert_ne by done. apply lookup_delete_eq.
  - destruct (Hout _ Hne) as [_ ->]. apply lookup_delete_eq.
  - intros g Hg1 Hg2. destruct (Hout _ Hg1) as [-> _].
    by rewrite lookup_delete_ne.
  - assert (Hdel : len_map (logs t) = len_map (delete old (logs t)) + 1).
    { destruct Hin as [x Hx]. unfold len_map.
      rewrite <- (insert_delete_id (logs t) old x Hx) at 1.
      rewrite map_size_insert_None by apply lookup_delete_eq. lia. }
    rewrite Hdel. apply (len_map_grown _ _ group); [done|].
    by rewrite lookup_delete_ne.
Qed.

(** A store of one group at most, written under the group named by the
    empty string and then under another group. *)
Definition two_groups_in_one : option tracer :=
  do_writes
    [ {| w_rt := plain_runtime; w_logger := Trace "" "s";
         w_severity := SevInfo; w_msgfmt := "a"; w_args := [];
         w_time := 1 |};
      {| w_rt := plain_runtime; w_logger := Trace "g" "s";
         w_severity := SevInfo; w_msgfmt := "b"; w_args := [];
         w_time := 2 |} ]
    (NewTracerWithSizes 1 1 1).

(** C1. The eviction of the oldest group fails on the code when that
    group is the one named by the empty string: with room for one group, a
    write under the group named by the empty string followed by a write
    under the group "g" leaves both groups in the store, with their
    timestamps and buckets. *)
Theorem empty_group_exceeds_capacity :
  (λ t, (numGroups t, len_map (logs t), len_map (groupTS t),
         len_map (spanTS t), groupTS t !! "", groupTS t !! "g",
         span_entries t "" "s", span_entries t "g" "s"))
    <$> two_groups_in_one =
  Some (1, 2, 2, 2, Some 1, Some 2,
        [LogEntry "" "s" "a" "INFO" 1 1], [LogEntry "g" "s" "b" "INFO" 2 1]).
Proof. vm_compute. reflexivity. Qed.

(** ** Concrete runs *)

(** The store after the writes [ws], from [t]. *)
Definition run (ws : list write) (t : tracer) : tracer :=
  default t (do_writes ws t).

Lemma run_reachable ws t : reachable t → reachable (run ws t).
Proof.
  intros Hr. unfold run.
  destruct (do_writes ws t) as [t'|] eqn:Ht'; simpl; [|done].
  by eapply do_writes_reachable.
Qed.

(** [Info(msgfmt)] on the logger [Trace group span] at the time [timeNow],
    under [plain_runtime]. *)
Definition info (group span msgfmt : string) (timeNow : Time) : write :=
  {| w_rt := plain_runtime; w_logger := Trace group span;
     w_severity := SevInfo; w_msgfmt := msgfmt; w_args := [];
     w_time := timeNow |}.

(** The scenario of the specification: a store of capacities 2, 2 and 2,
    and the messages "a", "b" and "c" written to one span. *)
Lemma span_keeps_latest_messages_witness :
  ∃ t', do_writes [info "g1" "s1" "a" 1; info "g1" "s1" "b" 2;
                   info "g1" "s1" "c" 3] (NewTracerWithSizes 2 2 2) = Some t' ∧
        slice_before t' "g1" "s1" =
        [LogEntry "g1" "s1" "b" "INFO" 2 1; LogEntry "g1" "s1" "c" "INFO" 3 1].
Proof.
  destruct (span_keeps_latest_messages (Trace "g1" "s1")
              [info "g1" "s1" "a" 1; info "g1" "s1" "b" 2;
               info "g1" "s1" "c" 3] (NewTracerWithSizes 2 2 2))
    as (t' & Ht' & Hs' & _).
  - apply reachable_new.
  - reflexivity.
  - reflexivity.
  - repeat constructor; discriminate.
  - refine (bool_decide_unpack _ _). vm_compute. exact I.
  - intros w _. apply not_elem_of_nil.
  - exists t'. split; [exact Ht'|exact Hs'].
Defined.

(** The scenario of the specification: "x" written twice to one span. *)
Lemma repeated_write_counts_witness :
  ∃ t', do_writes [info "g1" "s1" "x" 1; info "g1" "s1" "x" 2]
                  (NewTracerWithSizes 2 2 2) = Some t' ∧
        filter (λ e, entry_key e = ("x", "INFO")) (slice_before t' "g1" "s1")
        = [LogEntry "g1" "s1" "x" "INFO" 2 2].
Proof.
  destruct (repeated_write_counts (Trace "g1" "s1") ("x", "INFO")
              (info "g1" "s1" "x" 1) [info "g1" "s1" "x" 2]
              (NewTracerWithSizes 2 2 2))
    as (t' & Ht' & Hs' & _).
  - apply reachable_new.
  - reflexivity.
  - reflexivity.
  - repeat constructor; discriminate.
  - apply not_elem_of_nil.
  - reflexivity.
  - exists t'. split; [exact Ht'|exact Hs'].
Defined.

(** A store of one group and one span per group, holding the group and
    the span named by the empty string. *)
Definition empty_names : tracer :=
  run [info "" "" "a" 1] (NewTracerWithSizes 1 1 1).

Lemma empty_names_reachable : reachable empty_names.
Proof. apply run_reachable, reachable_new. Qed.

(** A write under a new group, and a write under a new span of the group
    named by the empty string, on [empty_names]. *)
Lemma empty_name_is_never_evicted_witness :
  (∃ t', log plain_runtime (Trace "g" "s") "INFO" "g" "s" "b" [] 2
             empty_names = Some t' ∧
         len_map (logs t') = 2 ∧ numGroups t' < len_map (logs t')) ∧
  (∃ t', log plain_runtime (Trace "" "s") "INFO" "" "s" "b" [] 2
             empty_names = Some t' ∧
         len_map (inner_map (logs t') "") = 2 ∧
         numSpans t' < len_map (inner_map (logs t') "")).
Proof.
  split.
  - destruct (empty_name_is_never_evicted plain_runtime (Trace "g" "s")
                "INFO" "g" "s" "b" [] 2 empty_names)
      as (t' & Ht' & Hg & _).
    + apply empty_names_reachable.
    + reflexivity.
    + reflexivity.
    + exists t'. split; [exact Ht'|].
      destruct Hg as (_ & _ & _ & _ & Hlen & Hmore); [reflexivity..|].
      split; [exact Hlen|exact Hmore].
  - destruct (empty_name_is_never_evicted plain_runtime (Trace "" "s")
                "INFO" "" "s" "b" [] 2 empty_names)
      as (t' & Ht' & _ & Hs & _).
    + apply empty_names_reachable.
    + reflexivity.
    + reflexivity.
    + exists t'. split; [exact Ht'|].
      destruct Hs as (_ & _ & _ & _ & Hlen & Hmore);
        [by eexists|reflexivity..|].
      split; [exact Hlen|exact Hmore].
Defined.

(** A write of an empty message under a new group, on a store at group
    capacity: the group "a" is removed, the group "b" is created, and no
    entry is stored. *)
Lemma empty_message_keeps_bookkeeping_witness :
  ∃ t', log plain_runtime (Trace "b" "s") "INFO" "b" "s" "" [] 5
            (run [info "a" "s" "x" 1] (NewTracerWithSizes 1 1 1)) = Some t' ∧
        lookup2 (logs t') "b" "s" = Some [] ∧
        groupTS t' !! "b" = Some 5 ∧ lookup2 (spanTS t') "b" "s" = Some 5.
Proof.
  destruct (empty_message_keeps_bookkeeping plain_runtime (Trace "b" "s")
              "INFO" "b" "s" "" [] 5
              (run [info "a" "s" "x" 1] (NewTracerWithSizes 1 1 1)))
    as (t' & Ht' & _ & Hs & Hg & Hsp & _).
  - apply run_reachable, reachable_new.
  - reflexivity.
  - reflexivity.
  - reflexivity.
  - exists t'. split_and!; [exact Ht'|exact Hs|exact Hg|exact Hsp].
Defined.

(** ** The snapshot as an ordered document *)

(** Let [simpl] compute the concatenation of strings, and keep the encoded
    strings folded. *)
#[local] Arguments String.append !_ _ / : simpl nomatch.
#[local] Arguments json_Marshal_string : simpl never.
#[local] Arguments json_Marshal_strings : simpl never.

Lemma append_assoc (a b c : string) : (a +:+ b) +:+ c = a +:+ (b +:+ c).
Proof. induction a as [|x a IH]; simpl; [done|]. by rewrite IH. Qed.

Lemma append_nil_r (a : string) : a +:+ "" = a.
Proof. induction a as [|x a IH]; simpl; [done|]. by rewrite IH. Qed.

Ltac string_norm :=
  repeat (progress (rewrite ?append_assoc, ?append_nil_r; simpl)).

(** A snapshot with its keys in order: the groups, each with its spans,
    each with its formatted lines. *)
Definition document : Type := list (string * list (string * list string)).

(** The layout of the serialized form, key by key. *)
Definition render_span (sp : string * list string) : string :=
  json_Marshal_string sp.1 +:+ ":" +:+ json_Marshal_strings sp.2.

Definition render_group (g : string * list (string * list string)) : string :=
  json_Marshal_string g.1 +:+ ":{" +:+ join "," (render_span <$> g.2) +:+ "}".

Definition render (d : document) : string :=
  "{" +:+ join "," (render_group <$> d) +:+ "}".

(** The nested mapping with the contents of a document. *)
Definition document_map (d : document)
    : gmap string (gmap string (list string)) :=
  list_to_map ((λ g, (g.1, list_to_map g.2)) <$> d).

(** The keys and lines that [ToMap] works with. *)
Definition group_names (rt : GoRuntime) (groupFilter : string) (t : tracer)
    : list string :=
  sort_Slice rt (group_time t)
    (filter (λ group, passes groupFilter group = true) (range rt (logs t)).*1).

Definition span_names (rt : GoRuntime) (spanFilter : string) (t : tracer)
    (group : string) : list string :=
  sort_Slice rt (span_time t group)
    (filter (λ span, passes spanFilter span = true)
            (range rt (inner_map (logs t) group)).*1).

Definition lines (rt : GoRuntime) (timezone : string) (withExactTime : bool)
    (t : tracer) (group span : string) : list string :=
  (λ entry, FormattedMessage rt entry timezone [withExactTime])
    <$> sort_Slice rt time (default [] (inner_map (logs t) group !! span)).

Definition snapshot (rt : GoRuntime) (timezone : string)
    (withExactTime : bool) (groupFilter spanFilter : string) (t : tracer)
    : document :=
  (λ group,
     (group,
      (λ span, (span, lines rt timezone withExactTime t group span))
        <$> span_names rt spanFilter t group))
    <$> group_names rt groupFilter t.

(** The separator that a loop body writes before the element at index [i]
    of a slice that continues with [l]. *)
Definition between {A} (i : nat) (l : list A) : string :=
  match l with
  | [] => ""
  | _ => if (0 <? i)%nat then "," else ""
  end.

(** A loop that stores a value under each key and writes the elements
    separated by commas. *)
Lemma for_range_join {V} (body : nat → string → gmap string V * string →
                                 gmap string V * string)
    (val : string → V) (rend : string → string) :
  (∀ j x m buf,
     body j x (m, buf) =
     (<[x := val x]> m,
      (if (0 <? j)%nat then buf +:+ "," else buf) +:+ rend x)) →
  ∀ l i m buf,
    for_range body i l (m, buf) =
    (foldl (λ m x, <[x := val x]> m) m l,
     buf +:+ between i l +:+ join "," (rend <$> l)).
Proof.
  intros Hbody. induction l as [|x l IH]; intros i m buf; simpl.
  - by rewrite append_nil_r.
  - rewrite Hbody, IH. f_equal.
    destruct l as [|y l]; simpl.
    + destruct (0 <? i)%nat; simpl;
        by rewrite ?append_assoc, ?append_nil_r.
    + destruct (0 <? i)%nat; simpl; by rewrite ?append_assoc.
Qed.

Lemma foldl_insert_list_to_map {V} (val : string → V) (l : list string) :
  NoDup l →
  foldl (λ m x, <[x := val x]> m) (∅ : gmap string V) l =
  list_to_map ((λ x, (x, val x)) <$> l).
Proof.
  induction l as [|x l IH] using rev_ind; [done|]. intros Hnd.
  apply NoDup_app in Hnd as (Hl & Hx & _).
  rewrite foldl_app, fmap_app. simpl. rewrite list_to_map_snoc.
  - by rewrite IH.
  - rewrite <- list_fmap_compose. simpl. rewrite list_fmap_id.
    intros Hin. apply (Hx _ Hin). left.
Qed.

Lemma NoDup_span_names rt spanFilter t group :
  NoDup (span_names rt spanFilter t group).
Proof.
  unfold span_names. rewrite sort_Slice_perm.
  apply NoDup_filter, NoDup_range_keys.
Qed.

Lemma NoDup_group_names rt groupFilter t : NoDup (group_names rt groupFilter t).
Proof.
  unfold group_names. rewrite sort_Slice_perm.
  apply NoDup_filter, NoDup_range_keys.
Qed.

Lemma ToMap_span_body rt timezone withExactTime t group j span m buf :
  ToMap_span rt timezone withExactTime (inner_map (logs t) group) j span
             (m, buf) =
  (<[span := lines rt timezone withExactTime t group span]> m,
   (if (0 <? j)%nat then buf +:+ "," else buf)
   +:+ render_span (span, lines rt timezone withExactTime t group span)).
Proof.
  unfold ToMap_span, render_span, lines. simpl. f_equal.
  by string_norm.
Qed.

Lemma ToMap_group_body rt timezone withExactTime spanFilter t i group m buf :
  ToMap_group rt timezone withExactTime spanFilter t i group (m, buf) =
  (<[group := list_to_map
       ((λ span, (span, lines rt timezone withExactTime t group span))
          <$> span_names rt spanFilter t group)]> m,
   (if (0 <? i)%nat then buf +:+ "," else buf)
   +:+ render_group
         (group,
          (λ span, (span, lines rt timezone withExactTime t group span))
            <$> span_names rt spanFilter t group)).
Proof.
  unfold ToMap_group. fold (span_names rt spanFilter t group).
  rewrite (for_range_join _ (lines rt timezone withExactTime t group)
             (λ span, render_span
                        (span, lines rt timezone withExactTime t group span)))
    by (intros; apply ToMap_span_body).
  rewrite foldl_insert_list_to_map by apply NoDup_span_names.
  f_equal. unfold render_group. simpl.
  rewrite <- list_fmap_compose.
  assert (Hb : between 0 (span_names rt spanFilter t group) = "")
    by by destruct (span_names rt spanFilter t group).
  rewrite Hb. by string_norm.
Qed.

(** The two results of [ToMap] are the mapping and the layout of one
    document. *)
Lemma ToMap_snapshot rt timezone withExactTime groupFilter spanFilter t :
  ToMap rt timezone withExactTime groupFilter spanFilter t =
  (document_map (snapshot rt timezone withExactTime groupFilter spanFilter t),
   render (snapshot rt timezone withExactTime groupFilter spanFilter t)).
Proof.
  unfold ToMap. fold (group_names rt groupFilter t).
  rewrite (for_range_join _
             (λ group, list_to_map
                ((λ span, (span, lines rt timezone withExactTime t group span))
                   <$> span_names rt spanFilter t group))
             (λ group, render_group
                (group,
                 (λ span, (span, lines rt timezone withExactTime t group span))
                   <$> span_names rt spanFilter t group)))
    by (intros; apply ToMap_group_body).
  rewrite foldl_insert_list_to_map by apply NoDup_group_names.
  unfold document_map, render, snapshot.
  rewrite <- !list_fmap_compose. f_equal.
  assert (Hb : between 0 (group_names rt groupFilter t) = "")
    by by destruct (group_names rt groupFilter t).
  rewrite Hb. by string_norm.
Qed.

(** ** Reading the serialized form back *)

Definition dquote : ascii := "034"%char.

Definition hex_value (c : ascii) : option N :=
  let b := byte_val c in
  (if (48 <=? b) && (b <=? 57) then Some (b - 48)
   else if (97 <=? b) && (b <=? 102) then Some (b - 87)
   else if (65 <=? b) && (b <=? 70) then Some (b - 55)
   else None)%N.

Definition hex4 (h1 h2 h3 h4 : ascii) : option N :=
  a ← hex_value h1; b ← hex_value h2; c ← hex_value h3; d ← hex_value h4;
  Some (((a * 16 + b) * 16 + c) * 16 + d)%N.

(** The UTF-8 encoding of a code point below 65536. *)
Definition utf8_encode (cp : N) : string :=
  (if cp <? 128 then String (ascii_of_N cp) EmptyString
   else if cp <? 2048 then
     String (ascii_of_N (192 + cp / 64))
       (String (ascii_of_N (128 + cp mod 64)) EmptyString)
   else
     String (ascii_of_N (224 + cp / 4096))
       (String (ascii_of_N (128 + (cp / 64) mod 64))
          (String (ascii_of_N (128 + cp mod 64)) EmptyString)))%N.

(** The character that a backslash and [e] stand for. *)
Definition unescape (e : ascii) : option ascii :=
  let b := byte_val e in
  (if (b =? 34) || (b =? 92) || (b =? 47) then Some e
   else if b =? 98 then Some "008"%char
   else if b =? 102 then Some "012"%char
   else if b =? 110 then Some "010"%char
   else if b =? 114 then Some "013"%char
   else if b =? 116 then Some "009"%char
   else None)%N.

Definition prepend (pre : string) (r : option (string * string))
    : option (string * string) :=
  match r with
  | Some (d, rest) => Some (pre +:+ d, rest)
  | None => None
  end.

(** The contents of a JSON string up to its closing quote, decoded, and
    what follows the quote.  Escapes of surrogates, which the encoder does
    not write, are not read. *)
Fixpoint unquote_body (s : string) : option (string * string) :=
  match s with
  | EmptyString => None
  | String c rest =>
      if Ascii.eqb c dquote then Some (EmptyString, rest)
      else if Ascii.eqb c backslash then
        match rest with
        | String e rest1 =>
            if Ascii.eqb e "u" then
              match rest1 with
              | String h1 (String h2 (String h3 (String h4 rest2))) =>
                  match hex4 h1 h2 h3 h4 with
                  | Some cp =>
                      if ((55296 <=? cp) && (cp <=? 57343))%N then None
                      else prepend (utf8_encode cp) (unquote_body rest2)
                  | None => None
                  end
              | _ => None
              end
            else
              match unescape e with
              | Some d => prepend (String d EmptyString) (unquote_body rest1)
              | None => None
              end
        | EmptyString => None
        end
      else if (byte_val c <? 32)%N then None
      else prepend (String c EmptyString) (unquote_body rest)
  end.

Definition parse_string (s : string) : option (string * string) :=
  match s with
  | String c rest => if Ascii.eqb c dquote then unquote_body rest else None
  | EmptyString => None
  end.

(** One or more items separated by commas, up to the closing character. *)
Fixpoint parse_items {A} (item : string → option (A * string))
    (close : ascii) (fuel : nat) (s : string) : option (list A * string) :=
  match fuel with
  | O => None
  | S fuel' =>
      '(x, s1) ← item s;
      match s1 with
      | String c s2 =>
          if Ascii.eqb c "," then
            '(xs, s3) ← parse_items item close fuel' s2; Some (x :: xs, s3)
          else if Ascii.eqb c close then Some ([x], s2)
          else None
      | EmptyString => None
      end
  end.

(** An array or an object: the items between [opening] and [close]. *)
Definition parse_seq {A} (item : string → option (A * string))
    (opening close : ascii) (fuel : nat) (s : string)
    : option (list A * string) :=
  match s with
  | String o s1 =>
      if Ascii.eqb o opening then
        match s1 with
        | String c s2 =>
            if Ascii.eqb c close then Some ([], s2)
            else parse_items item close fuel s1
        | EmptyString => None
        end
      else None
  | EmptyString => None
  end.

(** A member of an object: a key, a colon and a value. *)
Definition parse_member {A} (value : string → option (A * string))
    (s : string) : option ((string * A) * string) :=
  '(k, s1) ← parse_string s;
  match s1 with
  | String c s2 =>
      if Ascii.eqb c ":" then '(v, s3) ← value s2; Some ((k, v), s3)
      else None
  | EmptyString => None
  end.

Definition parse_lines (fuel : nat) : string → option (list string * string) :=
  parse_seq parse_string "[" "]" fuel.

Definition parse_spans (fuel : nat)
    : string → option (list (string * list string) * string) :=
  parse_seq (parse_member (parse_lines fuel)) "{" "}" fuel.

Definition parse_groups (fuel : nat) : string → option (document * string) :=
  parse_seq (parse_member (parse_spans fuel)) "{" "}" fuel.

(** The document that a serialized snapshot holds, keys in their order. *)
Definition json_parse (s : string) : option document :=
  '(d, rest) ← parse_groups (String.length s) s;
  match rest with
  | EmptyString => Some d
  | _ => None
  end.

(** ** Strings that the encoding preserves *)

(** A string of bytes that are not ASCII. *)
Fixpoint high (s : string) : Prop :=
  match s with
  | EmptyString => True
  | String c s' => (byte_val c <? 128)%N = false ∧ high s'
  end.

(** Valid UTF-8: ASCII bytes, and multi-byte sequences of the width that
    their first byte announces, as [utf8.DecodeRuneInString] accepts them. *)
Inductive valid_utf8 : string → Prop :=
  | valid_utf8_nil : valid_utf8 EmptyString
  | valid_utf8_ascii c s :
      (byte_val c <? 128)%N = true → valid_utf8 s → valid_utf8 (String c s)
  | valid_utf8_multi c pre s :
      (byte_val c <? 128)%N = false →
      utf8_width (String c (pre +:+ s)) = Some (S (String.length pre)) →
      valid_utf8 s → valid_utf8 (String c (pre +:+ s)).

Lemma prepend_prepend a b r : prepend a (prepend b r) = prepend (a +:+ b) r.
Proof. destruct r as [[d rest]|]; simpl; [|done]. by rewrite append_assoc. Qed.

Lemma unquote_ascii c Z :
  (byte_val c <? 128)%N = true →
  unquote_body (escape_ascii c +:+ Z) =
  prepend (String c EmptyString) (unquote_body Z).
Proof.
  intros H.
  destruct c as [[] [] [] [] [] [] [] []];
    try (vm_compute in H; discriminate H); reflexivity.
Qed.

Lemma unquote_high c Z :
  (byte_val c <? 128)%N = false →
  unquote_body (String c Z) = prepend (String c EmptyString) (unquote_body Z).
Proof.
  intros H.
  destruct c as [[] [] [] [] [] [] [] []];
    try (vm_compute in H; discriminate H); reflexivity.
Qed.

Lemma unquote_high_string pre Z :
  high pre → unquote_body (pre +:+ Z) = prepend pre (unquote_body Z).
Proof.
  induction pre as [|c pre IH].
  - intros _. simpl. by destruct (unquote_body Z) as [[]|].
  - intros [Hc Hpre]. change (String c pre +:+ Z) with (String c (pre +:+ Z)).
    rewrite unquote_high by done. rewrite IH by done.
    by rewrite prepend_prepend.
Qed.

Lemma appendString_Copy_0 s : appendString (Copy 0) s = appendString Fresh s.
Proof. by destruct s. Qed.

Lemma appendString_Drop_0 s : appendString (Drop 0) s = appendString Fresh s.
Proof. by destruct s. Qed.

Lemma appendString_Copy pre s :
  appendString (Copy (String.length pre)) (pre +:+ s) =
  pre +:+ appendString Fresh s.
Proof.
  induction pre as [|c pre IH]; simpl; [apply appendString_Copy_0|].
  by rewrite IH.
Qed.

Lemma appendString_Drop pre s :
  appendString (Drop (String.length pre)) (pre +:+ s) = appendString Fresh s.
Proof.
  induction pre as [|c pre IH]; simpl; [apply appendString_Drop_0|done].
Qed.

Lemma utf8_first_shape b sz lo hi :
  utf8_first b = Some (sz, lo, hi) →
  (128 ≤ lo)%N ∧ (sz = 2 ∨ sz = 3 ∨ sz = 4)%nat.
Proof.
  unfold utf8_first.
  repeat match goal with
         | |- context [if ?c then _ else _] => destruct c
         end; intros [= <- <- <-] || done; split; (lia || auto).
Qed.

Lemma in_bytes_high lo hi c :
  (128 ≤ lo)%N → in_bytes lo hi c = true → (byte_val c <? 128)%N = false.
Proof.
  unfold in_bytes. rewrite andb_true_iff, !N.leb_le, N.ltb_ge. lia.
Qed.

Lemma continuation_high c :
  in_bytes 128 191 c = true → (byte_val c <? 128)%N = false.
Proof. by apply in_bytes_high. Qed.

(** The bytes that follow the first byte of an accepted multi-byte sequence
    are not ASCII. *)
Lemma utf8_width_high c pre s :
  utf8_width (String c (pre +:+ s)) = Some (S (String.length pre)) → high pre.
Proof.
  unfold utf8_width.
  destruct (utf8_first (byte_val c)) as [[[sz lo] hi]|] eqn:Hf; [|done].
  destruct (utf8_first_shape _ _ _ _ Hf) as [Hlo Hsz].
  destruct pre as [|c1 pre]; simpl.
  { destruct s as [|c1 s]; [done|]. destruct (in_bytes lo hi c1); [|done].
    destruct Hsz as [-> | [-> | ->]]; [done| |].
    - destruct s as [|c2 s]; [done|]. by destruct (in_bytes 128 191 c2).
    - destruct s as [|c2 s]; [done|]. destruct (in_bytes 128 191 c2); [|done].
      destruct s as [|c3 s]; [done|]. by destruct (in_bytes 128 191 c3). }
  destruct (in_bytes lo hi c1) eqn:H1; [|done].
  pose proof (in_bytes_high _ _ _ Hlo H1) as Hc1.
  destruct Hsz as [-> | [-> | ->]].
  - intros [= Hlen]. by destruct pre.
  - destruct pre as [|c2 pre]; simpl.
    { destruct s as [|c2 s]; [done|]. by destruct (in_bytes 128 191 c2). }
    destruct (in_bytes 128 191 c2) eqn:H2; [|done].
    intros [= Hlen]. destruct pre; [|done]. simpl.
    by pose proof (continuation_high _ H2).
  - destruct pre as [|c2 pre]; simpl.
    { destruct s as [|c2 s]; [done|]. destruct (in_bytes 128 191 c2); [|done].
      destruct s as [|c3 s]; [done|]. by destruct (in_bytes 128 191 c3). }
    destruct (in_bytes 128 191 c2) eqn:H2; [|done].
    destruct pre as [|c3 pre]; simpl.
    { destruct s as [|c3 s]; [done|]. by destruct (in_bytes 128 191 c3). }
    destruct (in_bytes 128 191 c3) eqn:H3; [|done].
    intros [= Hlen]. destruct pre; [|done]. simpl.
    pose proof (continuation_high _ H2). by pose proof (continuation_high _ H3).
Qed.

Lemma byte_val_inj c n : byte_val c = n → c = ascii_of_N n.
Proof. intros <-. unfold byte_val. by rewrite ascii_N_embedding. Qed.

(** The only sequences that the encoder writes as an escape: U+2028 and
    U+2029. *)
Lemma line_separator_shape s d :
  line_separator s = Some d →
  ∃ c2 s',
    s = String "226" (String "128" (String c2 s')) ∧
    ((c2 = "168"%char ∧ d = "8"%char) ∨ (c2 = "169"%char ∧ d = "9"%char)).
Proof.
  destruct s as [|c0 [|c1 [|c2 s']]]; try done. simpl.
  destruct (N.eqb_spec (byte_val c0) 226) as [H0|]; [|done].
  destruct (N.eqb_spec (byte_val c1) 128) as [H1|]; [|done]. simpl.
  apply byte_val_inj in H0 as ->. apply byte_val_inj in H1 as ->.
  destruct (N.eqb_spec (byte_val c2) 168) as [H2|].
  { intros [= <-]. apply byte_val_inj in H2 as ->.
    eexists _, s'. split; [done|]. by left. }
  destruct (N.eqb_spec (byte_val c2) 169) as [H3|]; [|done].
  intros [= <-]. apply byte_val_inj in H3 as ->.
  eexists _, s'. split; [done|]. by right.
Qed.

(** Decoding the encoding of valid UTF-8 gives the string back. *)
Lemma unquote_appendString s Z :
  valid_utf8 s →
  unquote_body (appendString Fresh s +:+ String dquote Z) = Some (s, Z).
Proof.
  induction 1 as [|c s Hc _ IH|c pre s Hc Hw _ IH].
  - reflexivity.
  - simpl appendString. rewrite Hc, append_assoc, unquote_ascii by done.
    by rewrite IH.
  - pose proof (utf8_width_high _ _ _ Hw) as Hpre.
    cbn [appendString]. rewrite Hc, Hw.
    destruct (line_separator (String c (pre +:+ s))) as [d|] eqn:Hsep.
    + apply line_separator_shape in Hsep as (c2 & s' & Heq & Hd).
      injection Heq as -> Heq.
      assert (pre = String "128" (String c2 EmptyString) ∧ s' = s) as [-> ->].
      { assert (String.length pre = 2%nat) as Hlen.
        { rewrite Heq in Hw.
          destruct Hd as [[-> _] | [-> _]]; simpl in Hw; by injection Hw. }
        destruct pre as [|p1 [|p2 [|p3 pre]]]; try done.
        simpl in Heq. by injection Heq as -> -> ->. }
      simpl Nat.sub.
      change 2%nat with (String.length (String "128" (String c2 EmptyString))).
      rewrite appendString_Drop.
      destruct Hd as [[-> ->] | [-> ->]]; simpl; by rewrite IH.
    + simpl Nat.sub. rewrite Nat.sub_0_r, appendString_Copy.
      replace (String c (pre +:+ appendString Fresh s) +:+ String dquote Z)
        with (String c pre +:+ (appendString Fresh s +:+ String dquote Z))
        by (simpl; by rewrite append_assoc).
      rewrite unquote_high_string by done.
      by rewrite IH.
Qed.

Lemma json_Marshal_string_quote s :
  json_Marshal_string s = String dquote (appendString Fresh s +:+ quote).
Proof. done. Qed.

Lemma parse_string_Marshal s r :
  valid_utf8 s → parse_string (json_Marshal_string s +:+ r) = Some (s, r).
Proof.
  intros Hs. rewrite json_Marshal_string_quote. simpl.
  unfold quote. rewrite append_assoc. simpl.
  by apply unquote_appendString.
Qed.

Lemma length_append (a b : string) :
  String.length (a +:+ b) = (String.length a + String.length b)%nat.
Proof. induction a as [|x a IH]; simpl; [done|]. by rewrite IH. Qed.

(** ** Reading arrays and objects back *)

Section sequences.
Context {A : Type} (item : string → option (A * string)) (rend : A → string).
Context (opening close : ascii).
Hypothesis close_not_comma : Ascii.eqb close "," = false.
Hypothesis close_not_quote : Ascii.eqb dquote close = false.

Lemma join_fmap_cons (x y : A) (l : list A) :
  join "," (rend <$> x :: y :: l) =
  rend x +:+ "," +:+ join "," (rend <$> y :: l).
Proof. done. Qed.

Lemma length_join_elem (l : list A) (x : A) :
  x ∈ l → (String.length (rend x) ≤ String.length (join "," (rend <$> l)))%nat.
Proof.
  induction l as [|y l IH]; [by intros ?%elem_of_nil|].
  intros [->|Hin]%elem_of_cons.
  - destruct l as [|z l]; [done|]. rewrite join_fmap_cons, length_append. lia.
  - destruct l as [|z l]; [by apply elem_of_nil in Hin|].
    rewrite join_fmap_cons, !length_append. specialize (IH Hin). lia.
Qed.

Lemma length_join_items (l : list A) :
  (∀ x, x ∈ l → ∃ r', rend x = String dquote r') →
  (length l ≤ String.length (join "," (rend <$> l)))%nat.
Proof.
  induction l as [|y l IH]; [simpl; lia|]. intros Hq.
  destruct (Hq y) as [r' Hy]; [left|].
  assert (IH' : (length l ≤ String.length (join "," (rend <$> l)))%nat).
  { apply IH. intros x Hx. apply Hq. by right. }
  destruct l as [|z l].
  - change (join "," (rend <$> [y])) with (rend y). rewrite Hy. simpl. lia.
  - rewrite join_fmap_cons, !length_append, Hy.
    change (length (y :: z :: l)) with (S (length (z :: l))).
    change (String.length (String dquote r')) with (S (String.length r')).
    lia.
Qed.

Lemma parse_items_join (l : list A) (fuel : nat) (rest : string) :
  l ≠ [] → (length l ≤ fuel)%nat →
  (∀ x, x ∈ l → ∀ r, item (rend x +:+ r) = Some (x, r)) →
  parse_items item close fuel (join "," (rend <$> l) +:+ String close rest)
  = Some (l, rest).
Proof.
  revert fuel. induction l as [|x l IH]; [done|]. intros fuel _ Hfuel Hitem.
  destruct fuel as [|fuel]; [simpl in Hfuel; lia|].
  destruct l as [|y l].
  - simpl. rewrite Hitem by left. simpl.
    by rewrite close_not_comma, Ascii.eqb_refl.
  - rewrite join_fmap_cons, !append_assoc. simpl parse_items.
    rewrite Hitem by left. simpl.
    rewrite IH; [done|done|simpl in *; lia|].
    intros z Hz. apply Hitem. by right.
Qed.

Lemma parse_seq_join (l : list A) (fuel : nat) (rest : string) :
  (length l ≤ fuel)%nat →
  (∀ x, x ∈ l → ∀ r, item (rend x +:+ r) = Some (x, r)) →
  (∀ x, x ∈ l → ∃ r', rend x = String dquote r') →
  parse_seq item opening close fuel
    (String opening (join "," (rend <$> l) +:+ String close rest))
  = Some (l, rest).
Proof.
  intros Hfuel Hitem Hq. unfold parse_seq. rewrite Ascii.eqb_refl.
  destruct l as [|x l].
  - simpl. by rewrite Ascii.eqb_refl.
  - rewrite <- (parse_items_join (x :: l) fuel rest) by done.
    assert (∃ r'', join "," (rend <$> x :: l) +:+ String close rest
                   = String dquote r'') as [r'' Hj].
    { destruct (Hq x) as [r' Hx]; [left|]. destruct l as [|y l].
      - change (join "," (rend <$> [x])) with (rend x). rewrite Hx.
        simpl. eauto.
      - rewrite join_fmap_cons, Hx. simpl. eauto. }
    rewrite Hj. by rewrite close_not_quote.
Qed.
End sequences.

(** ** Reading a snapshot back *)

Definition valid_span (sp : string * list string) : Prop :=
  valid_utf8 sp.1 ∧ Forall valid_utf8 sp.2.

Definition valid_group (g : string * list (string * list string)) : Prop :=
  valid_utf8 g.1 ∧ Forall valid_span g.2.

(** A document whose keys and lines are valid UTF-8. *)
Definition valid_document (d : document) : Prop := Forall valid_group d.

(** The object of the spans of one group. *)
Definition render_spans (sps : list (string * list string)) : string :=
  "{" +:+ join "," (render_span <$> sps) +:+ "}".

Lemma render_group_spans g :
  render_group g = json_Marshal_string g.1 +:+ ":" +:+ render_spans g.2.
Proof. done. Qed.

Lemma parse_member_render {A} (value : string → option (A * string))
    (rendv : A → string) k v r :
  valid_utf8 k → value (rendv v +:+ r) = Some (v, r) →
  parse_member value ((json_Marshal_string k +:+ ":" +:+ rendv v) +:+ r)
  = Some ((k, v), r).
Proof.
  intros Hk Hv. unfold parse_member. rewrite !append_assoc.
  rewrite parse_string_Marshal by done. simpl. by rewrite Hv.
Qed.

Lemma Marshal_starts_with_quote s :
  ∃ r', json_Marshal_string s = String dquote r'.
Proof. rewrite json_Marshal_string_quote. eauto. Qed.

Lemma render_span_starts_with_quote sp :
  ∃ r', render_span sp = String dquote r'.
Proof. unfold render_span. rewrite json_Marshal_string_quote. simpl. eauto. Qed.

Lemma render_group_starts_with_quote g :
  ∃ r', render_group g = String dquote r'.
Proof.
  unfold render_group. rewrite json_Marshal_string_quote. simpl. eauto.
Qed.

Lemma parse_lines_render ls fuel r :
  Forall valid_utf8 ls →
  (String.length (json_Marshal_strings ls) ≤ fuel)%nat →
  parse_lines fuel (json_Marshal_strings ls +:+ r) = Some (ls, r).
Proof.
  intros Hls Hfuel. unfold parse_lines, json_Marshal_strings in *.
  change (map json_Marshal_string ls) with (json_Marshal_string <$> ls) in *.
  rewrite !length_append in Hfuel. rewrite !append_assoc. simpl.
  apply (parse_seq_join parse_string json_Marshal_string "[" "]");
    try done.
  - pose proof (length_join_items json_Marshal_string ls
                  (λ x _, Marshal_starts_with_quote x)). lia.
  - intros x Hx r'. apply parse_string_Marshal.
    rewrite Forall_forall in Hls. by apply Hls.
  - intros x _. apply Marshal_starts_with_quote.
Qed.

Lemma parse_span_render sp fuel r :
  valid_span sp → (String.length (render_span sp) ≤ fuel)%nat →
  parse_member (parse_lines fuel) (render_span sp +:+ r) = Some (sp, r).
Proof.
  intros [Hk Hv] Hfuel. destruct sp as [k v]. unfold render_span in *.
  cbn [fst snd] in *. rewrite !length_append in Hfuel.
  apply parse_member_render; [done|].
  apply parse_lines_render; [done|lia].
Qed.

Lemma parse_spans_render sps fuel r :
  Forall valid_span sps → (String.length (render_spans sps) ≤ fuel)%nat →
  parse_spans fuel (render_spans sps +:+ r) = Some (sps, r).
Proof.
  intros Hsps Hfuel. unfold parse_spans, render_spans in *.
  rewrite !length_append in Hfuel. rewrite !append_assoc. simpl.
  assert (Hjoin : (String.length (join "," (render_span <$> sps)) ≤ fuel)%nat)
    by lia.
  apply (parse_seq_join (parse_member (parse_lines fuel)) render_span "{" "}");
    try done.
  - pose proof (length_join_items render_span sps
                  (λ x _, render_span_starts_with_quote x)). lia.
  - intros sp Hsp r'. apply parse_span_render.
    + rewrite Forall_forall in Hsps. by apply Hsps.
    + pose proof (length_join_elem render_span sps sp Hsp). lia.
  - intros sp _. apply render_span_starts_with_quote.
Qed.

Lemma parse_group_render g fuel r :
  valid_group g → (String.length (render_group g) ≤ fuel)%nat →
  parse_member (parse_spans fuel) (render_group g +:+ r) = Some (g, r).
Proof.
  intros [Hk Hv] Hfuel. destruct g as [k v].
  rewrite render_group_spans in *. cbn [fst snd] in *.
  rewrite !length_append in Hfuel.
  apply parse_member_render; [done|].
  apply parse_spans_render; [done|lia].
Qed.

Lemma parse_groups_render d fuel r :
  valid_document d → (String.length (render d) ≤ fuel)%nat →
  parse_groups fuel (render d +:+ r) = Some (d, r).
Proof.
  intros Hd Hfuel. unfold parse_groups, render in *.
  rewrite !length_append in Hfuel. rewrite !append_assoc. simpl.
  assert (Hjoin : (String.length (join "," (render_group <$> d)) ≤ fuel)%nat)
    by lia.
  apply (parse_seq_join (parse_member (parse_spans fuel)) render_group "{" "}");
    try done.
  - pose proof (length_join_items render_group d
                  (λ x _, render_group_starts_with_quote x)). lia.
  - intros g Hg r'. apply parse_group_render.
    + unfold valid_document in Hd. rewrite Forall_forall in Hd. by apply Hd.
    + pose proof (length_join_elem render_group d g Hg). lia.
  - intros g _. apply render_group_starts_with_quote.
Qed.

(** The layout of a document of valid UTF-8 reads back as the document. *)
Lemma json_parse_render d : valid_document d → json_parse (render d) = Some d.
Proof.
  intros Hd. unfold json_parse.
  rewrite <- (append_nil_r (render d)) at 2.
  by rewrite parse_groups_render.
Qed.

(** ** The order of the keys in the serialized form *)

(** C6. The serialized snapshot is laid out key by key: an opening brace,
    the groups separated by commas, a closing brace, each group as its
    encoded name, a colon and the object of its spans, each span as its
    encoded name, a colon and the array of its lines.  In that layout the
    group keys are the groups that pass the filter, by their last-written
    timestamp, most recent first, and within each group the span keys are
    its spans that pass the filter, by their last-written timestamp, most
    recent first.  When the names and lines are valid UTF-8, reading the
    buffer from its first byte on yields the keys in that order. *)
Theorem ToMap_keys_most_recent_first (rt : GoRuntime) (timezone : string)
    (withExactTime : bool) (groupFilter spanFilter : string) (t : tracer) :
  ∃ d : document,
    (ToMap rt timezone withExactTime groupFilter spanFilter t).2 = render d ∧
    d.*1 ≡ₚ filter (λ group, passes groupFilter group = true)
                   (map_to_list (logs t)).*1 ∧
    StronglySorted (later_first (group_time t)) d.*1 ∧
    Forall (λ g,
              g.2.*1 ≡ₚ filter (λ span, passes spanFilter span = true)
                               (map_to_list (inner_map (logs t) g.1)).*1 ∧
              StronglySorted (later_first (span_time t g.1)) g.2.*1) d ∧
    (valid_document d →
     json_parse (ToMap rt timezone withExactTime groupFilter spanFilter t).2
     = Some d).
Proof.
  exists (snapshot rt timezone withExactTime groupFilter spanFilter t).
  rewrite ToMap_snapshot. unfold snapshot.
  rewrite <- list_fmap_compose. simpl. rewrite list_fmap_id.
  split_and!.
  - done.
  - unfold group_names. rewrite sort_Slice_perm. by rewrite (range_perm rt).
  - apply sort_Slice_sorted.
  - apply Forall_fmap, Forall_forall. intros group _. simpl.
    rewrite <- list_fmap_compose. simpl. rewrite list_fmap_id. split.
    + unfold span_names. rewrite sort_Slice_perm. by rewrite (range_perm rt).
    + apply sort_Slice_sorted.
  - apply json_parse_render.
Qed.

(** ** The two results of a snapshot *)

Lemma document_map_lookup (d : document) group span ls :
  NoDup d.*1 → Forall (λ g, NoDup g.2.*1) d →
  lookup2 (document_map d) group span = Some ls ↔
  ∃ sps, (group, sps) ∈ d ∧ (span, ls) ∈ sps.
Proof.
  intros Hd Hsps. unfold lookup2, document_map.
  assert (Hkeys : ((λ g : string * list (string * list string),
                      (g.1, list_to_map g.2 : gmap string (list string)))
                     <$> d).*1 = d.*1).
  { rewrite <- list_fmap_compose. done. }
  split.
  - destruct (list_to_map _ !! group) as [gm|] eqn:Hgm; [|done]. simpl.
    intros Hls. apply elem_of_list_to_map in Hgm; [|by rewrite Hkeys].
    apply list_elem_of_fmap in Hgm as ([g sps] & [= -> ->] & Hin).
    exists sps. split; [done|]. simpl in Hls.
    apply elem_of_list_to_map; [|done].
    rewrite Forall_forall in Hsps. apply (Hsps _ Hin).
  - intros (sps & Hin & Hls).
    assert (Hgm : (list_to_map
                     ((λ g : string * list (string * list string),
                         (g.1, list_to_map g.2 : gmap string (list string)))
                        <$> d) : gmap string (gmap string (list string)))
                  !! group = Some (list_to_map sps)).
    { apply elem_of_list_to_map; [by rewrite Hkeys|].
      apply list_elem_of_fmap. by exists (group, sps). }
    rewrite Hgm. simpl. apply elem_of_list_to_map; [|done].
    rewrite Forall_forall in Hsps. apply (Hsps _ Hin).
Qed.

(** C5, as the code has it. When every group name, span name and
    formatted line of the snapshot is valid UTF-8, the two results of
    [ToMap] agree element for element: the serialized form reads back as
    one document, with the groups, the spans of each group and the lines
    of each span in their order, and the mapping holds exactly the groups,
    spans and sequences of lines of that document. *)
Theorem ToMap_results_agree_on_valid_utf8 (rt : GoRuntime) (timezone : string)
    (withExactTime : bool) (groupFilter spanFilter : string) (t : tracer) :
  valid_document
    (snapshot rt timezone withExactTime groupFilter spanFilter t) →
  ∃ m buf d,
    ToMap rt timezone withExactTime groupFilter spanFilter t = (m, buf) ∧
    json_parse buf = Some d ∧
    m = document_map d ∧
    NoDup d.*1 ∧ Forall (λ g, NoDup g.2.*1) d ∧
    ∀ group span ls,
      lookup2 m group span = Some ls ↔
      ∃ sps, (group, sps) ∈ d ∧ (span, ls) ∈ sps.
Proof.
  intros Hvalid. rewrite ToMap_snapshot.
  set (d := snapshot rt timezone withExactTime groupFilter spanFilter t) in *.
  assert (Hd : NoDup d.*1).
  { subst d. unfold snapshot. rewrite <- list_fmap_compose. simpl.
    rewrite list_fmap_id. apply NoDup_group_names. }
  assert (Hsps : Forall (λ g, NoDup g.2.*1) d).
  { subst d. unfold snapshot. apply Forall_fmap, Forall_forall.
    intros group _. simpl. rewrite <- list_fmap_compose. simpl.
    rewrite list_fmap_id. apply NoDup_span_names. }
  exists (document_map d), (render d), d. split_and!; try done.
  - by apply json_parse_render.
  - intros group span ls. by apply document_map_lookup.
Qed.

(** Strings of ASCII bytes are valid UTF-8. *)
Fixpoint is_ascii (s : string) : bool :=
  match s with
  | EmptyString => true
  | String c s' => (byte_val c <? 128)%N && is_ascii s'
  end.

Lemma is_ascii_valid s : is_ascii s = true → valid_utf8 s.
Proof.
  induction s as [|c s IH]; simpl; [constructor|].
  intros [Hc Hs]%andb_true_iff. constructor; auto.
Qed.

Definition ascii_document (d : document) : bool :=
  forallb (λ g, is_ascii g.1 &&
                forallb (λ sp, is_ascii sp.1 && forallb is_ascii sp.2) g.2) d.

Lemma ascii_document_valid d : ascii_document d = true → valid_document d.
Proof.
  unfold ascii_document, valid_document. rewrite forallb_forall.
  intros H. apply Forall_forall. intros g Hg%list_elem_of_In.
  apply H in Hg. apply andb_true_iff in Hg as [Hk Hsps]. split.
  { by apply is_ascii_valid. }
  rewrite forallb_forall in Hsps. apply Forall_forall.
  intros sp Hsp%list_elem_of_In. apply Hsps in Hsp.
  apply andb_true_iff in Hsp as [Hk' Hls]. split.
  { by apply is_ascii_valid. }
  rewrite forallb_forall in Hls. apply Forall_forall.
  intros x Hx%list_elem_of_In. by apply is_ascii_valid, Hls.
Qed.

(** Three groups written in turn, read back from the serialized form. *)
Definition three_groups : tracer :=
  run [info "g1" "s1" "a" 1; info "g2" "s1" "b" 2; info "g1" "s2" "c" 3;
       info "g3" "s1" "d" 4] NewTracer.

Lemma ToMap_results_agree_witness :
  (∃ m buf d,
     ToMap plain_runtime "UTC" true "g" "" three_groups = (m, buf) ∧
     json_parse buf = Some d ∧ m = document_map d) ∧
  json_parse (ToMap plain_runtime "UTC" true "g" "" three_groups).2 =
  Some [("g3", [("s1", ["4 - [INFO] d"])]);
        ("g1", [("s2", ["3 - [INFO] c"]); ("s1", ["1 - [INFO] a"])]);
        ("g2", [("s1", ["2 - [INFO] b"])])].
Proof.
  split.
  - destruct (ToMap_results_agree_on_valid_utf8 plain_runtime "UTC" true "g"
                "" three_groups)
      as (m & buf & d & Hto & Hparse & Hm & _).
    + apply ascii_document_valid. vm_compute. reflexivity.
    + exists m, buf, d. split_and!; [exact Hto|exact Hparse|exact Hm].
  - vm_compute. reflexivity.
Defined.

(** A text of 999 letters and one two-byte character: 1001 bytes of valid
    UTF-8. *)
Definition long_text : string :=
  join EmptyString (replicate 999 "a")
  +:+ String "195" (String "169" EmptyString).

Definition long_text_store : tracer :=
  run [info "g" "s" long_text 1] NewTracer.

Lemma valid_utf8_after_ascii a s :
  is_ascii a = true → valid_utf8 s → valid_utf8 (a +:+ s).
Proof.
  induction a as [|c a IH]; simpl; [done|].
  intros [Hc Ha]%andb_true_iff Hs. constructor; auto.
Qed.

Lemma long_text_valid : valid_utf8 long_text.
Proof.
  unfold long_text. apply valid_utf8_after_ascii; [by vm_compute|].
  apply (valid_utf8_multi "195" (String "169" EmptyString) EmptyString);
    [reflexivity|reflexivity|constructor].
Qed.

(** C5 fails on the code. The message [long_text], valid UTF-8, is cut
    after the first byte of its last character; the line in the mapping
    ends with that byte and has 1015 bytes, the line read back from the
    serialized form ends with the three bytes of U+FFFD and has 1017
    bytes. *)
Lemma ToMap_results_differ_after_truncation :
  valid_utf8 long_text ∧
  let r := ToMap plain_runtime "UTC" false "" "" long_text_store in
  (String.length long_text,
   String.length <$> default [] (lookup2 r.1 "g" "s"),
   (λ d, String.length <$> default [] (lookup2 (document_map d) "g" "s"))
     <$> json_parse r.2)
  = (1001%nat, [1015%nat], Some [1017%nat]).
Proof. split; [apply long_text_valid|]. vm_compute. reflexivity. Qed.

(** ** The scenarios of the specification *)

(** A message longer than 1000 bytes is stored cut to 1000 bytes. *)
Example long_message_is_cut :
  String.length ∘ message <$> slice_before long_text_store "g" "s"
  = [1000%nat].
Proof. vm_compute. reflexivity. Qed.

(** With capacities 2, 2 and 2: after "a", "b" and "c" under (g1, s1) and
    writes under g2 and g3, the store holds g2 and g3 only. *)
Example third_group_evicts_first :
  (λ t, (bool_decide (is_Some (logs t !! "g1")),
         bool_decide (is_Some (logs t !! "g2")),
         bool_decide (is_Some (logs t !! "g3")), len_map (logs t)))
    (run [info "g1" "s1" "a" 1; info "g1" "s1" "b" 2; info "g1" "s1" "c" 3;
          info "g2" "s1" "x" 4; info "g3" "s1" "x" 5]
         (NewTracerWithSizes 2 2 2))
  = (false, true, true, 2).
Proof. vm_compute. reflexivity. Qed.

(** A snapshot with the group filter "g1" of a store with the groups g1,
    g10 and g2 holds g1 and g10. *)
Example group_filter_is_a_prefix :
  (snapshot plain_runtime "UTC" true "g1" ""
     (run [info "g1" "s" "a" 1; info "g10" "s" "b" 2; info "g2" "s" "c" 3]
          NewTracer)).*1
  = ["g10"; "g1"].
Proof. vm_compute. reflexivity. Qed.

(** * Further properties of the store *)

(** ** Writes go through, and keep the timestamp maps in step *)

(** X1. No sequence of writes panics on a store that a program can reach
    and whose message capacity is one that [make] serves: the slice of a
    new span is made, the assignment into the span timestamps finds its
    group, and the slice that loses its first entry is not empty. *)
Theorem writes_never_panic (ws : list write) (t : tracer) :
  reachable t → makeslice_ok (numMessages t) = true →
  ∃ t', do_writes ws t = Some t' ∧ reachable t'.
Proof.
  intros Hr Hmk.
  destruct (do_writes_wf ws t (reachable_wf t Hr) Hmk) as (t' & Ht' & _).
  exists t'. split; [done|]. by eapply do_writes_reachable.
Qed.

Lemma writes_never_panic_witness :
  ∃ t', do_writes [info "g1" "s1" "a" 1; info "" "" "" 2; info "g2" "s1" "b" 3]
                  (NewTracerWithSizes 1 1 1) = Some t' ∧ reachable t'.
Proof.
  apply (writes_never_panic
           [info "g1" "s1" "a" 1; info "" "" "" 2; info "g2" "s1" "b" 3]
           (NewTracerWithSizes 1 1 1)).
  - apply reachable_new.
  - reflexivity.
Defined.

(** X2. In every store that a program can reach, a group has a bucket exactly
    when it has a group timestamp and a map of span timestamps, and a span
    has a slice exactly when it has a span timestamp. *)
Theorem timestamps_in_step (t : tracer) :
  reachable t →
  (∀ g, is_Some (logs t !! g) ↔ is_Some (groupTS t !! g)) ∧
  (∀ g, is_Some (logs t !! g) ↔ is_Some (spanTS t !! g)) ∧
  (∀ g s, is_Some (lookup2 (logs t) g s) ↔ is_Some (lookup2 (spanTS t) g s)).
Proof.
  intros Hwf%reachable_wf. split_and!.
  - intros g. by rewrite <- !elem_of_dom, (wf_groupTS _ Hwf).
  - intros g. by rewrite <- !elem_of_dom, (wf_spanTS _ Hwf).
  - intros g s. by rewrite !lookup2_inner, <- !elem_of_dom, (wf_spans _ Hwf).
Qed.

Lemma timestamps_in_step_witness :
  (∀ g, is_Some (logs three_groups !! g) ↔ is_Some (groupTS three_groups !! g)) ∧
  (∀ g, is_Some (logs three_groups !! g) ↔ is_Some (spanTS three_groups !! g)) ∧
  (∀ g s, is_Some (lookup2 (logs three_groups) g s) ↔
          is_Some (lookup2 (spanTS three_groups) g s)).
Proof.
  apply (timestamps_in_step three_groups).
  apply run_reachable, reachable_new.
Defined.

(** ** A write shows in the listings *)

Lemma elem_of_range_keys (rt : GoRuntime) {V} (m : gmap string V) k :
  k ∈ (range rt m).*1 ↔ is_Some (m !! k).
Proof.
  rewrite list_elem_of_fmap. split.
  - intros ([k' v] & -> & Hin). apply elem_of_range in Hin. by eexists.
  - intros [v Hv]. exists (k, v). split; [done|]. by apply elem_of_range.
Qed.

(** X3. After a write on an enabled store whose message capacity is one
    that [make] serves, whatever the message of the write, the group and
    the span of the logger are there: [ListGroups] holds the group once,
    [ListSpans] of the group holds the span once, and both timestamps are
    the time of the write. *)
Theorem written_names_are_listed (rt : GoRuntime) (w : write) (t : tracer) :
  reachable t → enabled t = true → makeslice_ok (numMessages t) = true →
  ∃ t', do_write w t = Some t' ∧
        l_group (w_logger w) ∈ ListGroups rt t' ∧
        l_span (w_logger w) ∈ ListSpans rt (l_group (w_logger w)) t' ∧
        NoDup (ListGroups rt t') ∧
        NoDup (ListSpans rt (l_group (w_logger w)) t') ∧
        groupTS t' !! l_group (w_logger w) = Some (w_time w) ∧
        lookup2 (spanTS t') (l_group (w_logger w)) (l_span (w_logger w))
        = Some (w_time w).
Proof.
  intros Hwf%reachable_wf Hen Hmk. rewrite do_write_log.
  set (group := l_group (w_logger w)). set (span := l_span (w_logger w)).
  assert (∃ t', log (w_rt w) (w_logger w) (level_of (w_severity w)) group span
                    (w_msgfmt w) (w_args w) (w_time w) t = Some t' ∧
                is_Some (lookup2 (logs t') group span) ∧
                groupTS t' !! group = Some (w_time w) ∧
                lookup2 (spanTS t') group span = Some (w_time w))
    as (t' & Hlog & Hsp & HgTS & HsTS).
  { destruct (log_enabled (w_rt w) (w_logger w) (level_of (w_severity w))
                group span (w_msgfmt w) (w_args w) (w_time w) t Hwf Hen
                (or_intror Hmk))
      as (t3 & _ & _ & Htd & [[_ Hl]|(_ & s' & lg & _ & _ & Hlg & _ & Hl)]).
    - exists t3. destruct Htd.
      split_and!; try done; rewrite ?touched_span0; eauto.
    - eexists. destruct Htd. split_and!; try done; simpl; try done;
        rewrite ?(lookup2_assign2 _ _ _ _ _ _ _ Hlg), ?decide_True by done;
        eauto. }
  exists t'. split_and!; try done.
  - apply elem_of_range_keys. unfold lookup2 in Hsp.
    destruct (logs t' !! group); [eauto|by destruct Hsp].
  - apply elem_of_range_keys. by rewrite <- lookup2_inner.
  - apply NoDup_range_keys.
  - apply NoDup_range_keys.
Qed.

Lemma written_names_are_listed_witness :
  ∃ t', do_write (info "g" "" "" 7) (NewTracerWithSizes 1 1 1) = Some t' ∧
        "g" ∈ ListGroups plain_runtime t' ∧
        "" ∈ ListSpans plain_runtime "g" t' ∧
        groupTS t' !! "g" = Some 7.
Proof.
  destruct (written_names_are_listed plain_runtime (info "g" "" "" 7)
              (NewTracerWithSizes 1 1 1))
    as (t' & Ht' & Hg & Hs & _ & _ & Hts & _).
  - apply reachable_new.
  - reflexivity.
  - reflexivity.
  - exists t'. split_and!; [exact Ht'|exact Hg|exact Hs|exact Hts].
Defined.

(** ** The cut of a long message *)

Lemma substring_0_length (n : nat) (s : string) :
  String.length (substring 0 n s) = Nat.min n (String.length s).
Proof.
  revert s. induction n as [|n IH]; intros [|c s]; simpl; try done.
  by rewrite IH.
Qed.

Lemma substring_0_prefix (n : nat) (s : string) :
  String.prefix (substring 0 n s) s = true.
Proof.
  revert s. induction n as [|n IH]; intros [|c s]; simpl; try done.
  destruct (ascii_dec c c); [apply IH|done].
Qed.

Lemma substring_0_all (n : nat) (s : string) :
  (String.length s ≤ n)%nat → substring 0 n s = s.
Proof.
  revert s. induction n as [|n IH]; intros [|c s]; simpl; try done; [lia|].
  intros H. rewrite IH; [done|lia].
Qed.

Lemma prefix_refl (s : string) : String.prefix s s = true.
Proof.
  induction s as [|c s IH]; simpl; [done|]. by destruct (ascii_dec c c).
Qed.

(** X4. The message that a write stores is the formatted message when it has
    at most 1000 bytes, and its first 1000 bytes otherwise: never longer
    than 1000 bytes, always a prefix of the formatted message, empty only
    when that one is empty. *)
Theorem truncate_keeps_first_1000_bytes (msg : string) :
  String.length (truncate msg) = Nat.min 1000 (String.length msg) ∧
  String.prefix (truncate msg) msg = true ∧
  ((String.length msg ≤ 1000)%nat → truncate msg = msg) ∧
  truncate (truncate msg) = truncate msg ∧
  (truncate msg = "" ↔ msg = "").
Proof.
  assert (Hlen : String.length (truncate msg)
                 = Nat.min maxMsgLen (String.length msg)).
  { unfold truncate, len_string.
    destruct (Z.ltb_spec (Z.of_nat maxMsgLen) (Z.of_nat (String.length msg))).
    - apply substring_0_length.
    - lia. }
  assert (Hsmall : ∀ s, (String.length s ≤ maxMsgLen)%nat → truncate s = s).
  { intros s Hs. unfold truncate, len_string.
    destruct (Z.ltb_spec (Z.of_nat maxMsgLen) (Z.of_nat (String.length s)));
      [lia|done]. }
  split_and!.
  - exact Hlen.
  - unfold truncate. destruct (_ <? _);
      [apply substring_0_prefix|apply prefix_refl].
  - apply Hsmall.
  - apply Hsmall. rewrite Hlen. lia.
  - split; [|by intros ->].
    intros Hempty. rewrite Hempty in Hlen. simpl in Hlen.
    destruct msg; [done|]. simpl String.length in Hlen.
    unfold maxMsgLen in Hlen. lia.
Qed.

(** ** Ties between the oldest keys *)

Lemma oldest_scan_keeps (kvs : list (string * Time)) (k : string) (ts : Time) :
  Forall (λ p, ts ≤ p.2) kvs → oldest_scan kvs k ts false = k.
Proof.
  induction 1 as [|[k' ts'] kvs Hle _ IH]; simpl; [done|].
  unfold Before. simpl in Hle. by destruct (Z.ltb_spec ts' ts); [lia|].
Qed.

Lemma oldest_scan_reaches (pre post : list (string * Time)) (k o : string)
    (ts ot : Time) :
  ts < ot → Forall (λ p, ts < p.2) pre → Forall (λ p, ts ≤ p.2) post →
  oldest_scan (pre ++ (k, ts) :: post) o ot false = k.
Proof.
  intros Hot Hpre Hpost. revert o ot Hot.
  induction Hpre as [|[k' ts'] pre Hlt _ IH]; intros o ot Hot; simpl.
  - unfold Before. destruct (Z.ltb_spec ts ot); [|lia].
    by apply oldest_scan_keeps.
  - simpl in Hlt. destruct (Before ts' ot); by apply IH.
Qed.

(** X5. Among the keys that hold the oldest timestamp, the scan selects the one
    that the iteration over the map meets first. *)
Theorem oldest_key_is_first_of_ties (rt : GoRuntime) (m : gmap string Time)
    (pre post : list (string * Time)) (k : string) (ts : Time) :
  range rt m = pre ++ (k, ts) :: post →
  Forall (λ p, ts < p.2) pre → Forall (λ p, ts ≤ p.2) post →
  oldest_key rt m = k.
Proof.
  intros Hrange Hpre Hpost. unfold oldest_key. rewrite Hrange.
  destruct Hpre as [|[k' ts'] pre Hlt Hpre]; simpl.
  - by apply oldest_scan_keeps.
  - by apply oldest_scan_reaches.
Qed.

Lemma oldest_key_is_first_of_ties_witness :
  oldest_key plain_runtime (<["a" := 5]> (<["b" := 5]> (<["c" := 9]> ∅))) = "a".
Proof.
  apply (oldest_key_is_first_of_ties plain_runtime _ [("c", 9)] [("b", 5)]
           "a" 5).
  - vm_compute. reflexivity.
  - repeat constructor; simpl; lia.
  - repeat constructor; simpl; lia.
Defined.

(** ** The inert store *)

Lemma sort_Slice_nil (rt : GoRuntime) {A} (key : A → Time) :
  sort_Slice rt key [] = [].
Proof. apply Permutation_nil_r. apply sort_Slice_perm. Qed.

Lemma range_empty (rt : GoRuntime) {V} : range rt (∅ : gmap string V) = [].
Proof. by apply range_nil. Qed.

(** X6. [Noop] stays as it is under every sequence of writes, and all its
    reads are empty: no group, no span, no log, and the snapshot of an
    empty mapping with the serialized form of an empty object. *)
Theorem Noop_is_inert (ws : list write) (rt : GoRuntime)
    (group timezone groupFilter spanFilter : string) (withExactTime : bool) :
  do_writes ws Noop = Some Noop ∧
  IsEnabled Noop = false ∧
  ListGroups rt Noop = [] ∧
  ListSpans rt group Noop = [] ∧
  Logs rt group Noop = [] ∧
  ToMap rt timezone withExactTime groupFilter spanFilter Noop = (∅, "{}").
Proof.
  split_and!; try done.
  - by apply do_writes_disabled.
  - unfold ListGroups. simpl. by rewrite range_empty.
  - unfold ListSpans, inner_map. simpl. rewrite lookup_empty. simpl.
    by rewrite range_empty.
  - unfold ToMap. simpl. rewrite range_empty. simpl.
    rewrite filter_nil, sort_Slice_nil. done.
Qed.

(** ** What a write leaves alone *)

Lemma log_others rt l lvl group span msgfmt v timeNow t t' g s es :
  wf t → log rt l lvl group span msgfmt v timeNow t = Some t' →
  lookup2 (logs t') g s = Some es →
  (g = group ∧ s = span) ∨ lookup2 (logs t) g s = Some es.
Proof.
  intros Hwf Hlog Hes. destruct (enabled t) eqn:Hen.
  - pose proof (log_Some _ _ _ _ _ _ _ _ _ _ Hen Hlog) as Hcan.
    destruct (log_enabled rt l lvl group span msgfmt v timeNow t Hwf Hen Hcan)
      as (t3 & _ & _ & Htd & [[_ Hl]|(_ & s' & lg & _ & _ & Hlg & _ & Hl)]);
      rewrite Hl in Hlog; injection Hlog as <-.
    + by apply (touched_others _ _ _ _ _ Htd).
    + simpl in Hes. rewrite (lookup2_assign2 _ _ _ _ _ _ _ Hlg) in Hes.
      destruct (decide (group = g ∧ span = s)) as [[-> ->]|]; [by left|].
      by apply (touched_others _ _ _ _ _ Htd).
  - unfold log, IsEnabled in Hlog. rewrite Hen in Hlog. simpl in Hlog.
    injection Hlog as <-. by right.
Qed.

(** X7. A write changes no slice but the one of the logger's group and span:
    every other slice is, after the write, as it was or gone, and none
    appears. *)
Theorem write_changes_one_slice (w : write) (t t' : tracer) (g s : string) :
  reachable t → do_write w t = Some t' →
  (g, s) ≠ (l_group (w_logger w), l_span (w_logger w)) →
  lookup2 (logs t') g s = None ∨
  lookup2 (logs t') g s = lookup2 (logs t) g s.
Proof.
  intros Hwf%reachable_wf Hw Hne. rewrite do_write_log in Hw.
  destruct (lookup2 (logs t') g s) as [es|] eqn:Hes; [right|by left].
  destruct (log_others _ _ _ _ _ _ _ _ _ _ _ _ _ Hwf Hw Hes)
    as [[-> ->] | ->]; done.
Qed.

Lemma write_changes_one_slice_witness :
  ∃ t', do_write (info "g2" "s1" "x" 9) three_groups = Some t' ∧
        (lookup2 (logs t') "g1" "s2" = None ∨
         lookup2 (logs t') "g1" "s2" = lookup2 (logs three_groups) "g1" "s2").
Proof.
  assert (Hr : reachable three_groups) by apply run_reachable, reachable_new.
  destruct (do_write_wf (info "g2" "s1" "x" 9) three_groups
              (reachable_wf _ Hr)) as (t' & Ht' & _).
  { right. reflexivity. }
  exists t'. split; [exact Ht'|].
  apply (write_changes_one_slice (info "g2" "s1" "x" 9) three_groups t'
           "g1" "s2").
  - exact Hr.
  - exact Ht'.
  - discriminate.
Defined.

(** X8. A write to a span that is there removes no group and no span, at
    capacity or not: the groups and the spans of every group are those of
    before, and every slice but the written one is as it was. *)
Theorem write_to_known_span_removes_nothing (w : write) (t : tracer) :
  reachable t → enabled t = true →
  is_Some (lookup2 (logs t) (l_group (w_logger w)) (l_span (w_logger w))) →
  ∃ t', do_write w t = Some t' ∧
        dom (logs t') = dom (logs t) ∧
        (∀ g, dom (inner_map (logs t') g) = dom (inner_map (logs t) g)) ∧
        (∀ g s, (g, s) ≠ (l_group (w_logger w), l_span (w_logger w)) →
                lookup2 (logs t') g s = lookup2 (logs t) g s).
Proof.
  intros Hwf%reachable_wf Hen Hthere. rewrite do_write_log.
  set (group := l_group (w_logger w)) in *.
  set (span := l_span (w_logger w)) in *.
  destruct (log_wf (w_rt w) (w_logger w) (level_of (w_severity w)) group span
              (w_msgfmt w) (w_args w) (w_time w) t Hwf (or_introl Hthere))
    as (t' & Hlog & _).
  exists t'. split; [done|].
  destruct (log_groups _ _ _ _ _ _ _ _ _ _ Hlog Hen) as (Hdom & Hout & _).
  pose proof (log_spans _ _ _ _ _ _ _ _ _ _ Hlog Hen) as [Hsdom Hsout].
  pose proof (ensure_group_maps (w_rt w) group t) as Hmaps.
  simpl in Hsdom, Hsout, Hmaps.
  assert (is_Some (logs t !! group)) as [spans Hgr].
  { unfold lookup2 in Hthere. destruct (logs t !! group); [eauto|].
    by destruct Hthere. }
  rewrite Hgr in Hmaps. rewrite Hmaps in Hsdom, Hsout.
  assert (Hgv : group_victim (w_rt w) group t = None).
  { unfold group_victim. by rewrite Hgr. }
  assert (Hsv : span_victim (w_rt w) group span
                  (set_groupTS <[group := w_time w]> t) = None).
  { unfold span_victim. simpl. destruct Hthere as [es ->]. done. }
  rewrite Hgv in Hdom, Hout. rewrite Hsv in Hsdom, Hsout.
  simpl in Hdom, Hout, Hsdom, Hsout.
  split_and!.
  - rewrite Hdom. apply subseteq_union_1_L, singleton_subseteq_l.
    by eapply elem_of_dom_2.
  - intros g. destruct (decide (g = group)) as [->|Hne].
    + rewrite Hsdom. apply subseteq_union_1_L, singleton_subseteq_l.
      apply elem_of_dom. by rewrite <- lookup2_inner.
    + unfold inner_map. by destruct (Hout _ Hne) as [-> _].
  - intros g s Hne. destruct (decide (g = group)) as [->|Hg].
    + rewrite Hsout by congruence. by rewrite lookup2_inner.
    + unfold lookup2. by destruct (Hout _ Hg) as [-> _].
Qed.

Lemma write_to_known_span_removes_nothing_witness :
  ∃ t', do_write (info "" "" "again" 9) empty_names = Some t' ∧
        dom (logs t') = dom (logs empty_names).
Proof.
  destruct (write_to_known_span_removes_nothing (info "" "" "again" 9)
              empty_names) as (t' & Ht' & Hdom & _).
  - apply empty_names_reachable.
  - reflexivity.
  - by eexists.
  - exists t'. split; [exact Ht'|exact Hdom].
Defined.

(** ** Span capacity *)

(** X9. A new span in a group at span capacity, when the span selected as the
    oldest has a non-empty name: that span goes, with its slice and its
    timestamp, the other spans of the group keep their slices, the groups
    stay, and the group has as many spans as before. *)
Theorem new_span_evicts_oldest (rt : GoRuntime) (l : logger)
    (lvl group span msgfmt : string) (v : list any) (timeNow : Time)
    (t : tracer) :
  reachable t → enabled t = true →
  is_Some (logs t !! group) → lookup2 (logs t) group span = None →
  at_span_capacity t group = true →
  oldest_key rt (inner_map (spanTS t) group) ≠ "" →
  ∃ t' ts,
    log rt l lvl group span msgfmt v timeNow t = Some t' ∧
    lookup2 (spanTS t) group (oldest_key rt (inner_map (spanTS t) group))
    = Some ts ∧
    (∀ sp ts', lookup2 (spanTS t) group sp = Some ts' → ts ≤ ts') ∧
    dom (inner_map (logs t') group) =
      {[span]} ∪ (dom (inner_map (logs t) group)
                  ∖ {[oldest_key rt (inner_map (spanTS t) group)]}) ∧
    lookup2 (logs t') group (oldest_key rt (inner_map (spanTS t) group))
    = None ∧
    lookup2 (spanTS t') group (oldest_key rt (inner_map (spanTS t) group))
    = None ∧
    (∀ sp, sp ≠ span → sp ≠ oldest_key rt (inner_map (spanTS t) group) →
           lookup2 (logs t') group sp = lookup2 (logs t) group sp) ∧
    dom (logs t') = dom (logs t) ∧
    len_map (inner_map (logs t') group) = len_map (inner_map (logs t) group).
Proof.
  intros Hr Hen [spans Hgr] Hnew Hcap Hold.
  pose proof (reachable_wf t Hr) as Hwf.
  assert (Hcan : span_can_be_made t group span).
  { apply reachable_can_be_made; [done|].
    apply (group_there_nonempty t group). by eexists. }
  destruct (log_wf rt l lvl group span msgfmt v timeNow t Hwf Hcan)
    as (t' & Hlog & Hwf').
  destruct (log_groups _ _ _ _ _ _ _ _ _ _ Hlog Hen) as (Hdom & _ & _).
  pose proof (log_spans _ _ _ _ _ _ _ _ _ _ Hlog Hen) as [Hsdom Hsout].
  pose proof (ensure_group_maps rt group t) as Hmaps.
  simpl in Hsdom, Hsout, Hmaps.
  rewrite Hgr in Hmaps. rewrite Hmaps in Hsdom, Hsout.
  set (old := oldest_key rt (inner_map (spanTS t) group)) in *.
  assert (Hgv : group_victim rt group t = None).
  { unfold group_victim. by rewrite Hgr. }
  assert (Hsv : span_victim rt group span
                  (set_groupTS <[group := timeNow]> t) = Some old).
  { unfold span_victim. simpl. rewrite Hnew.
    change (at_span_capacity (set_groupTS _ t) group)
      with (at_span_capacity t group).
    rewrite Hcap. fold old. by destruct (String.eqb_spec old ""). }
  rewrite Hgv in Hdom. rewrite Hsv in Hsdom, Hsout.
  simpl in Hdom, Hsdom, Hsout.
  assert (Hfull : numSpans t ≤ len_map (inner_map (spanTS t) group)).
  { unfold at_span_capacity in Hcap. apply andb_true_iff in Hcap as [Hc _].
    by apply Z.leb_le in Hc. }
  destruct (oldest_key_min rt (inner_map (spanTS t) group))
    as (ts & Hts & Hmin).
  { intros Hempty. pose proof (wf_numSpans _ Hwf). rewrite Hempty in Hfull.
    unfold len_map in Hfull. rewrite map_size_empty in Hfull. lia. }
  fold old in Hts.
  assert (Hin : is_Some (inner_map (logs t) group !! old)).
  { apply elem_of_dom. rewrite <- (wf_spans _ Hwf). by eapply elem_of_dom_2. }
  assert (Hne : old ≠ span).
  { intros Heq. rewrite Heq, <- lookup2_inner, Hnew in Hin. by destruct Hin. }
  assert (Hgone : lookup2 (logs t') group old = None).
  { rewrite Hsout by done. apply lookup_delete_eq. }
  exists t', ts. split_and!; try done.
  - by rewrite lookup2_inner.
  - intros sp ts'. rewrite lookup2_inner. apply Hmin.
  - by rewrite Hsdom, dom_delete_L.
  - rewrite lookup2_inner. apply not_elem_of_dom.
    rewrite (wf_spans _ Hwf'). apply not_elem_of_dom.
    by rewrite <- lookup2_inner.
  - intros sp Hsp1 Hsp2. rewrite Hsout by done.
    by rewrite lookup_delete_ne, lookup2_inner.
  - rewrite Hdom. apply subseteq_union_1_L, singleton_subseteq_l.
    by eapply elem_of_dom_2.
  - assert (Hdel : len_map (inner_map (logs t) group)
                   = len_map (delete old (inner_map (logs t) group)) + 1).
    { destruct Hin as [x Hx]. unfold len_map.
      rewrite <- (insert_delete_id (inner_map (logs t) group) old x Hx) at 1.
      rewrite map_size_insert_None by apply lookup_delete_eq. lia. }
    rewrite Hdel. apply (len_map_grown _ _ span); [done|].
    rewrite lookup_delete_ne by done. by rewrite <- lookup2_inner.
Qed.

(** A group of one span at most: the span "a" gives way to the span "b". *)
Lemma new_span_evicts_oldest_witness :
  ∃ t', log plain_runtime (Trace "g" "b") "INFO" "g" "b" "y" [] 2
            (run [info "g" "a" "x" 1] (NewTracerWithSizes 1 1 1)) = Some t' ∧
        lookup2 (logs t') "g" "a" = None ∧
        lookup2 (spanTS t') "g" "a" = None.
Proof.
  destruct (new_span_evicts_oldest plain_runtime (Trace "g" "b") "INFO" "g"
              "b" "y" [] 2
              (run [info "g" "a" "x" 1] (NewTracerWithSizes 1 1 1)))
    as (t' & ts & Ht' & _ & _ & _ & Hlogs & Hts & _).
  - apply run_reachable, reachable_new.
  - reflexivity.
  - by eexists.
  - reflexivity.
  - reflexivity.
  - discriminate.
  - exists t'. split_and!; [exact Ht'|exact Hlogs|exact Hts].
Defined.

(** A store of one group at most: the group "a" gives way to the group
    "b". *)
Lemma new_group_evicts_oldest_witness :
  ∃ t', log plain_runtime (Trace "b" "s") "INFO" "b" "s" "y" [] 2
            (run [info "a" "s" "x" 1] (NewTracerWithSizes 1 1 1)) = Some t' ∧
        logs t' !! "a" = None ∧ groupTS t' !! "a" = None ∧
        spanTS t' !! "a" = None.
Proof.
  destruct (new_group_evicts_oldest plain_runtime (Trace "b" "s") "INFO" "b"
              "s" "y" [] 2
              (run [info "a" "s" "x" 1] (NewTracerWithSizes 1 1 1)))
    as (t' & ts & Ht' & _ & _ & _ & Hlogs & HgTS & HsTS & _).
  - apply run_reachable, reachable_new.
  - reflexivity.
  - reflexivity.
  - reflexivity.
  - discriminate.
  - exists t'. split_and!; [exact Ht'|exact Hlogs|exact HgTS|exact HsTS].
Defined.

(** ** Duplicates *)

(** X11. A write of a (message, level) pair that its span holds adds no entry and
    removes none, whether the span is full or not: the entry of the pair
    keeps its place in the slice, takes the time of the write and counts one
    more (modulo 2^32), and the entries before and after it are as they
    were. *)
Theorem duplicate_write_counts_in_place (w : write) (t : tracer)
    (pre : list logEntry) (e : logEntry) (post : list logEntry) :
  reachable t → enabled t = true → formatted w ≠ "" →
  slice_before t (l_group (w_logger w)) (l_span (w_logger w))
  = pre ++ e :: post →
  entry_key e = write_key w →
  ∃ t', do_write w t = Some t' ∧
        slice_before t' (l_group (w_logger w)) (l_span (w_logger w))
        = pre ++ LogEntry (group e) (span e) (message e) (level e) (w_time w)
                          ((count e + 1) mod 4294967296) :: post.
Proof.
  intros Hwf%reachable_wf Hen Hne Hs He.
  destruct (do_write_dup w t pre e post Hwf Hen Hne Hs He) as (t' & Ht' & Hst).
  exists t'. split; [done|]. by apply slice_before_stored in Hst.
Qed.

(** A full span of two messages: the older one is written again. *)
Lemma duplicate_write_counts_in_place_witness :
  ∃ t', do_write (info "g" "s" "a" 3)
          (run [info "g" "s" "a" 1; info "g" "s" "b" 2]
               (NewTracerWithSizes 2 2 2)) = Some t' ∧
        slice_before t' "g" "s"
        = [LogEntry "g" "s" "a" "INFO" 3 2; LogEntry "g" "s" "b" "INFO" 2 1].
Proof.
  destruct (duplicate_write_counts_in_place (info "g" "s" "a" 3)
              (run [info "g" "s" "a" 1; info "g" "s" "b" 2]
                   (NewTracerWithSizes 2 2 2))
              [] (LogEntry "g" "s" "a" "INFO" 1 1)
              [LogEntry "g" "s" "b" "INFO" 2 1])
    as (t' & Ht' & Hs').
  - apply run_reachable, reachable_new.
  - reflexivity.
  - discriminate.
  - reflexivity.
  - reflexivity.
  - exists t'. split; [exact Ht'|exact Hs'].
Defined.

(** X12. The count of an entry is a 32-bit counter that wraps: on a store
    whose message capacity is one that [make] serves, after [N] writes of
    one non-empty (message, level) pair to a span that did not hold it, for
    any [N] at least 1, the one entry of the pair counts [N] modulo 2^32
    (so 0 after 2^32 writes). *)
Theorem repeated_write_count_wraps (l : logger) (k : string * string)
    (w : write) (ws : list write) (t : tracer) :
  reachable t → enabled t = true → makeslice_ok (numMessages t) = true →
  Forall (λ w, w_logger w = l ∧ formatted w ≠ "" ∧ write_key w = k)
         (w :: ws) →
  k ∉ (entry_key <$> slice_before t (l_group l) (l_span l)) →
  ∃ t', do_writes (w :: ws) t = Some t' ∧
        filter (λ e, entry_key e = k) (slice_before t' (l_group l) (l_span l))
        = [LogEntry (l_group l) (l_span l) k.1 k.2
                    (w_time (default w (last ws)))
                    (len_slice (w :: ws) mod 4294967296)].
Proof.
  intros Hwf%reachable_wf Hen Hmk Hall Hfresh.
  destruct (repeated_write_count_mod l k w ws t Hwf Hen (or_intror Hmk) Hall
              Hfresh)
    as (t' & Ht' & _ & Hs').
  by exists t'.
Qed.

Lemma repeated_write_count_wraps_witness :
  ∃ t', do_writes [info "g" "s" "x" 1; info "g" "s" "x" 2; info "g" "s" "x" 3]
                  NewTracer = Some t' ∧
        filter (λ e, entry_key e = ("x", "INFO")) (slice_before t' "g" "s")
        = [LogEntry "g" "s" "x" "INFO" 3 3].
Proof.
  destruct (repeated_write_count_wraps (Trace "g" "s") ("x", "INFO")
              (info "g" "s" "x" 1) [info "g" "s" "x" 2; info "g" "s" "x" 3]
              NewTracer)
    as (t' & Ht' & Hs').
  - apply reachable_new.
  - reflexivity.
  - reflexivity.
  - repeat constructor; discriminate.
  - apply not_elem_of_nil.
  - exists t'. split; [exact Ht'|exact Hs'].
Defined.

(** ** The entries of the store *)

(** What every entry stored under the group [g] and the span [s] has: the
    names of its group and span, a message of 1 to 1000 bytes, one of the
    three levels, and a count in the range of [uint32]. *)
Definition entry_ok (g s : string) (e : logEntry) : Prop :=
  group e = g ∧ span e = s ∧
  1 ≤ len_string (message e) ≤ 1000 ∧
  level e ∈ ["INFO"; "WARN"; "ERROR"] ∧
  0 ≤ count e < 4294967296.

Definition entries_ok (t : tracer) : Prop :=
  ∀ g s es, lookup2 (logs t) g s = Some es → Forall (entry_ok g s) es.

Lemma entry_ok_bump g s timeNow e : entry_ok g s e → entry_ok g s (bump timeNow e).
Proof.
  intros (? & ? & ? & ? & ?). do 4 (split; [done|]). simpl.
  unfold uint32_incr, uint32_max. by apply Z.mod_pos_bound.
Qed.

Lemma dedup_scan_Forall (P : logEntry → Prop) s msg lvl timeNow :
  (∀ e, P e → P (bump timeNow e)) → Forall P s →
  Forall P (dedup_scan s msg lvl timeNow).1.
Proof.
  intros Hbump. induction 1 as [|e s He Hs IH]; simpl; [done|].
  destruct (_ && _).
  - simpl. constructor; [by apply (Hbump e)|done].
  - destruct (dedup_scan s msg lvl timeNow) as [r found]. simpl in *.
    by constructor.
Qed.

Lemma store_entry_Forall (P : logEntry → Prop) l lvl msg timeNow n s s' :
  (∀ e, P e → P (bump timeNow e)) →
  P (LogEntry (l_group l) (l_span l) msg lvl timeNow 1) →
  Forall P s → store_entry l lvl msg timeNow n s = Some s' → Forall P s'.
Proof.
  intros Hbump Hnew Hs. unfold store_entry.
  pose proof (dedup_scan_Forall P s msg lvl timeNow Hbump Hs) as Hscan.
  destruct (dedup_scan s msg lvl timeNow) as [r [|]]; simpl in Hscan.
  { by intros [= <-]. }
  destruct (_ <? _).
  { intros [= <-]. apply Forall_app. by split; [|repeat constructor]. }
  destruct (0 <? n); [|by intros [= <-]].
  destruct Hs as [|e s He Hs]; [done|]. intros [= <-].
  apply Forall_app. by split; [|repeat constructor].
Qed.

Lemma truncate_length msg : len_string (truncate msg) ≤ 1000.
Proof.
  unfold truncate, len_string, maxMsgLen.
  destruct (Z.ltb_spec (Z.of_nat 1000) (Z.of_nat (String.length msg))); [|lia].
  rewrite substring_0_length. lia.
Qed.

Lemma truncate_nonempty msg : msg ≠ "" → 1 ≤ len_string (truncate msg).
Proof.
  intros Hne. unfold truncate, len_string, maxMsgLen.
  assert (String.length msg ≠ 0%nat) by (by destruct msg).
  destruct (Z.ltb_spec (Z.of_nat 1000) (Z.of_nat (String.length msg))); [|lia].
  rewrite substring_0_length. lia.
Qed.

Lemma do_write_entries_ok w t t' :
  wf t → entries_ok t → do_write w t = Some t' → entries_ok t'.
Proof.
  intros Hwf Hok Hw g s es Hes. pose proof Hw as Hlog.
  rewrite do_write_log in Hlog.
  destruct (log_others _ _ _ _ _ _ _ _ _ _ _ _ _ Hwf Hlog Hes)
    as [[-> ->]|Hold]; [|by eapply Hok].
  destruct (enabled t) eqn:Hen.
  2:{ rewrite do_write_disabled in Hw by done. injection Hw as <-.
      by eapply Hok. }
  assert (Hbefore : Forall (entry_ok (l_group (w_logger w))
                              (l_span (w_logger w)))
                      (slice_before t (l_group (w_logger w))
                                    (l_span (w_logger w)))).
  { unfold slice_before.
    destruct (lookup2 (logs t) _ _) eqn:Hb; simpl; [by eapply Hok|done]. }
  pose proof (log_Some _ _ _ _ _ _ _ _ _ _ Hen Hlog) as Hcan.
  destruct (decide (formatted w = "")) as [Hempty|Hne].
  - destruct (log_enabled (w_rt w) (w_logger w) (level_of (w_severity w))
                (l_group (w_logger w)) (l_span (w_logger w)) (w_msgfmt w)
                (w_args w) (w_time w) t Hwf Hen Hcan)
      as (t3 & _ & _ & Htouched & [[_ Ht3]|[Hne _]]); [|done].
    rewrite Ht3 in Hlog. injection Hlog as <-.
    rewrite (touched_span _ _ _ _ _ Htouched) in Hes. by injection Hes as <-.
  - destruct (log_stores (w_rt w) (w_logger w) (level_of (w_severity w))
                (l_group (w_logger w)) (l_span (w_logger w)) (w_msgfmt w)
                (w_args w) (w_time w) t Hwf Hen Hcan Hne)
      as (t'' & s' & Ht'' & Hs' & Hst).
    rewrite Ht'' in Hlog. injection Hlog as ->.
    rewrite (stored_span _ _ _ _ _ _ Hst) in Hes. injection Hes as ->.
    eapply store_entry_Forall; [| |exact Hbefore|exact Hs'].
    + intros e. apply entry_ok_bump.
    + do 2 (split; [done|]). simpl. split; [|split; [|lia]].
      * split; [by apply truncate_nonempty|apply truncate_length].
      * destruct (w_severity w); simpl; repeat constructor.
Qed.

Lemma reachable_entries_ok t : reachable t → entries_ok t.
Proof.
  induction 1 as [g s m|w t t' Hr IH Hw|t Hr IH|t Hr IH]; try done.
  eapply do_write_entries_ok; [by apply reachable_wf|done|done].
Qed.

(** X13. Every entry of a store that the interface builds carries the names of
    the group and the span it is stored under, a message of 1 to 1000
    bytes, one of the levels INFO, WARN and ERROR, and a count from 0 to
    2^32 - 1. *)
Theorem stored_entries_are_well_formed (t : tracer) (g s : string)
    (es : list logEntry) (e : logEntry) :
  reachable t → lookup2 (logs t) g s = Some es → e ∈ es →
  group e = g ∧ span e = s ∧
  1 ≤ len_string (message e) ≤ 1000 ∧
  level e ∈ ["INFO"; "WARN"; "ERROR"] ∧
  0 ≤ count e < 4294967296.
Proof.
  intros Hr Hes He. pose proof (reachable_entries_ok t Hr g s es Hes) as Hall.
  rewrite Forall_forall in Hall. by apply Hall.
Qed.

Lemma stored_entries_are_well_formed_witness :
  group (LogEntry "g1" "s2" "c" "INFO" 3 1) = "g1" ∧
  span (LogEntry "g1" "s2" "c" "INFO" 3 1) = "s2" ∧
  1 ≤ len_string (message (LogEntry "g1" "s2" "c" "INFO" 3 1)) ≤ 1000 ∧
  level (LogEntry "g1" "s2" "c" "INFO" 3 1) ∈ ["INFO"; "WARN"; "ERROR"] ∧
  0 ≤ count (LogEntry "g1" "s2" "c" "INFO" 3 1) < 4294967296.
Proof.
  apply (stored_entries_are_well_formed three_groups "g1" "s2"
           [LogEntry "g1" "s2" "c" "INFO" 3 1]).
  - apply run_reachable, reachable_new.
  - reflexivity.
  - apply list_elem_of_singleton. reflexivity.
Defined.

(** ** Capacity without empty names *)

(** One level of the store, with its timestamps [b], its capacity [n] and
    the map [r] that a write under the key [k] leaves of the map [a]: when
    no key of [a] is the empty string, [r] is within the capacity that [a]
    is within. *)
Lemma capacity_step {V} (rt : GoRuntime) (a r : gmap string V)
    (b : gmap string Time) (n : Z) (k : string) :
  1 ≤ n → dom b = dom a → a !! "" = None → len_map a ≤ n →
  dom r = {[k]} ∪ dom (without
            match a !! k with
            | Some _ => None
            | None =>
                if (n <=? len_map b) && (0 <? n)
                   && negb (String.eqb (oldest_key rt b) "")
                then Some (oldest_key rt b) else None
            end a) →
  len_map r ≤ n.
Proof.
  intros Hn Hdom Hno Hlen Hr.
  destruct (a !! k) as [x|] eqn:Hk; simpl in Hr.
  - rewrite (len_map_dom r a); [done|]. rewrite Hr.
    apply subseteq_union_1_L, singleton_subseteq_l. by eapply elem_of_dom_2.
  - assert (Hb : len_map b = len_map a) by by apply len_map_dom.
    destruct (Z.leb_spec n (len_map b)) as [Hfull|Hroom]; simpl in Hr.
    + destruct (Z.ltb_spec 0 n); [|lia]. simpl in Hr.
      destruct (oldest_key_min rt b) as (ts & Hts & _).
      { intros ->. unfold len_map in Hfull. rewrite map_size_empty in Hfull.
        lia. }
      assert (Hin : is_Some (a !! oldest_key rt b)).
      { apply elem_of_dom. rewrite <- Hdom. by eapply elem_of_dom_2. }
      destruct (String.eqb_spec (oldest_key rt b) "") as [Heq|Hne].
      { rewrite Heq, Hno in Hin. by destruct Hin. }
      simpl in Hr. destruct Hin as [y Hy].
      assert (len_map a = len_map (delete (oldest_key rt b) a) + 1) as Hdel.
      { unfold len_map. rewrite <- (insert_delete_id a _ y Hy) at 1.
        rewrite map_size_insert_None by apply lookup_delete_eq. lia. }
      rewrite (len_map_grown (delete (oldest_key rt b) a) r k); [lia|done|].
      destruct (decide (oldest_key rt b = k)) as [->|Hk'].
      * apply lookup_delete_eq.
      * by rewrite lookup_delete_ne.
    + rewrite (len_map_grown a r k); [lia|done|done].
Qed.

(** No group and no span of the store is named by the empty string. *)
Definition no_empty_name (t : tracer) : Prop :=
  logs t !! "" = None ∧ ∀ g, lookup2 (logs t) g "" = None.

(** The store holds [numGroups] groups at most, and [numSpans] spans at
    most in each group. *)
Definition within_capacity (t : tracer) : Prop :=
  len_map (logs t) ≤ numGroups t ∧
  ∀ g, len_map (inner_map (logs t) g) ≤ numSpans t.

Lemma log_within_capacity rt l lvl group span msgfmt v timeNow t t' :
  wf t → no_empty_name t → within_capacity t → group ≠ "" → span ≠ "" →
  log rt l lvl group span msgfmt v timeNow t = Some t' →
  no_empty_name t' ∧ within_capacity t'.
Proof.
  intros Hwf [Hng Hns] [Hcg Hcs] Hg Hs Hlog.
  destruct (log_caps _ _ _ _ _ _ _ _ _ _ Hwf Hlog) as (HnG & HnS & _ & _).
  destruct (enabled t) eqn:Hen.
  2:{ unfold log, IsEnabled in Hlog. rewrite Hen in Hlog. simpl in Hlog.
      by injection Hlog as <-. }
  destruct (log_groups _ _ _ _ _ _ _ _ _ _ Hlog Hen) as (Hdom & Hout & _).
  pose proof (log_spans _ _ _ _ _ _ _ _ _ _ Hlog Hen) as [Hsdom _].
  simpl in Hsdom. unfold within_capacity. rewrite HnG, HnS.
  split; [split|split].
  - destruct (Hout "") as [-> _]; [done|].
    by destruct (without_lookup (group_victim rt group t) (logs t) "")
      as [-> | ->].
  - intros g. destruct (lookup2 (logs t') g "") as [es|] eqn:Hes; [|done].
    destruct (log_others _ _ _ _ _ _ _ _ _ _ _ _ _ Hwf Hlog Hes)
      as [[_ Heq]|Hold]; [done|]. by rewrite Hns in Hold.
  - apply (capacity_step rt (logs t) (logs t') (groupTS t) (numGroups t)
             group); [apply Hwf|apply Hwf|done|done|].
    exact Hdom.
  - intros g. destruct (decide (g = group)) as [->|Hne].
    + pose proof (ensure_group_wf rt group timeNow t Hwf) as Hwfu.
      destruct (ensure_group_caps rt group t) as (_ & HnSu & _). simpl in HnSu.
      set (u := set_groupTS <[group := timeNow]> (ensure_group rt group t))
        in *.
      assert (Hu : inner_map (logs u) group !! "" = None ∧
                   len_map (inner_map (logs u) group) ≤ numSpans t).
      { pose proof (ensure_group_maps rt group t) as Hmaps. simpl in Hmaps.
        subst u. simpl. destruct (logs t !! group) eqn:Hgr.
        - rewrite Hmaps. split; [by rewrite <- lookup2_inner|apply Hcs].
        - destruct Hmaps as (-> & _ & _). rewrite inner_map_insert.
          rewrite decide_True by done. split; [done|].
          unfold len_map. rewrite map_size_empty.
          pose proof (wf_numSpans _ Hwf). lia. }
      destruct Hu as [Hu1 Hu2].
      apply (capacity_step rt (inner_map (logs u) group)
               (inner_map (logs t') group) (inner_map (spanTS u) group)
               (numSpans t) span);
        [apply Hwf|apply Hwfu|done|done|].
      rewrite Hsdom. unfold span_victim, at_span_capacity.
      rewrite lookup2_inner.
      replace (numSpans u) with (numSpans t) by (by subst u). done.
    + unfold inner_map. destruct (Hout g Hne) as [-> _].
      destruct (without_lookup (group_victim rt group t) (logs t) g)
        as [-> | ->].
      * simpl. unfold len_map. rewrite map_size_empty.
        pose proof (wf_numSpans _ Hwf). lia.
      * apply Hcs.
Qed.

Lemma do_writes_within_capacity ws t :
  wf t → makeslice_ok (numMessages t) = true →
  no_empty_name t → within_capacity t →
  Forall (λ w, l_group (w_logger w) ≠ "" ∧ l_span (w_logger w) ≠ "") ws →
  ∃ t', do_writes ws t = Some t' ∧ within_capacity t' ∧
        numGroups t' = numGroups t ∧ numSpans t' = numSpans t.
Proof.
  intros Hwf Hmk Hno Hin Hall. revert t Hwf Hmk Hno Hin.
  induction Hall as [|w ws [Hg Hs] _ IH]; intros t Hwf Hmk Hno Hin.
  { by exists t. }
  destruct (do_write_wf w t Hwf (or_intror Hmk)) as (t1 & Ht1 & Hwf1).
  pose proof Ht1 as Hlog. rewrite do_write_log in Hlog.
  destruct (log_within_capacity _ _ _ _ _ _ _ _ _ _ Hwf Hno Hin Hg Hs Hlog)
    as [Hno1 Hin1].
  destruct (log_caps _ _ _ _ _ _ _ _ _ _ Hwf Hlog) as (HnG & HnS & HnM & _).
  destruct (IH t1 Hwf1) as (t' & Ht' & Hin' & HnG' & HnS');
    [by rewrite HnM|done|done|].
  exists t'. simpl. rewrite Ht1. simpl. split_and!; [done|done|congruence..].
Qed.

(** X14. Under names that are not empty the capacities hold: after any
    writes to a new store whose message capacity is one that [make] serves,
    each under a non-empty group name and a non-empty span name, the store
    holds [numGroups] groups at most and each group [numSpans] spans at
    most. *)
Theorem capacity_holds_without_empty_names (ws : list write)
    (numGroups' numSpans' numMessages' : Z) :
  makeslice_ok
    (numMessages (NewTracerWithSizes numGroups' numSpans' numMessages'))
  = true →
  Forall (λ w, l_group (w_logger w) ≠ "" ∧ l_span (w_logger w) ≠ "") ws →
  ∃ t', do_writes ws (NewTracerWithSizes numGroups' numSpans' numMessages')
        = Some t' ∧
        numGroups t'
        = (if numGroups' <? 1 then DefaultGroupCount else numGroups') ∧
        numSpans t'
        = (if numSpans' <? 1 then DefaultSpanCount else numSpans') ∧
        len_map (logs t') ≤ numGroups t' ∧
        ∀ g, len_map (inner_map (logs t') g) ≤ numSpans t'.
Proof.
  intros Hmk Hall.
  destruct (do_writes_within_capacity ws
              (NewTracerWithSizes numGroups' numSpans' numMessages'))
    as (t' & Ht' & [Hg Hs] & HnG & HnS); [apply wf_new|done|done| |done|].
  - split; simpl.
    + unfold len_map. rewrite map_size_empty.
      pose proof (wf_numGroups _ (wf_new numGroups' numSpans' numMessages')).
      simpl in *. lia.
    + intros g. unfold len_map, inner_map. rewrite lookup_empty. simpl.
      rewrite map_size_empty.
      pose proof (wf_numSpans _ (wf_new numGroups' numSpans' numMessages')).
      simpl in *. lia.
  - exists t'. split_and!; done.
Qed.

(** Three groups written to a store of two groups at most. *)
Lemma capacity_holds_without_empty_names_witness :
  ∃ t', do_writes [info "a" "s" "x" 1; info "b" "s" "x" 2; info "c" "s" "x" 3]
                  (NewTracerWithSizes 2 1 1) = Some t' ∧
        len_map (logs t') ≤ numGroups t'.
Proof.
  destruct (capacity_holds_without_empty_names
              [info "a" "s" "x" 1; info "b" "s" "x" 2; info "c" "s" "x" 3]
              2 1 1) as (t' & Ht' & _ & _ & Hg & _).
  - reflexivity.
  - repeat constructor; discriminate.
  - exists t'. split; [exact Ht'|exact Hg].
Defined.

(** ** The mapping of a snapshot *)

Lemma passes_spec (filter name : string) :
  passes filter name = true ↔ filter = "" ∨ String.prefix filter name = true.
Proof.
  unfold passes. destruct (String.eqb_spec filter "") as [->|Hne]; simpl.
  - split; [by left|done].
  - rewrite negb_involutive. split; [by right|]. by intros [|].
Qed.

Lemma elem_of_group_names rt groupFilter t group :
  group ∈ group_names rt groupFilter t ↔
  is_Some (logs t !! group) ∧ passes groupFilter group = true.
Proof.
  unfold group_names. rewrite sort_Slice_perm, list_elem_of_filter.
  rewrite elem_of_range_keys. tauto.
Qed.

Lemma elem_of_span_names rt spanFilter t group span :
  span ∈ span_names rt spanFilter t group ↔
  is_Some (lookup2 (logs t) group span) ∧ passes spanFilter span = true.
Proof.
  unfold span_names. rewrite sort_Slice_perm, list_elem_of_filter.
  rewrite elem_of_range_keys, lookup2_inner. tauto.
Qed.

Lemma snapshot_keys rt timezone withExactTime groupFilter spanFilter t :
  (snapshot rt timezone withExactTime groupFilter spanFilter t).*1
  = group_names rt groupFilter t.
Proof.
  unfold snapshot. rewrite <- list_fmap_compose. simpl. by rewrite list_fmap_id.
Qed.

Lemma ToMap_is_Some rt timezone withExactTime groupFilter spanFilter t group :
  is_Some ((ToMap rt timezone withExactTime groupFilter spanFilter t).1
           !! group) ↔
  is_Some (logs t !! group) ∧ passes groupFilter group = true.
Proof.
  rewrite ToMap_snapshot. simpl.
  rewrite <- elem_of_group_names,
    <- (snapshot_keys rt timezone withExactTime groupFilter spanFilter).
  rewrite <- elem_of_dom. unfold document_map.
  rewrite dom_list_to_map_L, elem_of_list_to_set.
  by rewrite <- list_fmap_compose.
Qed.

Lemma ToMap_lookup2 rt timezone withExactTime groupFilter spanFilter t
    group span ls :
  lookup2 (ToMap rt timezone withExactTime groupFilter spanFilter t).1
          group span = Some ls ↔
  passes groupFilter group = true ∧ passes spanFilter span = true ∧
  ∃ es, lookup2 (logs t) group span = Some es ∧
        ls = (λ e, FormattedMessage rt e timezone [withExactTime])
             <$> sort_Slice rt time es.
Proof.
  rewrite ToMap_snapshot. simpl.
  set (d := snapshot rt timezone withExactTime groupFilter spanFilter t).
  assert (Hd : NoDup d.*1).
  { subst d. rewrite snapshot_keys. apply NoDup_group_names. }
  assert (Hsps : Forall (λ g, NoDup g.2.*1) d).
  { subst d. unfold snapshot. apply Forall_fmap, Forall_forall.
    intros g _. simpl. rewrite <- list_fmap_compose. simpl.
    rewrite list_fmap_id. apply NoDup_span_names. }
  rewrite (document_map_lookup d) by done. split.
  - intros (sps & Hg & Hs). subst d. unfold snapshot in Hg.
    apply list_elem_of_fmap in Hg as (g & [= -> ->] & Hg).
    apply list_elem_of_fmap in Hs as (s & [= -> ->] & Hs).
    apply elem_of_group_names in Hg as [_ Hg].
    apply elem_of_span_names in Hs as [[es Hes] Hs].
    split_and!; [done|done|]. exists es. split; [done|].
    unfold lines. by rewrite <- lookup2_inner, Hes.
  - intros (Hg & Hs & es & Hes & ->).
    exists ((λ span, (span, lines rt timezone withExactTime t group span))
              <$> span_names rt spanFilter t group).
    split.
    + subst d. unfold snapshot. apply list_elem_of_fmap. exists group.
      split; [done|]. apply elem_of_group_names. split; [|done].
      unfold lookup2 in Hes. destruct (logs t !! group); [by eexists|done].
    + apply list_elem_of_fmap. exists span. split.
      { unfold lines. by rewrite <- lookup2_inner, Hes. }
      apply elem_of_span_names. split; [by eexists|done].
Qed.

(** X15. The mapping of [ToMap] is the store under the two filters. A group is a
    key of the mapping when it is in the store and the group filter is empty
    or a prefix of its name, whatever the span filter leaves of its spans. A
    span is a key under its group when the group is one, the span is in the
    store, and the span filter is empty or a prefix of its name; its value
    is the formatted messages of the entries of the span, in the order that
    [sort.Slice] by their time, most recent first, puts them in. *)
Theorem ToMap_mapping_is_the_filtered_store (rt : GoRuntime)
    (timezone : string) (withExactTime : bool)
    (groupFilter spanFilter : string) (t : tracer) :
  (∀ group,
     is_Some ((ToMap rt timezone withExactTime groupFilter spanFilter t).1
              !! group) ↔
     is_Some (logs t !! group) ∧
     (groupFilter = "" ∨ String.prefix groupFilter group = true)) ∧
  (∀ group span ls,
     lookup2 (ToMap rt timezone withExactTime groupFilter spanFilter t).1
             group span = Some ls ↔
     (groupFilter = "" ∨ String.prefix groupFilter group = true) ∧
     (spanFilter = "" ∨ String.prefix spanFilter span = true) ∧
     ∃ es, lookup2 (logs t) group span = Some es ∧
           ls = (λ e, FormattedMessage rt e timezone [withExactTime])
                <$> sort_Slice rt time es).
Proof.
  split.
  - intros group. rewrite <- passes_spec. apply ToMap_is_Some.
  - intros group span ls. rewrite <- !passes_spec. apply ToMap_lookup2.
Qed.

(** ** From a write to the readers *)

(** The entry that a write with a non-empty message leaves: in the slice of
    the written span there is an entry with the logger's group and span,
    the message cut at 1000 bytes, the level and the time of the write,
    whether the pair was new or counted. *)
Lemma do_write_entry w t :
  wf t → enabled t = true →
  span_can_be_made t (l_group (w_logger w)) (l_span (w_logger w)) →
  formatted w ≠ "" →
  ∃ t' es e,
    do_write w t = Some t' ∧ wf t' ∧
    lookup2 (logs t') (l_group (w_logger w)) (l_span (w_logger w)) = Some es ∧
    e ∈ es ∧ entry_key e = write_key w ∧ time e = w_time w.
Proof.
  intros Hwf Hen Hcan Hne.
  set (group := l_group (w_logger w)). set (span := l_span (w_logger w)).
  destruct (decide (write_key w ∈ (entry_key <$> slice_before t group span)))
    as [Hin|Hnew].
  - destruct (store_entry_present (w_logger w) _ _ (w_time w) (numMessages t)
                _ Hin) as (pre & e & post & Hs & _ & He & _).
    destruct (do_write_dup w t pre e post Hwf Hen Hne Hs He)
      as (t' & Ht' & Hst).
    exists t', (pre ++ bump (w_time w) e :: post), (bump (w_time w) e).
    split_and!; [done|apply Hst|apply Hst| |by rewrite entry_key_bump|done].
    apply elem_of_app. right. by left.
  - destruct (do_write_new w t Hwf Hen Hcan Hne Hnew) as (t' & Ht' & Hst).
    eexists t', _, (new_entry w).
    split_and!; [done|apply Hst|apply Hst| |done|done].
    apply elem_of_app. right. by left.
Qed.

(** X16. A write with a non-empty message on an enabled store whose message
    capacity is one that [make] serves is seen by both readers: the slice
    of the written span holds an entry with the logger's group and span,
    the message cut at 1000 bytes, the level and the time of the write;
    one of the slices of [Logs] of the group holds that entry; and
    when both names pass the filters, the mapping of [ToMap] holds the
    formatted message of that entry under the group and the span. *)
Theorem written_entry_is_read_back (rt : GoRuntime) (timezone : string)
    (withExactTime : bool) (groupFilter spanFilter : string) (w : write)
    (t : tracer) :
  reachable t → enabled t = true → makeslice_ok (numMessages t) = true →
  formatted w ≠ "" →
  ∃ t' e,
    do_write w t = Some t' ∧
    group e = l_group (w_logger w) ∧ span e = l_span (w_logger w) ∧
    message e = truncate (formatted w) ∧
    level e = level_of (w_severity w) ∧ time e = w_time w ∧
    (∃ out, out ∈ Logs rt (l_group (w_logger w)) t' ∧ e ∈ out) ∧
    ((groupFilter = "" ∨
      String.prefix groupFilter (l_group (w_logger w)) = true) →
     (spanFilter = "" ∨
      String.prefix spanFilter (l_span (w_logger w)) = true) →
     ∃ ls,
       lookup2 (ToMap rt timezone withExactTime groupFilter spanFilter t').1
               (l_group (w_logger w)) (l_span (w_logger w)) = Some ls ∧
       FormattedMessage rt e timezone [withExactTime] ∈ ls).
Proof.
  intros Hr Hen Hmk Hne. pose proof (reachable_wf t Hr) as Hwf.
  destruct (do_write_entry w t Hwf Hen (or_intror Hmk) Hne)
    as (t' & es & e & Ht' & Hwf' & Hes & He & Hkey & Htime).
  assert (Hok : entry_ok (l_group (w_logger w)) (l_span (w_logger w)) e).
  { assert (reachable t') as Hr' by by eapply reachable_write.
    pose proof (reachable_entries_ok t' Hr' _ _ _ Hes) as Hall.
    rewrite Forall_forall in Hall. by apply Hall. }
  destruct Hok as (Hg & Hs & _).
  injection Hkey as Hmsg Hlvl.
  exists t', e. split_and!; try done.
  - exists (sort_Slice rt time es). split; [|by rewrite sort_Slice_perm].
    unfold Logs.
    destruct (logs t' !! l_group (w_logger w)) as [spans|] eqn:Hgr.
    2:{ unfold lookup2 in Hes. by rewrite Hgr in Hes. }
    apply list_elem_of_fmap. exists (l_span (w_logger w)). split.
    + unfold span_entries. by rewrite Hes.
    + rewrite sort_Slice_perm, elem_of_range_keys, <- lookup2_inner, Hes.
      by eexists.
  - intros Hgf%passes_spec Hsf%passes_spec.
    exists ((λ e, FormattedMessage rt e timezone [withExactTime])
              <$> sort_Slice rt time es).
    split.
    + apply ToMap_lookup2. split_and!; [done|done|]. by exists es.
    + apply list_elem_of_fmap. exists e. split; [done|].
      by rewrite sort_Slice_perm.
Qed.

Lemma written_entry_is_read_back_witness :
  ∃ t' e,
    do_write (info "g1" "s1" "new" 9) three_groups = Some t' ∧
    message e = "new" ∧
    (∃ out, out ∈ Logs plain_runtime "g1" t' ∧ e ∈ out).
Proof.
  destruct (written_entry_is_read_back plain_runtime "UTC" true "" ""
              (info "g1" "s1" "new" 9) three_groups)
    as (t' & e & Ht' & _ & _ & Hmsg & _ & _ & Hlogs & _).
  - apply run_reachable, reachable_new.
  - reflexivity.
  - reflexivity.
  - discriminate.
  - exists t', e. split_and!; [exact Ht'|exact Hmsg|exact Hlogs].
Defined.

(** ** Groups and their spans *)

(** The timestamp of a group is the timestamp of one of its spans. *)
Definition group_has_span (t : tracer) : Prop :=
  ∀ g, is_Some (logs t !! g) →
       ∃ s ts, groupTS t !! g = Some ts ∧ lookup2 (spanTS t) g s = Some ts.

Lemma log_group_has_span rt l lvl group span msgfmt v timeNow t t' :
  wf t → group_has_span t →
  log rt l lvl group span msgfmt v timeNow t = Some t' → group_has_span t'.
Proof.
  intros Hwf Hinv Hlog. destruct (enabled t) eqn:Hen.
  2:{ unfold log, IsEnabled in Hlog. rewrite Hen in Hlog. simpl in Hlog.
      by injection Hlog as <-. }
  intros g Hg. destruct (decide (g = group)) as [->|Hne].
  - exists span, timeNow.
    pose proof (log_Some _ _ _ _ _ _ _ _ _ _ Hen Hlog) as Hcan.
    destruct (log_enabled rt l lvl group span msgfmt v timeNow t Hwf Hen Hcan)
      as (t3 & _ & _ & Htouched &
          [[_ Ht3]|(_ & s' & lg & _ & _ & _ & _ & Ht3)]);
      rewrite Ht3 in Hlog; injection Hlog as <-; simpl;
      by split; [eapply touched_groupTS|eapply touched_spanTS].
  - destruct (log_groups _ _ _ _ _ _ _ _ _ _ Hlog Hen) as (_ & Hout & HgTS).
    destruct (Hout g Hne) as [Hlogs HsTS].
    rewrite HgTS, lookup_insert_ne by done. unfold lookup2. rewrite HsTS.
    rewrite Hlogs in Hg. destruct (group_victim rt group t) as [k|]; simpl in *.
    + destruct (decide (k = g)) as [->|Hk].
      { rewrite lookup_delete_eq in Hg. by destruct Hg. }
      rewrite lookup_delete_ne in Hg by done. rewrite !lookup_delete_ne by done.
      apply (Hinv g Hg).
    + apply (Hinv g Hg).
Qed.

Lemma reachable_group_has_span t : reachable t → group_has_span t.
Proof.
  induction 1 as [g s m|w t t' Hr IH Hw|t Hr IH|t Hr IH]; try done.
  - intros g' Hg'. simpl in Hg'. rewrite lookup_empty in Hg'.
    by destruct Hg'.
  - rewrite do_write_log in Hw.
    eapply log_group_has_span; [by apply reachable_wf|done|done].
Qed.

(** X17. On a store whose message capacity is one that [make] serves (so
    that no write stopped between the group and the span), no group is
    without a span: a group that is there has a span whose timestamp is
    the timestamp of the group, so [ListSpans] of a listed group is not
    empty. *)
Theorem listed_group_has_a_span (rt : GoRuntime) (t : tracer) (g : string) :
  reachable t → makeslice_ok (numMessages t) = true → g ∈ ListGroups rt t →
  ∃ s ts, s ∈ ListSpans rt g t ∧
          groupTS t !! g = Some ts ∧ lookup2 (spanTS t) g s = Some ts.
Proof.
  intros Hr _ Hg. apply elem_of_range_keys in Hg.
  destruct (reachable_group_has_span t Hr g Hg) as (s & ts & HgTS & HsTS).
  exists s, ts. split_and!; [|done|done].
  apply elem_of_range_keys. apply elem_of_dom.
  rewrite <- (wf_spans _ (reachable_wf t Hr)). apply elem_of_dom.
  rewrite <- lookup2_inner. by eexists.
Qed.

Lemma listed_group_has_a_span_witness :
  ∃ s ts, s ∈ ListSpans plain_runtime "g1" three_groups ∧
          groupTS three_groups !! "g1" = Some ts ∧
          lookup2 (spanTS three_groups) "g1" s = Some ts.
Proof.
  apply (listed_group_has_a_span plain_runtime three_groups "g1").
  - apply run_reachable, reachable_new.
  - reflexivity.
  - apply elem_of_range_keys. by eexists.
Defined.

(** ** The one panic of a write *)

Lemma log_new_span_out_of_range rt l lvl group span msgfmt v timeNow t :
  enabled t = true → lookup2 (logs t) group span = None →
  makeslice_ok (numMessages t) = false →
  log rt l lvl group span msgfmt v timeNow t = None.
Proof.
  intros Hen Hnew Hmk.
  destruct (log rt l lvl group span msgfmt v timeNow t) as [t'|] eqn:Hlog;
    [|done].
  destruct (log_Some _ _ _ _ _ _ _ _ _ _ Hen Hlog) as [Hthere|Hok].
  - rewrite Hnew in Hthere. by destruct Hthere.
  - by rewrite Hmk in Hok.
Qed.

(** X18. A write on an enabled store that a program can reach panics in
    exactly one case: its span is not there and a slice of the capacity
    [numMessages] cannot be made (the capacity times the 96 bytes of an
    entry exceeds [maxAlloc]).  The message plays no part: the slice is
    made before the message is formatted, so a write of an empty message
    panics as well. *)
Theorem write_panics_on_new_span_out_of_range (rt : GoRuntime) (l : logger)
    (lvl group span msgfmt : string) (v : list any) (timeNow : Time)
    (t : tracer) :
  reachable t → enabled t = true →
  log rt l lvl group span msgfmt v timeNow t = None ↔
  lookup2 (logs t) group span = None ∧
  maxAlloc < numMessages t * logEntry_size.
Proof.
  intros Hr Hen. pose proof (reachable_wf t Hr) as Hwf.
  assert (Hrange : makeslice_ok (numMessages t) = false ↔
                   maxAlloc < numMessages t * logEntry_size).
  { unfold makeslice_ok. pose proof (wf_numMessages _ Hwf).
    destruct (Z.leb_spec 0 (numMessages t)); [|lia]. simpl.
    destruct (Z.leb_spec (numMessages t * logEntry_size) maxAlloc);
      split; (done || lia). }
  rewrite <- Hrange. split.
  - intros Hlog.
    destruct (lookup2 (logs t) group span) as [es|] eqn:Hes.
    { destruct (log_wf rt l lvl group span msgfmt v timeNow t Hwf)
        as (t' & Ht' & _); [by eapply span_can_be_made_there|congruence]. }
    split; [done|].
    destruct (makeslice_ok (numMessages t)) eqn:Hmk; [|done].
    destruct (log_wf rt l lvl group span msgfmt v timeNow t Hwf)
      as (t' & Ht' & _); [by right|congruence].
  - intros [Hnew Hmk]. by apply log_new_span_out_of_range.
Qed.

(** The first write to a store made with the message capacity [2^62]. *)
Lemma write_panics_on_new_span_out_of_range_witness :
  log plain_runtime (Trace "g" "s") "INFO" "g" "s" "" [] 1
      (NewTracerWithSizes 1 1 4611686018427387904) = None.
Proof.
  apply (write_panics_on_new_span_out_of_range plain_runtime (Trace "g" "s")
           "INFO" "g" "s" "" [] 1 (NewTracerWithSizes 1 1 4611686018427387904)).
  - apply reachable_new.
  - reflexivity.
  - split; reflexivity.
Defined.
